(** * parrot_tools.generate.stable_diffusion_pipeline

    A shallow embedding of [scale_image], [preprocess] and
    [StableDiffusionPipelineCustom.__call__], and the properties of the
    specification stated and settled against it.

    Conventions of the embedding.
    - Python [int] is [Z]; Python [float] and [np.float64] are IEEE binary64,
      [np.float32] is IEEE binary32, both as [spec_float] with the operations
      of the Standard Library's [SpecFloat].
    - A Python exception is a value of [Exn]; fallible pure code returns
      [result A = Exn + A].
    - Pillow's [Image.convert] and [Image.resize], the torch tensor
      operations and the pipeline's collaborators (tokenizer, text encoder,
      UNet, scheduler, VAE, feature extractor, safety checker) are not code
      of this file: the first two groups are interfaces ([PIL], [Torch]),
      the collaborators are the calls of an interaction tree ([Prog]).
    - The tensor operations act on opaque tensors and are total: what
      torch raises on tensors that do not fit (shapes, devices) is not
      modelled.  [torch.cat] on an empty Python list is modelled, since
      the list is built by [__call__] itself ([torch_cat]). *)

From Stdlib Require Import QArith Qpower Lqa.
From Stdlib Require Import String.
From Stdlib Require Import ZArith List Bool Lia.
From Stdlib Require Import Floats.SpecFloat Strings.Byte.
Import ListNotations.
Local Open Scope Z_scope.

Set Warnings "-register-all".

(** ** Python values, exceptions and results *)

Inductive PyType : Type :=
| TStr | TList | TTuple | TInt | TNoneType.

(** The values a caller can pass as [prompt]. *)
Inductive PyVal : Type :=
| PStr (s : string)
| PList (l : list PyVal)
| PTuple (l : list PyVal)
| PInt (z : Z)
| PNone.

Definition py_type (v : PyVal) : PyType :=
  match v with
  | PStr _ => TStr
  | PList _ => TList
  | PTuple _ => TTuple
  | PInt _ => TInt
  | PNone => TNoneType
  end.

(** The text of an error, with the values its f-string interpolates. *)
Inductive ErrMsg : Type :=
| MsgPromptType (t : PyType)
    (* `prompt` has to be of type `str` or `list` but is {type(prompt)} *)
| MsgNotDivisibleBy8 (height width : Z)
    (* `height` and `width` have to be divisible by 8 but are {height} and {width}. *)
| MsgStrength (init_strength : spec_float)
    (* The value of strength should in [0.0, 1.0] but is {init_strength} *)
| MsgNanToInt
    (* cannot convert float NaN to integer *)
| MsgUnpack (expected got : Z)
    (* not enough / too many values to unpack *)
| MsgAxes
    (* axes don't match array *)
| MsgEmptyCat
    (* torch's message for an empty list of tensors; its wording depends on
       the version of torch *)
| MsgLibrary (text : string).
    (* a ValueError raised inside a library *)

Inductive Exn : Type :=
| ValueError (m : ErrMsg)
| ZeroDivisionError
| OverflowError
| IndexError
| UnboundLocalError (name : string)
| RuntimeError (m : ErrMsg).
    (* RuntimeError or a subclass of it: for an empty list of tensors some
       versions of torch raise NotImplementedError *)

Definition result (A : Type) : Type := (Exn + A)%type.

Definition rbind {A B : Type} (r : result A) (k : A -> result B) : result B :=
  match r with
  | inl e => inl e
  | inr a => k a
  end.

Declare Scope result_scope.
Delimit Scope result_scope with result.
Notation "x <-? c1 ;; c2" := (rbind c1 (fun x => c2))
  (at level 61, c1 at next level, right associativity) : result_scope.
Local Open Scope result_scope.

(** [l[i]] on a Python sequence: a negative index counts from the end. *)
Definition py_index {A : Type} (l : list A) (i : Z) : result A :=
  let n := Z.of_nat (length l) in
  let j := if i <? 0 then i + n else i in
  if (0 <=? j) && (j <? n) then
    match nth_error l (Z.to_nat j) with
    | Some a => inr a
    | None => inl IndexError
    end
  else inl IndexError.

(** [[x] * n]. *)
Definition py_repeat {A : Type} (x : A) (n : Z) : list A := repeat x (Z.to_nat n).

(** [l[start:]] for [0 <= start]. *)
Definition py_slice_from {A : Type} (l : list A) (start : Z) : list A :=
  skipn (Z.to_nat start) l.

(** ** Floating point *)

Module PyFloat.

(** Python [float] / [np.float64]: IEEE binary64. *)
Definition prec : Z := 53.
Definition emax : Z := 1024.

Definition float : Type := spec_float.

Definition mul : float -> float -> float := SFmul prec emax.
Definition div : float -> float -> float := SFdiv prec emax.
Definition sqrt : float -> float := SFsqrt prec emax.   (* np.sqrt *)
Definition ltb : float -> float -> bool := SFltb.
Definition leb : float -> float -> bool := SFleb.

(** Nearest binary64 value of an integer (ties to even). *)
Definition of_Z (n : Z) : float := binary_normalize prec emax n 0 false.

Definition zero : float := S754_zero false.
Definition one : float := Eval cbv in of_Z 1.

Definition is_inf (x : float) : bool :=
  match x with S754_infinity _ => true | _ => false end.

(** An [int] operand of a float operation is converted first; an [int]
    beyond the binary64 range raises OverflowError. *)
Definition of_int (n : Z) : result float :=
  let x := of_Z n in
  if is_inf x then inl OverflowError else inr x.

(** [n * x] for an [int] [n] and a float [x]. *)
Definition int_mul (n : Z) (x : float) : result float :=
  fn <-? of_int n ;; inr (mul fn x).

(** The integer as a float operand with its exact value: mantissa [|n|],
    exponent 0. *)
Definition exact_of_Z (n : Z) : float :=
  match n with
  | Z0 => S754_zero false
  | Zpos p => S754_finite false p 0
  | Zneg p => S754_finite true p 0
  end.

(** [a / b] on two [int]s: the correctly rounded quotient. *)
Definition truediv (a b : Z) : result float :=
  if b =? 0 then inl ZeroDivisionError
  else
    let q := div (exact_of_Z a) (exact_of_Z b) in
    if is_inf q then inl OverflowError else inr q.

(** The value of a finite float, truncated toward zero. *)
Definition trunc (x : float) : Z :=
  match x with
  | S754_finite s m e =>
      cond_Zopp s (if 0 <=? e then Z.shiftl (Zpos m) e else Z.shiftr (Zpos m) (- e))
  | _ => 0
  end.

(** [int(x)]. *)
Definition to_int (x : float) : result Z :=
  match x with
  | S754_nan => inl (ValueError MsgNanToInt)
  | S754_infinity _ => inl OverflowError
  | _ => inr (trunc x)
  end.

(** A decimal literal [num / 10^k], correctly rounded. *)
Definition literal (num den : Z) : float := div (exact_of_Z num) (exact_of_Z den).

Definition lit_0_18215 : float := Eval cbv in literal 18215 100000.
Definition lit_0_5 : float := Eval cbv in literal 1 2.

End PyFloat.

(** [np.float32]: IEEE binary32. *)
Module F32.

Definition prec : Z := 24.
Definition emax : Z := 128.

Definition of_Z (n : Z) : spec_float := binary_normalize prec emax n 0 false.
Definition mul : spec_float -> spec_float -> spec_float := SFmul prec emax.
Definition div : spec_float -> spec_float -> spec_float := SFdiv prec emax.
Definition sub : spec_float -> spec_float -> spec_float := SFsub prec emax.

Definition one : spec_float := Eval cbv in of_Z 1.
Definition two : spec_float := Eval cbv in of_Z 2.
Definition minus_one : spec_float := Eval cbv in of_Z (-1).
Definition lit_255 : spec_float := Eval cbv in of_Z 255.

(** [np.uint8 -> np.float32], exact. *)
Definition of_byte (b : byte) : spec_float := of_Z (Z.of_N (Byte.to_N b)).

End F32.

(** [round(x)] on a float, as the specification writes it: to the nearest
    integer, ties to the even one. *)
Definition round_half_even (x : spec_float) : Z :=
  match x with
  | S754_finite s m e =>
      cond_Zopp s
        (if 0 <=? e then Z.shiftl (Zpos m) e
         else
           let q := Z.shiftr (Zpos m) (- e) in
           let r := Zpos m - Z.shiftl q (- e) in
           match 2 * r ?= 2 ^ (- e) with
           | Lt => q
           | Gt => q + 1
           | Eq => if Z.even q then q else q + 1
           end)
  | _ => 0
  end.

(** The rounding record of [SpecFloat] has lost a nonzero bit. *)
Definition inexact (mrs : shr_record) : bool := shr_r mrs || shr_s mrs.

(** ** Images and arrays *)

(** The Pillow modes that occur: 8-bit grey, RGB, RGB with alpha. *)
Inductive Mode : Type := ModeL | ModeRGB | ModeRGBA.

(** A Pillow image: [size] is (width, height); [im_data] holds the 8-bit
    samples row by row, the bands of a pixel next to each other. *)
Record Image : Type := {
  im_mode : Mode;
  im_size : Z * Z;
  im_data : list byte
}.

(** A numpy array or CPU tensor: its shape and its elements in row-major
    order. *)
Record ndarray (A : Type) : Type := {
  shape : list Z;
  data : list A
}.
Arguments shape {A} _.
Arguments data {A} _.

Definition FloatTensor : Type := ndarray spec_float.

Definition band_dims (m : Mode) : list Z :=
  match m with
  | ModeL => []
  | ModeRGB => [3]
  | ModeRGBA => [4]
  end.

(** The samples of one pixel. *)
Definition band_count (m : Mode) : Z :=
  match m with ModeL => 1 | ModeRGB => 3 | ModeRGBA => 4 end.

(** [np.array(image)]: a uint8 array of shape (height, width[, bands]). *)
Definition np_array (image : Image) : ndarray byte :=
  let '(w, h) := im_size image in
  {| shape := h :: w :: band_dims (im_mode image); data := im_data image |}.

(** An elementwise operation. *)
Definition array_map {A B : Type} (f : A -> B) (a : ndarray A) : ndarray B :=
  {| shape := shape a; data := map f (data a) |}.

(** [a[None]]. *)
Definition expand_dims0 {A : Type} (a : ndarray A) : ndarray A :=
  {| shape := 1 :: shape a; data := data a |}.

Definition zrange (n : Z) : list Z := map Z.of_nat (seq 0 (Z.to_nat n)).

(** [a.transpose(0, 3, 1, 2)]: element (n, c, y, x) of the result is element
    (n, y, x, c) of [a]. *)
Definition transpose_0312 {A : Type} (a : ndarray A) : result (ndarray A) :=
  match shape a with
  | [n; h; w; c] =>
      let source :=
        flat_map (fun i_n =>
          flat_map (fun i_c =>
            flat_map (fun i_y =>
              map (fun i_x => ((i_n * h + i_y) * w + i_x) * c + i_c) (zrange w))
              (zrange h))
            (zrange c))
          (zrange n) in
      inr {| shape := [n; c; h; w];
             data := flat_map (fun i => match nth_error (data a) (Z.to_nat i) with
                                        | Some x => [x]
                                        | None => []
                                        end) source |}
  | _ => inl (ValueError MsgAxes)
  end.

(** The two Pillow methods the module calls. *)
Class PIL : Type := {
  convert : Mode -> Image -> Image;            (* image.convert(mode) *)
  resize : Image -> Z * Z -> result Image      (* image.resize(size, resample=LANCZOS) *)
}.

(** What the module relies on from Pillow: [convert] gives the mode asked
    for and keeps the size; [resize] to a size with positive width and
    height succeeds; an image it returns has the size asked for and the
    mode of its source. *)
Class PILSpec (pil : PIL) : Prop := {
  convert_mode : forall m image, im_mode (convert m image) = m;
  convert_size : forall m image, im_size (convert m image) = im_size image;
  resize_positive :
    forall image w h, 0 < w -> 0 < h -> exists image', resize image (w, h) = inr image';
  resize_size : forall image size image', resize image size = inr image' -> im_size image' = size;
  resize_mode :
    forall image size image', resize image size = inr image' -> im_mode image' = im_mode image
}.

(** Pillow's [resize] raises ValueError("height and width must be > 0")
    for a size with a dimension below 1. *)
Class PILRejectsEmpty (pil : PIL) : Prop := {
  resize_empty :
    forall image w h, w < 1 \/ h < 1 ->
      exists text, resize image (w, h) = inl (ValueError (MsgLibrary text))
}.

(** An image that [resize] returns holds the samples of its pixels:
    height x width x bands of them. *)
Class PILDataSpec (pil : PIL) : Prop := {
  resize_data :
    forall image size image', resize image size = inr image' ->
      length (im_data image')
      = Z.to_nat (snd size * fst size * band_count (im_mode image'))
}.

(** The number of pixels of an image. *)
Definition pixel_count (image : Image) : Z := fst (im_size image) * snd (im_size image).

(** A float32 value within [-1, 1]. *)
Definition in_unit_range (x : spec_float) : bool :=
  SFleb F32.minus_one x && SFleb x F32.one.

Section Preprocessing.
Context {pil : PIL}.

(** [scale_image], lines 20-28. *)
Definition scale_image (image : Image) (max_pixels : Z) : result Image :=
  let '(w, h) := im_size image in
  q <-? PyFloat.truediv max_pixels (w * h) ;;
  let scale := PyFloat.sqrt q in
  if PyFloat.ltb scale PyFloat.one then
    w' <-? (p <-? PyFloat.int_mul w scale ;; PyFloat.to_int p) ;;
    h' <-? (p <-? PyFloat.int_mul h scale ;; PyFloat.to_int p) ;;
    resize image (w', h')
  else inr image.

(** [preprocess], lines 31-46. *)
Definition preprocess (image : Image) (max_pixels : Z) : result FloatTensor :=
  let image := convert ModeRGB image in
  image <-? scale_image image max_pixels ;;
  let '(w, h) := im_size image in
  let w := w - w mod 64 in
  let h := h - h mod 64 in
  image <-? resize image (w, h) ;;
  let a := array_map F32.of_byte (np_array image) in
  let a := array_map (fun x => F32.div x F32.lit_255) a in
  a <-? transpose_0312 (expand_dims0 a) ;;
  (* torch.from_numpy keeps shape and elements *)
  inr (array_map (fun x => F32.sub (F32.mul F32.two x) F32.one) a).

(** The size computations of [scale_image] alone: [None] when the image
    is kept, [Some size] when it is resized to [size]. *)
Definition scaled_size (max_pixels : Z) (size : Z * Z) : result (option (Z * Z)) :=
  let '(w, h) := size in
  q <-? PyFloat.truediv max_pixels (w * h) ;;
  let scale := PyFloat.sqrt q in
  if PyFloat.ltb scale PyFloat.one then
    w' <-? (p <-? PyFloat.int_mul w scale ;; PyFloat.to_int p) ;;
    h' <-? (p <-? PyFloat.int_mul h scale ;; PyFloat.to_int p) ;;
    inr (Some (w', h'))
  else inr None.

(** Line 40: each dimension rounded down to a multiple of 64. *)
Definition round_down_64 (size : Z * Z) : Z * Z :=
  let '(w, h) := size in (w - w mod 64, h - h mod 64).

(** The size [preprocess] asks of its last [resize]: the size after
    [scale_image], rounded down. *)
Definition target_size (max_pixels : Z) (size : Z * Z) : result (Z * Z) :=
  scaled <-? scaled_size max_pixels size ;;
  inr (round_down_64 (match scaled with Some size' => size' | None => size end)).

End Preprocessing.

(** Lines 42 and 46 on one 8-bit sample: [2.0 * (x / 255.0) - 1.0] in
    float32. *)
Definition rescale (b : byte) : spec_float :=
  F32.sub (F32.mul F32.two (F32.div (F32.of_byte b) F32.lit_255)) F32.one.

(** Each float of the list is below all those after it. *)
Fixpoint strictly_increasing (l : list spec_float) : bool :=
  match l with
  | [] => true
  | x :: rest => forallb (SFltb x) rest && strictly_increasing rest
  end.

(** The value of a finite binary float, as a rational. *)
Definition F2Q (x : spec_float) : Q :=
  match x with
  | S754_finite s m e => (inject_Z (cond_Zopp s (Zpos m)) * 2 ^ e)%Q
  | _ => 0%Q
  end.

(** [1 + 2^-52]: the largest factor by which rounding to binary64 raises
    a value in the normal range. *)
Definition one_plus_ulp : Q := (4503599627370497 # 4503599627370496)%Q.

(** ** Tensors *)

Inductive Device : Type := Cpu | Cuda | DeviceNamed (name : string).

(** A Python number used as a scalar operand of a tensor operation. *)
Inductive PyNum : Type := NInt (z : Z) | NFloat (x : spec_float).

(** The torch and numpy operations [__call__] applies to opaque values. *)
Class Torch : Type := {
  Tensor : Type;
  NdImages : Type;       (* the decoded images as a numpy array (N, H, W, C) *)
  NsfwFlags : Type;
  Generator : Type;
  DType : Type;
  t_to : Device -> Tensor -> Tensor;            (* x.to(device) *)
  t_to_dtype : DType -> Tensor -> Tensor;       (* x.to(dtype) *)
  t_cat : list Tensor -> Tensor;                (* torch.cat(xs), xs not empty *)
  t_chunk : Z -> Tensor -> list Tensor;         (* x.chunk(n) *)
  t_shape : Tensor -> list Z;                   (* x.shape *)
  t_add : Tensor -> Tensor -> Tensor;
  t_sub : Tensor -> Tensor -> Tensor;
  t_mul : Tensor -> Tensor -> Tensor;
  t_div : Tensor -> Tensor -> Tensor;
  s_mul : PyNum -> Tensor -> Tensor;            (* c * x *)
  t_add_s : Tensor -> PyNum -> Tensor;          (* x + c *)
  t_div_s : Tensor -> PyNum -> Tensor;          (* x / c *)
  t_pow_s : Tensor -> PyNum -> Tensor;          (* x ** c *)
  t_clamp : PyNum -> PyNum -> Tensor -> Tensor; (* x.clamp(lo, hi) *)
  long_tensor : list Z -> Device -> Tensor;     (* torch.tensor(ints, dtype=torch.long, device=device) *)
  long_tensor_of : list Tensor -> Device -> Tensor;
  of_float_tensor : FloatTensor -> Tensor;      (* a tensor given by shape and elements *)
  to_numpy_nhwc : Tensor -> NdImages;           (* x.cpu().permute(0, 2, 3, 1).numpy() *)
  numpy_to_pil : NdImages -> list Image         (* self.numpy_to_pil(images) *)
}.

(** ** The pipeline object and the arguments of a call *)

Section Pipeline.
Context {torch : Torch} {pil : PIL}.

(** What [__call__] reads from [self]. *)
Record Pipe : Type := {
  self_device : Device;                 (* self.device *)
  tokenizer_model_max_length : Z;       (* self.tokenizer.model_max_length *)
  unet_in_channels : Z;                 (* self.unet.in_channels *)
  unet_dtype : DType;                   (* self.unet.dtype *)
  scheduler_is_lms : bool;              (* isinstance(self.scheduler, LMSDiscreteScheduler) *)
  set_timesteps_accepts_offset : bool;  (* "offset" in the parameters of scheduler.set_timesteps *)
  step_accepts_eta : bool               (* "eta" in the parameters of scheduler.step *)
}.

Record Args : Type := {
  prompt : PyVal;
  height : Z;
  width : Z;
  init_image : option (Tensor + Image);   (* None, a FloatTensor or a PIL image *)
  init_max_pixels : Z;
  init_strength : PyFloat.float;
  num_inference_steps : Z;
  guidance_scale : PyFloat.float;
  eta : PyFloat.float;
  generator : option Generator;
  output_type : string;
  torch_device : option (option Device)   (* kwargs["torch_device"], when present *)
}.

Record Output : Type := {
  sample : list Image + NdImages;
  nsfw_content_detected : NsfwFlags
}.

(** ** Collaborator calls *)

Inductive Call : Type :=
| Warn (message : string)                            (* warnings.warn *)
| CudaIsAvailable                                    (* torch.cuda.is_available() *)
| PipeTo (device : Device)                           (* self.to(device) *)
| Tokenizer (text : PyVal) (max_length : Z) (truncation : bool)
                                                     (* self.tokenizer(...).input_ids *)
| TextEncoder (input_ids : Tensor)                   (* self.text_encoder(ids)[0] *)
| SetTimesteps (n : Z) (offset : option Z)           (* self.scheduler.set_timesteps *)
| SchedulerTimesteps                                 (* self.scheduler.timesteps *)
| SchedulerSigmas                                    (* self.scheduler.sigmas *)
| VaeEncodeSample (x : Tensor)                       (* self.vae.encode(x).sample() *)
| Randn (size : list Z) (g : option Generator) (device : Device)
                                                     (* torch.randn *)
| AddNoise (x noise timesteps : Tensor)              (* self.scheduler.add_noise *)
| Unet (x t encoder_hidden_states : Tensor)          (* self.unet(...)["sample"] *)
| SchedulerStep (noise_pred : Tensor) (t : Tensor + Z) (latents : Tensor)
                (eta_kw : option PyFloat.float)      (* self.scheduler.step(...)["prev_sample"] *)
| VaeDecode (z : Tensor)                             (* self.vae.decode *)
| FeatureExtractor (images : list Image)             (* self.feature_extractor(...).pixel_values *)
| SafetyChecker (images : NdImages) (clip_input : Tensor).
                                                     (* self.safety_checker *)

Definition Resp (c : Call) : Type :=
  match c with
  | Warn _ => unit
  | CudaIsAvailable => bool
  | PipeTo _ => unit
  | Tokenizer _ _ _ => Tensor
  | TextEncoder _ => Tensor
  | SetTimesteps _ _ => unit
  | SchedulerTimesteps => list Tensor
  | SchedulerSigmas => list Tensor
  | VaeEncodeSample _ => Tensor
  | Randn _ _ _ => Tensor
  | AddNoise _ _ _ => Tensor
  | Unet _ _ _ => Tensor
  | SchedulerStep _ _ _ _ => Tensor
  | VaeDecode _ => Tensor
  | FeatureExtractor _ => Tensor
  | SafetyChecker _ _ => (NdImages * NsfwFlags)%type
  end.

(** A computation that calls collaborators: it returns, raises, or makes a
    call and goes on with the answer. *)
Inductive Prog (A : Type) : Type :=
| Ret (a : A)
| Raise (e : Exn)
| Do (c : Call) (k : Resp c -> Prog A).
Arguments Ret {A} a.
Arguments Raise {A} e.
Arguments Do {A} c k.

Fixpoint bind {A B : Type} (p : Prog A) (f : A -> Prog B) : Prog B :=
  match p with
  | Ret a => f a
  | Raise e => Raise e
  | Do c k => Do c (fun r => bind (k r) f)
  end.

Definition call (c : Call) : Prog (Resp c) := Do c (fun r => Ret r).

Definition lift {A : Type} (r : result A) : Prog A :=
  match r with
  | inl e => Raise e
  | inr a => Ret a
  end.

Notation "x <- c1 ;; c2" := (bind c1 (fun x => c2))
  (at level 61, c1 at next level, right associativity).
Notation "' pat <- c1 ;; c2" := (bind c1 (fun x => match x with pat => c2 end))
  (at level 61, pat pattern, c1 at next level, right associativity).

(** ** [__call__], block by block *)

(** Lines 88-95: the legacy [torch_device] keyword.  The result is the
    device [self.device] names from here on. *)
Definition legacy_device (self : Pipe) (a : Args) : Prog Device :=
  match torch_device a with
  | None => Ret (self_device self)
  | Some device =>
      _ <- call (Warn " Consider using `pipe.to(torch_device)` instead.") ;;
      device <- match device with
                | Some d => Ret d
                | None => available <- call CudaIsAvailable ;;
                          Ret (if available : bool then Cuda else Cpu)
                end ;;
      _ <- call (PipeTo device) ;;
      Ret device
  end.

(** Lines 97-104. *)
Definition batch_size_of (prompt : PyVal) : result Z :=
  match prompt with
  | PStr _ => inr 1
  | PList l => inr (Z.of_nat (length l))
  | _ => inl (ValueError (MsgPromptType (py_type prompt)))
  end.

(** [isinstance(prompt, str) or isinstance(prompt, list)]. *)
Definition is_str_or_list (prompt : PyVal) : bool :=
  match prompt with
  | PStr _ | PList _ => true
  | _ => false
  end.

Definition is_not_None {A : Type} (x : option A) : bool :=
  match x with Some _ => true | None => false end.

(** Lines 106-109: [init_image is not None and height % 8 != 0 or
    width % 8 != 0]; [and] binds tighter than [or]. *)
Definition check_size (a : Args) : result unit :=
  if (is_not_None (init_image a) && negb (height a mod 8 =? 0))
     || negb (width a mod 8 =? 0)
  then inl (ValueError (MsgNotDivisibleBy8 (height a) (width a)))
  else inr tt.

(** Lines 111-115. *)
Definition check_strength (a : Args) : result unit :=
  if is_not_None (init_image a) then
    if PyFloat.ltb (init_strength a) PyFloat.zero
       || PyFloat.ltb PyFloat.one (init_strength a)
    then inl (ValueError (MsgStrength (init_strength a)))
    else inr tt
  else inr tt.

(** Line 130. *)
Definition do_classifier_free_guidance (a : Args) : bool :=
  PyFloat.ltb PyFloat.one (guidance_scale a).

(** Lines 117-147: the text embeddings. *)
Definition encode_prompt (self : Pipe) (a : Args) (device : Device) (batch_size : Z)
  : Prog Tensor :=
  text_input <- call (Tokenizer (prompt a) (tokenizer_model_max_length self) true) ;;
  text_embeddings <- call (TextEncoder (t_to device text_input)) ;;
  if do_classifier_free_guidance a then
    max_length <- lift (py_index (t_shape text_input) (-1)) ;;
    uncond_input <-
      call (Tokenizer (PList (py_repeat (PStr EmptyString) batch_size)) max_length false) ;;
    uncond_embeddings <- call (TextEncoder (t_to device uncond_input)) ;;
    Ret (t_cat [uncond_embeddings; text_embeddings])
  else Ret text_embeddings.

(** Lines 149-159: returns [offset]. *)
Definition set_timesteps (self : Pipe) (a : Args) : Prog Z :=
  if set_timesteps_accepts_offset self then
    _ <- call (SetTimesteps (num_inference_steps a) (Some 1)) ;; Ret 1
  else
    _ <- call (SetTimesteps (num_inference_steps a) None) ;; Ret 0.

(** Lines 173-174. *)
Definition get_init_timestep (n : Z) (strength : PyFloat.float) (offset : Z) : result Z :=
  product <-? PyFloat.int_mul n strength ;;
  truncated <-? PyFloat.to_int product ;;
  let init_timestep := truncated + offset in
  inr (Z.min init_timestep n).

(** Lines 173-174 as the specification writes them:
    [min(round(num_inference_steps * init_strength) + offset,
    num_inference_steps)]. *)
Definition spec_init_timestep (n : Z) (strength : PyFloat.float) (offset : Z) : result Z :=
  (product <-? PyFloat.int_mul n strength ;;
   inr (Z.min (round_half_even product + offset) n))%result.

(** [torch.cat(xs)] on a Python list: an empty list raises RuntimeError. *)
Definition torch_cat (xs : list Tensor) : result Tensor :=
  match xs with
  | [] => inl (RuntimeError MsgEmptyCat)
  | _ :: _ => inr (t_cat xs)
  end.

(** Lines 175-185: the timesteps handed to [add_noise]. *)
Definition noise_timesteps (self : Pipe) (a : Args) (device : Device)
           (batch_size init_timestep : Z) : Prog Tensor :=
  if scheduler_is_lms self then
    Ret (long_tensor (py_repeat (num_inference_steps a - init_timestep) batch_size) device)
  else
    schedule <- call SchedulerTimesteps ;;
    timesteps <- lift (py_index schedule (- init_timestep)) ;;
    Ret (long_tensor_of (py_repeat timesteps batch_size) device).

(** Lines 161-206: the initial latents, and [init_timestep] when the
    seed-image branch has assigned it. *)
Definition prepare_latents (self : Pipe) (a : Args) (device : Device)
           (batch_size offset : Z) : Prog (Tensor * option Z) :=
  match init_image a with
  | Some image =>
      image <- match image with
               | inl tensor => Ret tensor
               | inr pil_image =>
                   x <- lift (preprocess pil_image (init_max_pixels a)) ;;
                   Ret (of_float_tensor x)
               end ;;
      init_latents <- call (VaeEncodeSample (t_to device image)) ;;
      let init_latents := s_mul (NFloat PyFloat.lit_0_18215) init_latents in
      init_latents <- lift (torch_cat (py_repeat init_latents batch_size)) ;;
      init_timestep <-
        lift (get_init_timestep (num_inference_steps a) (init_strength a) offset) ;;
      timesteps <- noise_timesteps self a device batch_size init_timestep ;;
      noise <- call (Randn (t_shape init_latents) (generator a) device) ;;
      init_latents <- call (AddNoise init_latents noise timesteps) ;;
      Ret (t_to device init_latents, Some init_timestep)
  | None =>
      latents <- call (Randn [batch_size; unet_in_channels self; height a / 8; width a / 8]
                             (generator a) device) ;;
      if scheduler_is_lms self then
        sigmas <- call SchedulerSigmas ;;
        sigma0 <- lift (py_index sigmas 0) ;;
        Ret (t_mul latents sigma0, None)
      else Ret (latents, None)
  end.

(** Lines 212-217. *)
Definition extra_step_kwargs (self : Pipe) (a : Args) : option PyFloat.float :=
  if step_accepts_eta self then Some (eta a) else None.

(** Lines 240-244. *)
Definition perform_guidance (a : Args) (noise_pred : Tensor) : result Tensor :=
  if do_classifier_free_guidance a then
    match t_chunk 2 noise_pred with
    | [noise_pred_uncond; noise_pred_text] =>
        inr (t_add noise_pred_uncond
                   (s_mul (NFloat (guidance_scale a))
                          (t_sub noise_pred_text noise_pred_uncond)))
    | chunks => inl (ValueError (MsgUnpack 2 (Z.of_nat (length chunks))))
    end
  else inr noise_pred.

(** Lines 221-254: one iteration of the loop. *)
Definition denoise_step (self : Pipe) (a : Args) (text_embeddings : Tensor)
           (t : Tensor) (t_index : Z) (latents : Tensor) : Prog Tensor :=
  let latent_model_input :=
    if do_classifier_free_guidance a then t_cat [latents; latents] else latents in
  '(latent_model_input, t) <-
    (if scheduler_is_lms self then
       sigmas <- call SchedulerSigmas ;;
       sigma <- lift (py_index sigmas t_index) ;;
       let scaled :=
         t_div latent_model_input
               (t_pow_s (t_add_s (t_pow_s sigma (NInt 2)) (NInt 1))
                        (NFloat PyFloat.lit_0_5)) in
       Ret (t_to_dtype (unet_dtype self) scaled, t_to_dtype (unet_dtype self) t)
     else Ret (latent_model_input, t)) ;;
  noise_pred <- call (Unet latent_model_input t text_embeddings) ;;
  noise_pred <- lift (perform_guidance a noise_pred) ;;
  if scheduler_is_lms self then
    call (SchedulerStep noise_pred (inr t_index) latents (extra_step_kwargs self a))
  else
    call (SchedulerStep noise_pred (inl t) latents (extra_step_kwargs self a)).

(** Lines 220-254: [for i, t in enumerate(timesteps)], with
    [t_index = t_start + i]. *)
Fixpoint denoise_loop (self : Pipe) (a : Args) (text_embeddings : Tensor)
         (timesteps : list Tensor) (t_index : Z) (latents : Tensor) : Prog Tensor :=
  match timesteps with
  | [] => Ret latents
  | t :: rest =>
      latents <- denoise_step self a text_embeddings t t_index latents ;;
      denoise_loop self a text_embeddings rest (t_index + 1) latents
  end.

(** Line 219: reading the local [init_timestep]; it is bound only when the
    seed-image branch ran. *)
Definition read_init_timestep (init_timestep : option Z) : result Z :=
  match init_timestep with
  | Some k => inr k
  | None => inl (UnboundLocalError "init_timestep")
  end.

(** Lines 219-254. *)
Definition sample_latents (self : Pipe) (a : Args) (text_embeddings latents : Tensor)
           (init_timestep : option Z) (offset : Z) : Prog Tensor :=
  init_timestep <- lift (read_init_timestep init_timestep) ;;
  let t_start := Z.max (num_inference_steps a - init_timestep + offset) 0 in
  schedule <- call SchedulerTimesteps ;;
  denoise_loop self a text_embeddings (py_slice_from schedule t_start) t_start latents.

(** Lines 256-274. *)
Definition decode_and_check (a : Args) (device : Device) (latents : Tensor) : Prog Output :=
  let latents :=
    s_mul (NFloat (PyFloat.div PyFloat.one PyFloat.lit_0_18215)) latents in
  image <- call (VaeDecode latents) ;;
  let image := t_clamp (NInt 0) (NInt 1)
                       (t_add_s (t_div_s image (NInt 2)) (NFloat PyFloat.lit_0_5)) in
  let image := to_numpy_nhwc image in
  pixel_values <- call (FeatureExtractor (numpy_to_pil image)) ;;
  '(image, has_nsfw_concept) <- call (SafetyChecker image (t_to device pixel_values)) ;;
  Ret {| sample := if String.eqb (output_type a) "pil"
                   then inl (numpy_to_pil image) else inr image;
         nsfw_content_detected := has_nsfw_concept |}.

(** [StableDiffusionPipelineCustom.__call__], lines 73-274. *)
Definition pipeline (self : Pipe) (a : Args) : Prog Output :=
  device <- legacy_device self a ;;
  batch_size <- lift (batch_size_of (prompt a)) ;;
  _ <- lift (check_size a) ;;
  _ <- lift (check_strength a) ;;
  text_embeddings <- encode_prompt self a device batch_size ;;
  offset <- set_timesteps self a ;;
  '(latents, init_timestep) <- prepare_latents self a device batch_size offset ;;
  latents <- sample_latents self a text_embeddings latents init_timestep offset ;;
  decode_and_check a device latents.

(** The three input checks of lines 97-115 in their order: the batch
    size, or the first error. *)
Definition validate (a : Args) : result Z :=
  (batch_size <-? batch_size_of (prompt a) ;;
   _ <-? check_size a ;;
   _ <-? check_strength a ;;
   inr batch_size)%result.

(** The specification's wording of an acceptable prompt: a string or a
    list of strings. *)
Definition spec_prompt_ok (prompt : PyVal) : bool :=
  match prompt with
  | PStr _ => true
  | PList l => forallb (fun x => match x with PStr _ => true | _ => false end) l
  | _ => false
  end.

End Pipeline.

Arguments Ret {torch A} a.
Arguments Raise {torch A} e.
Arguments Do {torch A} c k.

(** ** Executions *)

Section Semantics.
Context {torch : Torch} {pil : PIL}.

(** A call with its outcome: the answer, or the exception the
    collaborator raised. *)
Inductive Event : Type :=
| Ev (c : Call) (r : result (Resp c)).

Definition Trace : Type := list Event.

(** [paths p tr o]: [p] can make the calls [tr], with these answers, and
    end with [o].  A collaborator that raises ends the computation with
    its exception. *)
Fixpoint paths {A : Type} (p : Prog A) (tr : Trace) (o : result A) : Prop :=
  match p with
  | Ret a => tr = [] /\ o = inr a
  | Raise e => tr = [] /\ o = inl e
  | Do c k =>
      (exists e, tr = [Ev c (inl e)] /\ o = inl e)
      \/ (exists r tr', tr = Ev c (inr r) :: tr' /\ paths (k r) tr' o)
  end.

(** Collaborators as a deterministic function of the call and the state
    of the world (generator state, scheduler state, device placement). *)
Definition Handler (W : Type) : Type := forall c : Call, W -> result (Resp c) * W.

Fixpoint run {A W : Type} (h : Handler W) (p : Prog A) (w : W) : Trace * result A * W :=
  match p with
  | Ret a => ([], inr a, w)
  | Raise e => ([], inl e, w)
  | Do c k =>
      match h c w with
      | (inl e, w') => ([Ev c (inl e)], inl e, w')
      | (inr r, w') =>
          let '(tr, o, w'') := run h (k r) w' in (Ev c (inr r) :: tr, o, w'')
      end
  end.

Definition ev_call (ev : Event) : Call :=
  match ev with Ev c _ => c end.

(** The call was answered: the collaborator did not raise. *)
Definition answered (ev : Event) : Prop :=
  match ev with Ev _ (inr _) => True | Ev _ (inl _) => False end.

(** The kinds of call a property talks about. *)
Definition step_call (c : Call) : Prop :=
  match c with SchedulerStep _ _ _ _ => True | _ => False end.

Definition unet_call (c : Call) : Prop :=
  match c with Unet _ _ _ => True | _ => False end.

Definition tokenizer_call (c : Call) : Prop :=
  match c with Tokenizer _ _ _ => True | _ => False end.

Definition text_encoder_call (c : Call) : Prop :=
  match c with TextEncoder _ => True | _ => False end.

(** The legacy [torch_device] keyword warns and binds the device; every
    other call invokes a collaborator. *)
Definition device_binding_call (c : Call) : Prop :=
  match c with
  | Warn _ | CudaIsAvailable | PipeTo _ => True
  | _ => False
  end.

(** The calls outside the text encoding and the sampling loop. *)
Definition auxiliary_call (c : Call) : Prop :=
  ~ tokenizer_call c /\ ~ text_encoder_call c /\ ~ unet_call c /\ ~ step_call c.

Definition is_step (ev : Event) : Prop := step_call (ev_call ev).
Definition is_unet (ev : Event) : Prop := unet_call (ev_call ev).
Definition is_tokenizer (ev : Event) : Prop := tokenizer_call (ev_call ev).
Definition is_text_encoder (ev : Event) : Prop := text_encoder_call (ev_call ev).
Definition is_device_binding (ev : Event) : Prop := device_binding_call (ev_call ev).

(** [satisfies C Q E p]: on every execution of [p], each call made
    satisfies [C], a returned value satisfies [Q], and an exception that
    [p] raises itself satisfies [E]. *)
Fixpoint satisfies {A : Type} (C : Call -> Prop) (Q : A -> Prop) (E : Exn -> Prop)
         (p : Prog A) : Prop :=
  match p with
  | Ret a => Q a
  | Raise e => E e
  | Do c k => C c /\ forall r, satisfies C Q E (k r)
  end.

(** The latents after the last scheduler step of an execution. *)
Fixpoint final_latents_from (acc : option Tensor) (tr : Trace) : option Tensor :=
  match tr with
  | [] => acc
  | Ev c r :: tr' =>
      final_latents_from
        (match c as c0 return result (Resp c0) -> option Tensor with
         | SchedulerStep _ _ _ _ =>
             fun r => match r with inr latents => Some latents | inl _ => acc end
         | _ => fun _ => acc
         end r) tr'
  end.

Definition final_latents (tr : Trace) : option Tensor := final_latents_from None tr.

(** [invariant I hist p]: whenever [p], started after the calls [hist],
    makes a call [c], [I] holds of the calls made so far and [c]. *)
Fixpoint invariant {A : Type} (I : Trace -> Call -> Prop) (hist : Trace) (p : Prog A)
  : Prop :=
  match p with
  | Ret _ | Raise _ => True
  | Do c k => I hist c /\ forall r, invariant I (hist ++ [Ev c (inr r)]) (k r)
  end.

(** [cond] is the text encoder's answer on the tokenized prompt. *)
Definition conditional_embedding (self : Pipe) (a : Args) (hist : Trace) (cond : Tensor)
  : Prop :=
  exists device input_ids,
    In (Ev (Tokenizer (prompt a) (tokenizer_model_max_length self) true) (inr input_ids)) hist
    /\ In (Ev (TextEncoder (t_to device input_ids)) (inr cond)) hist.

(** [uncond] is the text encoder's answer on a tokenized list of empty
    strings. *)
Definition unconditional_embedding (hist : Trace) (uncond : Tensor) : Prop :=
  exists device batch_size max_length input_ids,
    In (Ev (Tokenizer (PList (py_repeat (PStr EmptyString) batch_size)) max_length false)
           (inr input_ids)) hist
    /\ In (Ev (TextEncoder (t_to device input_ids)) (inr uncond)) hist.

(** Where the embeddings handed to the UNet come from. *)
Definition embeddings_from (self : Pipe) (a : Args) (hist : Trace) (emb : Tensor) : Prop :=
  if do_classifier_free_guidance a then
    exists uncond cond,
      emb = t_cat [uncond; cond]
      /\ unconditional_embedding hist uncond
      /\ conditional_embedding self a hist cond
  else conditional_embedding self a hist emb.

(** What holds at each call of [__call__]: a scheduler step directly
    follows the UNet call whose answer it consumes; the UNet gets the
    embeddings of [embeddings_from]; without guidance the tokenizer and
    the text encoder are called at most once, on the prompt. *)
Definition guidance_invariant (self : Pipe) (a : Args) (hist : Trace) (c : Call) : Prop :=
  match c with
  | SchedulerStep noise_pred _ _ _ =>
      exists hist' x t emb out,
        hist = hist' ++ [Ev (Unet x t emb) (inr out)]
        /\ perform_guidance a out = inr noise_pred
  | Unet _ _ emb => embeddings_from self a hist emb
  | Tokenizer text _ truncation =>
      do_classifier_free_guidance a = false ->
      text = prompt a /\ truncation = true /\ Forall (fun ev => ~ is_tokenizer ev) hist
  | TextEncoder _ =>
      do_classifier_free_guidance a = false ->
      Forall (fun ev => ~ is_text_encoder ev) hist
  | _ => True
  end.

End Semantics.

(** ** Observations on executions *)

Section Observations.
Context {torch : Torch} {pil : PIL}.

Definition unet_callb (c : Call) : bool :=
  match c with Unet _ _ _ => true | _ => false end.

Definition step_callb (c : Call) : bool :=
  match c with SchedulerStep _ _ _ _ => true | _ => false end.

Definition randn_callb (c : Call) : bool :=
  match c with Randn _ _ _ => true | _ => false end.

Definition set_timesteps_callb (c : Call) : bool :=
  match c with SetTimesteps _ _ => true | _ => false end.

Definition timesteps_callb (c : Call) : bool :=
  match c with SchedulerTimesteps => true | _ => false end.

Definition safety_checker_callb (c : Call) : bool :=
  match c with SafetyChecker _ _ => true | _ => false end.

(** How many calls of a kind an execution made. *)
Definition count_calls (f : Call -> bool) (tr : Trace) : nat :=
  length (filter (fun ev => f (ev_call ev)) tr).

(** The calls that read or advance the scheduler's state. *)
Definition scheduler_use (c : Call) : Prop :=
  match c with
  | SchedulerTimesteps | SchedulerSigmas | AddNoise _ _ _ | SchedulerStep _ _ _ _ => True
  | _ => False
  end.

(** The calls made before the sampling loop: everything but the UNet, the
    scheduler step and the three calls of the decoding stage. *)
Definition prelude_call (c : Call) : Prop :=
  match c with
  | Unet _ _ _ | SchedulerStep _ _ _ _ | VaeDecode _ | FeatureExtractor _
  | SafetyChecker _ _ => False
  | _ => True
  end.

(** Lines 154-157: [offset]. *)
Definition scheduler_offset (self : Pipe) : Z :=
  if set_timesteps_accepts_offset self then 1 else 0.

(** Line 219: [t_start]. *)
Definition t_start_of (n init_timestep offset : Z) : Z :=
  Z.max (n - init_timestep + offset) 0.

(** Lines 175-185 in a call that completes them: the calls [t] made and
    the timesteps [ts] handed to [add_noise], for the starting timestep
    [init_timestep]. *)
Definition noising_timesteps (self : Pipe) (a : Args) (device : Device)
           (batch_size init_timestep : Z) (t : Trace) (ts : Tensor) : Prop :=
  if scheduler_is_lms self then
    t = []
    /\ ts = long_tensor (py_repeat (num_inference_steps a - init_timestep) batch_size) device
  else
    exists schedule t0,
      t = [Ev SchedulerTimesteps (inr schedule)]
      /\ py_index schedule (- init_timestep) = inr t0
      /\ ts = long_tensor_of (py_repeat t0 batch_size) device.

(** The answer of the last [scheduler.timesteps] read of an execution. *)
Fixpoint last_schedule_from (acc : option (list Tensor)) (tr : Trace)
  : option (list Tensor) :=
  match tr with
  | [] => acc
  | Ev c r :: tr' =>
      last_schedule_from
        (match c as c0 return result (Resp c0) -> option (list Tensor) with
         | SchedulerTimesteps =>
             fun r => match r with inr schedule => Some schedule | inl _ => acc end
         | _ => fun _ => acc
         end r) tr'
  end.

Definition last_schedule (tr : Trace) : option (list Tensor) := last_schedule_from None tr.

(** The latents the loop holds after the calls [tr], having started from
    [init]: the answer of the last scheduler step, if there was one. *)
Definition latents_after (init : Tensor) (tr : Trace) : Tensor :=
  match final_latents tr with
  | Some latents => latents
  | None => init
  end.

(** Lines 223-231: the sample handed to the UNet for the latents
    [latents]; [sigma] is [self.scheduler.sigmas[t_index]]. *)
Definition model_input (self : Pipe) (a : Args) (latents : Tensor) (sigma : option Tensor)
  : Tensor :=
  let latent_model_input :=
    if do_classifier_free_guidance a then t_cat [latents; latents] else latents in
  match sigma with
  | Some sigma =>
      t_to_dtype (unet_dtype self)
        (t_div latent_model_input
               (t_pow_s (t_add_s (t_pow_s sigma (NInt 2)) (NInt 1))
                        (NFloat PyFloat.lit_0_5)))
  | None => latent_model_input
  end.

(** [ts] is the entry of the schedule that the iteration after the calls
    [hist] handles: entry [t_start + i] of the last [scheduler.timesteps]
    read, where [i] counts the scheduler steps made so far. *)
Definition iteration_timestep (t_start : Z) (hist : Trace) (ts : Tensor) : Prop :=
  exists schedule,
    last_schedule hist = Some schedule
    /\ nth_error schedule (Z.to_nat t_start + count_calls step_callb hist) = Some ts.

(** What holds at each call of the sampling loop and at the decoding
    after it, for a loop that starts from the latents [init] at entry
    [t_start] of the schedule. *)
Definition sampling_invariant (self : Pipe) (a : Args) (init : Tensor) (t_start : Z)
           (hist : Trace) (c : Call) : Prop :=
  match c with
  | Unet x t _ =>
      exists sigma ts,
        x = model_input self a (latents_after init hist) sigma
        /\ iteration_timestep t_start hist ts
        /\ t = (if scheduler_is_lms self then t_to_dtype (unet_dtype self) ts else ts)
        /\ (if scheduler_is_lms self
            then exists hist' sigmas s,
                hist = hist' ++ [Ev SchedulerSigmas (inr sigmas)]
                /\ py_index sigmas (t_start + Z.of_nat (count_calls step_callb hist)) = inr s
                /\ sigma = Some s
            else sigma = None)
  | SchedulerStep _ t latents eta_kw =>
      latents = latents_after init hist
      /\ eta_kw = extra_step_kwargs self a
      /\ exists ts,
          iteration_timestep t_start hist ts
          /\ t = (if scheduler_is_lms self
                  then inr (t_start + Z.of_nat (count_calls step_callb hist))
                  else inl ts)
  | VaeDecode z =>
      z = s_mul (NFloat (PyFloat.div PyFloat.one PyFloat.lit_0_18215))
                (latents_after init hist)
  | _ => True
  end.

(** The device the tensors of a call are placed on (lines 88-95), given
    the answer of [torch.cuda.is_available()] where it is asked. *)
Definition selected_device (self : Pipe) (a : Args) (cuda_available : bool) : Device :=
  match torch_device a with
  | None => self_device self
  | Some (Some d) => d
  | Some None => if cuda_available then Cuda else Cpu
  end.

(** [ts] are the timesteps of lines 175-185 for the starting timestep
    [init_timestep]: [num_inference_steps - init_timestep] for the LMS
    scheduler, else entry [-init_timestep] of a schedule read among the
    calls [hist]; either repeated over the batch. *)
Definition noised_at (self : Pipe) (a : Args) (init_timestep : Z) (hist : Trace)
           (ts : Tensor) : Prop :=
  exists batch_size cuda_available,
    validate a = inr batch_size
    /\ if scheduler_is_lms self then
         ts = long_tensor (py_repeat (num_inference_steps a - init_timestep) batch_size)
                          (selected_device self a cuda_available)
       else
         exists schedule t0,
           In (Ev SchedulerTimesteps (inr schedule)) hist
           /\ py_index schedule (- init_timestep) = inr t0
           /\ ts = long_tensor_of (py_repeat t0 batch_size)
                                  (selected_device self a cuda_available).

(** The same call with other values for [height] and [width]. *)
Definition with_size (a : Args) (h w : Z) : Args := {|
  prompt := prompt a;
  height := h;
  width := w;
  init_image := init_image a;
  init_max_pixels := init_max_pixels a;
  init_strength := init_strength a;
  num_inference_steps := num_inference_steps a;
  guidance_scale := guidance_scale a;
  eta := eta a;
  generator := generator a;
  output_type := output_type a;
  torch_device := torch_device a
|}.

(** The same call with another value for [init_max_pixels]. *)
Definition with_init_max_pixels (a : Args) (max_pixels : Z) : Args := {|
  prompt := prompt a;
  height := height a;
  width := width a;
  init_image := init_image a;
  init_max_pixels := max_pixels;
  init_strength := init_strength a;
  num_inference_steps := num_inference_steps a;
  guidance_scale := guidance_scale a;
  eta := eta a;
  generator := generator a;
  output_type := output_type a;
  torch_device := torch_device a
|}.

End Observations.

(** ** A symbolic instance

    Tensors as the terms the pipeline builds, and collaborators that answer
    each call with a term naming it: an execution shows which expression
    reaches which call. *)

Module Symbolic.

Inductive Sym : Type :=
| SVar (name : string) (index : Z)
| SApp (op : string) (scalars : list PyNum) (args : list Sym)
| SLong (values : list Z)
| SData (x : FloatTensor).

#[export] Instance torch : Torch := {|
  Tensor := Sym;
  NdImages := Sym;
  NsfwFlags := list bool;
  Generator := Z;
  DType := unit;
  t_to := fun _ x => x;
  t_to_dtype := fun _ x => x;
  t_cat := fun xs => SApp "cat" [] xs;
  t_chunk := fun n x => map (fun i => SApp "chunk" [NInt n; NInt i] [x]) (zrange n);
  t_shape := fun _ => [1; 77];
  t_add := fun x y => SApp "add" [] [x; y];
  t_sub := fun x y => SApp "sub" [] [x; y];
  t_mul := fun x y => SApp "mul" [] [x; y];
  t_div := fun x y => SApp "div" [] [x; y];
  s_mul := fun c x => SApp "smul" [c] [x];
  t_add_s := fun x c => SApp "add" [c] [x];
  t_div_s := fun x c => SApp "div" [c] [x];
  t_pow_s := fun x c => SApp "pow" [c] [x];
  t_clamp := fun lo hi x => SApp "clamp" [lo; hi] [x];
  long_tensor := fun l _ => SLong l;
  long_tensor_of := fun l _ => SApp "tensor" [] l;
  of_float_tensor := SData;
  to_numpy_nhwc := fun x => SApp "numpy" [] [x];
  numpy_to_pil := fun _ => []
|}.

(** A Pillow stand-in: [resize] rejects an empty size, as Pillow does,
    and otherwise returns mid-grey of the requested size. *)
Definition blank (m : Mode) (size : Z * Z) : Image :=
  {| im_mode := m; im_size := size;
     im_data := repeat "128"%byte (Z.to_nat (fst size * snd size * band_count m)) |}.

#[export] Instance pil : PIL := {|
  convert := fun m image => blank m (im_size image);
  resize := fun image size =>
    if (fst size <? 1) || (snd size <? 1)
    then inl (ValueError (MsgLibrary "height and width must be > 0"))
    else inr (blank (im_mode image) size)
|}.

(** The world: how many random tensors were drawn from the generator, the
    step count the scheduler was set up with, and a clock that no answer
    depends on. *)
Record World : Type := { drawn : Z; steps : Z; clock : Z }.

Definition tick (w : World) : World :=
  {| drawn := drawn w; steps := steps w; clock := clock w + 1 |}.

Definition handler : Handler World :=
  fun c =>
    match c return World -> result (Resp c) * World with
    | Warn _ => fun w => (inr tt, tick w)
    | CudaIsAvailable => fun w => (inr false, tick w)
    | PipeTo _ => fun w => (inr tt, tick w)
    | Tokenizer text _ truncation =>
        fun w => (inr (SVar (if truncation then "input_ids" else "uncond_input_ids")
                            (match text with PList l => Z.of_nat (length l) | _ => 1 end)),
                  tick w)
    | TextEncoder ids => fun w => (inr (SApp "text_encoder" [] [ids]), tick w)
    | SetTimesteps n _ =>
        fun w => (inr tt, {| drawn := drawn w; steps := n; clock := clock w + 1 |})
    | SchedulerTimesteps => fun w => (inr (map (SVar "t") (zrange (steps w))), tick w)
    | SchedulerSigmas => fun w => (inr (map (SVar "sigma") (zrange (steps w))), tick w)
    | VaeEncodeSample x => fun w => (inr (SApp "vae_encode" [] [x]), tick w)
    | Randn _ _ _ =>
        fun w => (inr (SVar "randn" (drawn w)),
                  {| drawn := drawn w + 1; steps := steps w; clock := clock w + 1 |})
    | AddNoise x noise ts => fun w => (inr (SApp "add_noise" [] [x; noise; ts]), tick w)
    | Unet x t emb => fun w => (inr (SApp "unet" [] [x; t; emb]), tick w)
    | SchedulerStep np _ latents _ => fun w => (inr (SApp "step" [] [np; latents]), tick w)
    | VaeDecode z => fun w => (inr (SApp "vae_decode" [] [z]), tick w)
    | FeatureExtractor _ => fun w => (inr (SVar "pixel_values" 0), tick w)
    | SafetyChecker images _ => fun w => (inr (images, [false]), tick w)
    end.

Definition self : Pipe := {|
  self_device := Cpu;
  tokenizer_model_max_length := 77;
  unet_in_channels := 4;
  unet_dtype := tt;
  scheduler_is_lms := false;
  set_timesteps_accepts_offset := true;
  step_accepts_eta := false
|}.

(** A call with the arguments given and the keyword defaults for the
    others. *)
Definition args (prompt : PyVal) (height width : Z) (init_image : option (Tensor + Image))
           (init_strength : PyFloat.float) (num_inference_steps : Z)
           (guidance_scale : PyFloat.float) : Args := {|
  prompt := prompt;
  height := height;
  width := width;
  init_image := init_image;
  init_max_pixels := 262144;
  init_strength := init_strength;
  num_inference_steps := num_inference_steps;
  guidance_scale := guidance_scale;
  eta := PyFloat.zero;
  generator := None;
  output_type := "pil";
  torch_device := None
|}.

(** The keyword defaults of [__call__]: 512 x 512, no seed image,
    strength 0.8, 50 steps, guidance scale 7.5. *)
Definition default_args (prompt : PyVal) : Args :=
  args prompt 512 512 None (PyFloat.literal 8 10) 50 (PyFloat.literal 75 10).

Definition initial_world : World := {| drawn := 0; steps := 0; clock := 0 |}.

(** A seed image that is already a tensor. *)
Definition seed_tensor : option (Tensor + Image) := Some (inl (SVar "init_image" 0)).

(** The random number generators of a run: the state of the generator
    the caller passes, the state of torch's global generator, and the
    step count the scheduler was set up with. *)
Record RngWorld : Type := { generator_state : Z; global_state : Z; scheduled : Z }.

Definition draw_from_generator (w : RngWorld) : RngWorld :=
  {| generator_state := generator_state w + 1;
     global_state := global_state w;
     scheduled := scheduled w |}.

Definition draw_from_global (w : RngWorld) : RngWorld :=
  {| generator_state := generator_state w;
     global_state := global_state w + 1;
     scheduled := scheduled w |}.

(** Collaborators that draw random numbers as torch does: from the
    generator a call passes, and from the global generator when it passes
    none.  [torch.randn] is given [generator]; [vae.encode(x).sample()]
    (line 166) is given none.  Every other answer is a function of the
    call alone, or of the step count for the schedule. *)
Definition rng_handler : Handler RngWorld :=
  fun c =>
    match c return RngWorld -> result (Resp c) * RngWorld with
    | Warn _ => fun w => (inr tt, w)
    | CudaIsAvailable => fun w => (inr false, w)
    | PipeTo _ => fun w => (inr tt, w)
    | Tokenizer text _ truncation =>
        fun w => (inr (SVar (if truncation then "input_ids" else "uncond_input_ids")
                            (match text with PList l => Z.of_nat (length l) | _ => 1 end)),
                  w)
    | TextEncoder ids => fun w => (inr (SApp "text_encoder" [] [ids]), w)
    | SetTimesteps n _ =>
        fun w => (inr tt, {| generator_state := generator_state w;
                             global_state := global_state w;
                             scheduled := n |})
    | SchedulerTimesteps => fun w => (inr (map (SVar "t") (zrange (scheduled w))), w)
    | SchedulerSigmas => fun w => (inr (map (SVar "sigma") (zrange (scheduled w))), w)
    | VaeEncodeSample x =>
        fun w => (inr (SApp "vae_sample" [NInt (global_state w)] [x]), draw_from_global w)
    | Randn _ (Some _) _ =>
        fun w => (inr (SVar "randn" (generator_state w)), draw_from_generator w)
    | Randn _ None _ =>
        fun w => (inr (SVar "global_randn" (global_state w)), draw_from_global w)
    | AddNoise x noise ts => fun w => (inr (SApp "add_noise" [] [x; noise; ts]), w)
    | Unet x t emb => fun w => (inr (SApp "unet" [] [x; t; emb]), w)
    | SchedulerStep np _ latents _ => fun w => (inr (SApp "step" [] [np; latents]), w)
    | VaeDecode z => fun w => (inr (SApp "vae_decode" [] [z]), w)
    | FeatureExtractor _ => fun w => (inr (SVar "pixel_values" 0), w)
    | SafetyChecker images _ => fun w => (inr (images, [false]), w)
    end.

(** [pipe("a red ball", init_image=tensor, num_inference_steps=3,
    generator=g, output_type="numpy")] for a generator [g]. *)
Definition seeded_call : Args := {|
  prompt := PStr "a red ball";
  height := 512;
  width := 512;
  init_image := seed_tensor;
  init_max_pixels := 262144;
  init_strength := PyFloat.literal 8 10;
  num_inference_steps := 3;
  guidance_scale := PyFloat.literal 75 10;
  eta := PyFloat.zero;
  generator := Some 0;
  output_type := "numpy";
  torch_device := None
|}.

(** A run that starts with the caller's generator in state [seed] and the
    global generator in state [global]. *)
Definition seeded_world (seed global : Z) : RngWorld :=
  {| generator_state := seed; global_state := global; scheduled := 0 |}.

End Symbolic.

(** * Properties *)

(** ** Executions of a computation *)

Section PathFacts.
Context {torch : Torch} {pil : PIL}.

Lemma paths_bind {A B : Type} (p : Prog A) (f : A -> Prog B) tr o :
  paths (bind p f) tr o <->
  (exists e, paths p tr (inl e) /\ o = inl e)
  \/ (exists a t1 t2, paths p t1 (inr a) /\ paths (f a) t2 o /\ tr = t1 ++ t2).
Proof.
  revert tr o. induction p as [a | e | c k IH]; intros tr o; simpl.
  - split.
    + intros Hf. right. exists a, [], tr. auto.
    + intros [(e & (_ & He) & _) | (a' & t1 & t2 & (-> & Ha) & Hf & ->)].
      * discriminate.
      * injection Ha as <-. exact Hf.
  - split.
    + intros (-> & ->). left. exists e. auto.
    + intros [(e' & (-> & He) & ->) | (a' & t1 & t2 & (_ & Ha) & _)].
      * injection He as <-. auto.
      * discriminate.
  - split.
    + intros [(e & -> & ->) | (r & tr' & -> & Hk)].
      * left. exists e. split; [left; exists e; auto | reflexivity].
      * apply IH in Hk. destruct Hk as [(e & Hk & ->) | (a & t1 & t2 & H1 & H2 & ->)].
        -- left. exists e. split; [right; exists r, tr'; auto | reflexivity].
        -- right. exists a, (Ev c (inr r) :: t1), t2.
           split; [right; exists r, t1; auto | auto].
    + intros [(e & [(e' & -> & He) | (r & tr' & -> & Hk)] & ->)
             | (a & t1 & t2 & [(e' & _ & He) | (r & tr' & -> & Hk)] & Hf & ->)].
      * left. exists e'. split; congruence.
      * right. exists r, tr'. split; [reflexivity |].
        apply IH. left. exists e. auto.
      * discriminate.
      * right. exists r, (tr' ++ t2). split; [reflexivity |].
        apply IH. right. exists a, tr', t2. auto.
Qed.

Lemma paths_lift {A : Type} (r : result A) tr o :
  paths (lift r) tr o <-> tr = [] /\ o = r.
Proof. destruct r; simpl; tauto. Qed.

Lemma paths_call (c : Call) tr o :
  paths (call c) tr o <-> tr = [Ev c o].
Proof.
  unfold call; simpl. split.
  - intros [(e & -> & ->) | (r & tr' & -> & -> & ->)]; reflexivity.
  - intros ->. destruct o as [e | r].
    + left. exists e. auto.
    + right. exists r, []. auto.
Qed.

(** An execution against a handler is one of the computation's paths. *)
Lemma run_paths {A W : Type} (h : Handler W) (p : Prog A) :
  forall w, paths p (fst (fst (run h p w))) (snd (fst (run h p w))).
Proof.
  induction p as [a | e | c k IH]; intros w; simpl; auto.
  destruct (h c w) as [[e | r] w']; simpl.
  - left. exists e. auto.
  - right. specialize (IH r w').
    destruct (run h (k r) w') as [[tr o] w'']; simpl in *.
    exists r, tr. auto.
Qed.

Lemma satisfies_bind {A B : Type} C (Q : B -> Prop) E (p : Prog A) (f : A -> Prog B) :
  satisfies C (fun a => satisfies C Q E (f a)) E p -> satisfies C Q E (bind p f).
Proof.
  induction p as [a | e | c k IH]; simpl; auto.
  intros [Hc Hk]. split; auto.
Qed.

Lemma satisfies_weaken {A : Type} (C C' : Call -> Prop) (Q Q' : A -> Prop)
      (E E' : Exn -> Prop) (p : Prog A) :
  (forall c, C c -> C' c) -> (forall a, Q a -> Q' a) -> (forall e, E e -> E' e) ->
  satisfies C Q E p -> satisfies C' Q' E' p.
Proof.
  intros HC HQ HE. induction p as [a | e | c k IH]; simpl; auto.
  intros [Hc Hk]. split; auto.
Qed.

Lemma satisfies_lift {A : Type} C (Q : A -> Prop) (E : Exn -> Prop) (r : result A) :
  (forall a, r = inr a -> Q a) -> (forall e, r = inl e -> E e) ->
  satisfies C Q E (lift r).
Proof. destruct r; simpl; auto. Qed.

Lemma satisfies_call C (E : Exn -> Prop) (c : Call) (Q : Resp c -> Prop) :
  C c -> (forall r, Q r) -> satisfies C Q E (call c).
Proof. simpl; auto. Qed.

Lemma satisfies_paths {A : Type} C (Q : A -> Prop) E (p : Prog A) tr o :
  satisfies C Q E p -> paths p tr o ->
  Forall (fun ev => C (ev_call ev)) tr
  /\ match o with
     | inr a => Q a
     | inl e => Forall answered tr -> E e
     end.
Proof.
  revert tr. induction p as [a | e | c k IH]; simpl; intros tr Hs Hp.
  - destruct Hp as [-> ->]. split; [constructor | exact Hs].
  - destruct Hp as [-> ->]. split; [constructor | auto].
  - destruct Hs as [Hc Hk].
    destruct Hp as [(e & -> & ->) | (r & tr' & -> & Hp)].
    + split; [constructor; [exact Hc | constructor] |].
      intros Ha. inversion Ha; subst. contradiction.
    + destruct (IH r tr' (Hk r) Hp) as [Hcalls Ho].
      split; [constructor; assumption |].
      destruct o; [| exact Ho].
      intros Ha. apply Ho. inversion Ha; assumption.
Qed.

(** The calls of the legacy device keyword. *)
Lemma legacy_device_paths self a tr o :
  paths (legacy_device self a) tr o ->
  Forall is_device_binding tr
  /\ (Forall answered tr -> exists d, o = inr d)
  /\ (torch_device a = None -> tr = [] /\ o = inr (self_device self)).
Proof.
  unfold legacy_device. destruct (torch_device a) as [[d | ] | ]; simpl.
  - intros [(e & -> & ->) | (r & tr' & -> & [(e & -> & ->) | (r' & tr'' & -> & -> & ->)])].
    + split; [repeat constructor |]. split; [| discriminate].
      intros H; inversion H; subst; contradiction.
    + split; [repeat constructor |]. split; [| discriminate].
      intros H; inversion H as [| ? ? _ H']; subst. inversion H'; subst; contradiction.
    + split; [repeat constructor |]. split; [| discriminate]. eauto.
  - intros [(e & -> & ->) | (r & tr' & -> & [(e & -> & ->) | (r' & tr'' & -> & H)])].
    + split; [repeat constructor |]. split; [| discriminate].
      intros H; inversion H; subst; contradiction.
    + split; [repeat constructor |]. split; [| discriminate].
      intros H; inversion H as [| ? ? _ H']; subst. inversion H'; subst; contradiction.
    + destruct H as [(e & -> & ->) | (r'' & tr3 & -> & -> & ->)].
      * split; [repeat constructor |]. split; [| discriminate].
        intros H; inversion H as [| ? ? _ H']; subst.
        inversion H' as [| ? ? _ H'']; subst. inversion H''; subst; contradiction.
      * split; [repeat constructor |]. split; [| discriminate]. eauto.
  - intros (-> & ->). split; [constructor |]. split; eauto.
Qed.

End PathFacts.

(** ** Input validation *)

Section Validation.
Context {torch : Torch} {pil : PIL}.

(** When a check of lines 97-115 fails, the call ends with that error, and
    the only calls made before are those of the legacy device keyword. *)
Lemma pipeline_validation_error self a err :
  validate a = inl err ->
  forall tr o, paths (pipeline self a) tr o ->
    Forall is_device_binding tr
    /\ exists e, o = inl e /\ (Forall answered tr -> e = err).
Proof.
  intros Hv tr o Hp. unfold pipeline in Hp.
  apply paths_bind in Hp.
  destruct Hp as [(e & Hp & ->) | (d & t1 & t2 & H1 & H2 & ->)].
  - apply legacy_device_paths in Hp. destruct Hp as (Hdev & Hans & _).
    split; [exact Hdev |]. exists e. split; [reflexivity |].
    intros Ha. destruct (Hans Ha) as [d Hd]. discriminate.
  - apply legacy_device_paths in H1. destruct H1 as (Hdev & _ & _).
    assert (Ht2 : t2 = [] /\ o = inl err).
    { unfold validate in Hv.
      destruct (batch_size_of (prompt a)) as [e1 | b]; simpl in Hv, H2.
      - destruct H2 as [-> ->]. split; congruence.
      - destruct (check_size a) as [e2 | []]; simpl in Hv, H2.
        + destruct H2 as [-> ->]. split; congruence.
        + destruct (check_strength a) as [e3 | []]; simpl in Hv, H2.
          * destruct H2 as [-> ->]. split; congruence.
          * discriminate. }
    destruct Ht2 as [-> ->]. rewrite app_nil_r.
    split; [exact Hdev |]. exists err. auto.
Qed.

(** C2 (behaviour of the code). Without a seed image, a [width] that is
    not a multiple of 8 still raises the height/width ValueError: in
    [init_image is not None and height % 8 != 0 or width % 8 != 0] the
    test of [width] is outside the [and]. *)
Theorem C2_width_checked_without_seed_image self a b :
  init_image a = None ->
  width a mod 8 <> 0 ->
  batch_size_of (prompt a) = inr b ->
  forall tr o, paths (pipeline self a) tr o ->
    Forall is_device_binding tr
    /\ exists e, o = inl e
       /\ (Forall answered tr -> e = ValueError (MsgNotDivisibleBy8 (height a) (width a))).
Proof.
  intros Hnone Hw Hb. apply pipeline_validation_error.
  unfold validate, check_size. rewrite Hb, Hnone. simpl.
  destruct (width a mod 8 =? 0) eqn:E; [apply Z.eqb_eq in E; contradiction | reflexivity].
Qed.

(** C8 (amended). With a seed image, a prompt that is a string or a list
    and sizes that pass the height/width check, an [init_strength] below 0
    or above 1 ends the call with the ValueError that cites the value,
    before any collaborator is invoked. *)
Theorem C8_strength_validation self a b :
  init_image a <> None ->
  batch_size_of (prompt a) = inr b ->
  check_size a = inr tt ->
  PyFloat.ltb (init_strength a) PyFloat.zero = true
  \/ PyFloat.ltb PyFloat.one (init_strength a) = true ->
  forall tr o, paths (pipeline self a) tr o ->
    Forall is_device_binding tr
    /\ exists e, o = inl e
       /\ (Forall answered tr -> e = ValueError (MsgStrength (init_strength a))).
Proof.
  intros Himg Hb Hs Hrange. apply pipeline_validation_error.
  unfold validate, check_strength. rewrite Hb, Hs. simpl.
  destruct (init_image a); [| contradiction]. simpl.
  destruct Hrange as [-> | ->]; simpl; [reflexivity |].
  rewrite orb_true_r. reflexivity.
Qed.

(** C9 (amended). A prompt that is neither a string nor a list ends the
    call with the ValueError that names its type, before any collaborator
    is invoked; a string gives batch size 1 and a list, whatever its
    elements, gives its length. *)
Theorem C9_prompt_validation self a :
  (is_str_or_list (prompt a) = false ->
   forall tr o, paths (pipeline self a) tr o ->
     Forall is_device_binding tr
     /\ exists e, o = inl e
        /\ (Forall answered tr -> e = ValueError (MsgPromptType (py_type (prompt a)))))
  /\ (forall s, prompt a = PStr s -> batch_size_of (prompt a) = inr 1)
  /\ (forall l, prompt a = PList l ->
      batch_size_of (prompt a) = inr (Z.of_nat (length l))).
Proof.
  split; [| split].
  - intros Hbad. apply pipeline_validation_error.
    unfold validate. destruct (prompt a); simpl in *; try discriminate; reflexivity.
  - intros s ->. reflexivity.
  - intros l ->. reflexivity.
Qed.

End Validation.

(** ** Input validation at concrete calls *)

Section ValidationExamples.
Import Symbolic.

(** C2: [pipe("a red ball", height=512, width=10)], no seed image. *)
Lemma C2_width_checked_witness :
  let a := args (PStr "a red ball") 512 10 None (PyFloat.literal 8 10) 50
                (PyFloat.literal 75 10) in
  let r := run handler (pipeline self a) initial_world in
  (init_image a = None /\ width a mod 8 <> 0 /\ batch_size_of (prompt a) = inr 1)
  /\ Forall is_device_binding (fst (fst r))
  /\ exists e, snd (fst r) = inl e
     /\ (Forall answered (fst (fst r)) -> e = ValueError (MsgNotDivisibleBy8 512 10)).
Proof.
  intros a r.
  assert (Hw : width a mod 8 <> 0) by (vm_compute; discriminate).
  split; [split; [reflexivity | split; [exact Hw | reflexivity]] |].
  exact (C2_width_checked_without_seed_image self a 1 eq_refl Hw eq_refl _ _
           (run_paths handler (pipeline self a) initial_world)).
Defined.

(** C8 as stated fails: [pipe("a", init_strength=1.5)] without a seed
    image raises no ValueError for the strength; it goes on to the
    tokenizer. *)
Lemma C8_counterexample :
  let a := args (PStr "a") 512 512 None (PyFloat.literal 3 2) 50 (PyFloat.literal 75 10) in
  ~ (PyFloat.ltb PyFloat.one (init_strength a) = true ->
     forall tr o, paths (pipeline self a) tr o ->
       Forall is_device_binding tr
       /\ o = inl (ValueError (MsgStrength (init_strength a)))).
Proof.
  intros a H.
  specialize (H eq_refl _ _ (run_paths handler (pipeline self a) initial_world)).
  destruct H as [_ H]. vm_compute in H. discriminate H.
Qed.

(** C8 (amended), at [pipe("a", init_image=tensor, init_strength=1.5)]. *)
Lemma C8_strength_validation_witness :
  let a := args (PStr "a") 512 512 seed_tensor (PyFloat.literal 3 2) 50
                (PyFloat.literal 75 10) in
  let r := run handler (pipeline self a) initial_world in
  (init_image a <> None /\ batch_size_of (prompt a) = inr 1 /\ check_size a = inr tt
   /\ PyFloat.ltb PyFloat.one (init_strength a) = true)
  /\ Forall is_device_binding (fst (fst r))
  /\ exists e, snd (fst r) = inl e
     /\ (Forall answered (fst (fst r)) -> e = ValueError (MsgStrength (init_strength a))).
Proof.
  intros a r.
  assert (Hi : init_image a <> None) by discriminate.
  split; [split; [exact Hi | split; [reflexivity | split; reflexivity]] |].
  exact (C8_strength_validation self a 1 Hi eq_refl eq_refl (or_intror eq_refl) _ _
           (run_paths handler (pipeline self a) initial_world)).
Defined.

(** C9 as stated fails: the list [[1, 2]] is neither a string nor a list
    of strings, and the call raises no ValueError for it: the first thing
    it does is invoke the tokenizer. *)
Lemma C9_counterexample :
  let a := args (PList [PInt 1; PInt 2]) 512 512 seed_tensor (PyFloat.literal 8 10) 50
                (PyFloat.literal 75 10) in
  ~ (spec_prompt_ok (prompt a) = false ->
     forall tr o, paths (pipeline self a) tr o ->
       Forall is_device_binding tr /\ exists m, o = inl (ValueError m)).
Proof.
  intros a H.
  specialize (H eq_refl _ _ (run_paths handler (pipeline self a) initial_world)).
  destruct H as [_ [m H]]. vm_compute in H. discriminate H.
Qed.

(** C9 (amended), at [pipe(7)]. *)
Lemma C9_prompt_validation_witness :
  let a := default_args (PInt 7) in
  let r := run handler (pipeline self a) initial_world in
  is_str_or_list (prompt a) = false
  /\ Forall is_device_binding (fst (fst r))
  /\ exists e, snd (fst r) = inl e
     /\ (Forall answered (fst (fst r)) -> e = ValueError (MsgPromptType TInt)).
Proof.
  intros a r. split; [reflexivity |].
  exact (proj1 (C9_prompt_validation self a) eq_refl _ _
           (run_paths handler (pipeline self a) initial_world)).
Defined.

End ValidationExamples.

(** ** The stages of a call *)

Section Stages.
Context {torch : Torch} {pil : PIL}.

Lemma pipeline_validated self a b :
  validate a = inr b ->
  pipeline self a =
  bind (legacy_device self a) (fun device =>
  bind (encode_prompt self a device b) (fun text_embeddings =>
  bind (set_timesteps self a) (fun offset =>
  bind (prepare_latents self a device b offset) (fun x =>
  match x with
  | (latents, init_timestep) =>
      bind (sample_latents self a text_embeddings latents init_timestep offset)
           (fun latents => decode_and_check a device latents)
  end)))).
Proof.
  unfold validate, pipeline. intros Hv.
  destruct (batch_size_of (prompt a)) as [e1 | b']; simpl in Hv; [discriminate |].
  destruct (check_size a) as [e2 | []]; simpl in Hv; [discriminate |].
  destruct (check_strength a) as [e3 | []]; simpl in Hv; [discriminate |].
  injection Hv as ->. reflexivity.
Qed.

Lemma py_index_error {A : Type} (l : list A) i e :
  py_index l i = inl e -> e = IndexError.
Proof.
  unfold py_index. destruct (_ && _); [destruct (nth_error _ _) |]; congruence.
Qed.

Lemma legacy_device_satisfies self a (C : Call -> Prop) (E : Exn -> Prop) :
  (forall c, device_binding_call c -> C c) ->
  satisfies C (fun _ => True) E (legacy_device self a).
Proof.
  intros HC. unfold legacy_device.
  destruct (torch_device a) as [[d | ] | ]; simpl; repeat split; intros;
    try (apply HC; exact I).
Qed.

Lemma encode_prompt_satisfies self a device b (C : Call -> Prop) :
  (forall c, tokenizer_call c \/ text_encoder_call c -> C c) ->
  satisfies C (fun _ => True) (fun e => e = IndexError) (encode_prompt self a device b).
Proof.
  intros HC. unfold encode_prompt. simpl.
  split; [apply HC; left; exact I |]. intros ids.
  split; [apply HC; right; exact I |]. intros cond.
  destruct (do_classifier_free_guidance a); simpl; [| exact I].
  destruct (py_index (t_shape ids) (-1)) as [e | max_length] eqn:Hi; simpl;
    [exact (py_index_error _ _ _ Hi) |].
  split; [apply HC; left; exact I |]. intros uids.
  split; [apply HC; right; exact I |]. intros uncond. exact I.
Qed.

Lemma set_timesteps_satisfies self a (C : Call -> Prop) (E : Exn -> Prop) :
  (forall n o, C (SetTimesteps n o)) ->
  satisfies C (fun offset => offset = if set_timesteps_accepts_offset self then 1 else 0)
            E (set_timesteps self a).
Proof.
  intros HC. unfold set_timesteps.
  destruct (set_timesteps_accepts_offset self); simpl; auto.
Qed.

(** Without a seed image, [init_timestep] is left unassigned. *)
Lemma prepare_latents_pure_noise self a device b offset (C : Call -> Prop) :
  init_image a = None ->
  (forall s g d, C (Randn s g d)) -> C SchedulerSigmas ->
  satisfies C (fun x => snd x = None) (fun e => e = IndexError)
            (prepare_latents self a device b offset).
Proof.
  intros Hnone HR HS. unfold prepare_latents. rewrite Hnone. simpl.
  split; [apply HR |]. intros latents.
  destruct (scheduler_is_lms self); simpl; [| reflexivity].
  split; [exact HS |]. intros sigmas.
  destruct (py_index sigmas 0) as [e | sigma0] eqn:Hi; simpl;
    [exact (py_index_error _ _ _ Hi) | reflexivity].
Qed.

(** C3 (behaviour of the code). Without a seed image the call never
    reaches the sampling loop and never returns: no UNet or scheduler-step
    call is made, and a call that passes the input checks ends, once its
    collaborators have answered, with the UnboundLocalError of reading
    [init_timestep] at line 219 (or with the IndexError of an empty
    [input_ids.shape] or [sigmas] before that). *)
Theorem C3_pure_noise_never_samples self a :
  init_image a = None ->
  forall tr o, paths (pipeline self a) tr o ->
    (exists e, o = inl e)
    /\ Forall (fun ev => ~ is_unet ev /\ ~ is_step ev) tr
    /\ (forall b, validate a = inr b -> Forall answered tr ->
        o = inl (UnboundLocalError "init_timestep") \/ o = inl IndexError).
Proof.
  intros Hnone tr o Hp.
  destruct (validate a) as [err | b] eqn:Hv.
  - destruct (pipeline_validation_error self a err Hv tr o Hp) as (Hdev & e & -> & _).
    split; [eauto |]. split; [| discriminate].
    eapply Forall_impl; [| exact Hdev].
    intros [c r]; unfold is_device_binding, is_unet, is_step; simpl.
    destruct c; simpl; tauto.
  - set (C := fun c => ~ unet_call c /\ ~ step_call c).
    set (E := fun e => e = UnboundLocalError "init_timestep" \/ e = IndexError).
    assert (Hs : satisfies C (fun _ => False) E (pipeline self a)).
    { rewrite (pipeline_validated self a b Hv).
      apply satisfies_bind.
      eapply satisfies_weaken;
        [ | | | apply (legacy_device_satisfies self a C E) ]; auto.
      2:{ intros c Hc. destruct c; simpl in Hc; try contradiction; split; simpl; tauto. }
      intros device _.
      apply satisfies_bind.
      eapply satisfies_weaken;
        [ | | | apply (encode_prompt_satisfies self a device b C) ]; auto.
      3:{ intros c [Hc | Hc]; destruct c; simpl in Hc; try contradiction;
          split; simpl; tauto. }
      2:{ intros e ->. right. reflexivity. }
      intros text_embeddings _.
      apply satisfies_bind.
      eapply satisfies_weaken;
        [ | | | apply (set_timesteps_satisfies self a C E) ]; auto.
      2:{ intros n o'. split; simpl; tauto. }
      intros offset _.
      apply satisfies_bind.
      eapply satisfies_weaken;
        [ | | | apply (prepare_latents_pure_noise self a device b offset C Hnone) ]; auto.
      - intros [latents init_timestep]; simpl. intros ->. simpl. left. reflexivity.
      - intros e ->. right. reflexivity.
      - intros; split; simpl; tauto.
      - split; simpl; tauto. }
    destruct (satisfies_paths C _ E _ tr o Hs Hp) as [Hcalls Ho].
    split; [| split].
    + destruct o as [e | out]; [eauto | contradiction].
    + exact Hcalls.
    + intros b' _ Ha. destruct o as [e | out]; [| contradiction].
      destruct (Ho Ha) as [-> | ->]; auto.
Qed.

End Stages.

(** ** Classifier-free guidance *)

Section Guidance.
Context {torch : Torch} {pil : PIL}.

Lemma invariant_bind {A B : Type} Inv (p : Prog A) (f : A -> Prog B) :
  forall hist,
    invariant Inv hist p ->
    (forall a t, paths p t (inr a) -> invariant Inv (hist ++ t) (f a)) ->
    invariant Inv hist (bind p f).
Proof.
  induction p as [a | e | c k IH]; simpl; intros hist Hp Hf.
  - specialize (Hf a [] (conj eq_refl eq_refl)). rewrite app_nil_r in Hf. exact Hf.
  - exact I.
  - destruct Hp as [Hc Hk]. split; [exact Hc |]. intros r.
    apply IH; [apply Hk |]. intros a t Ht.
    rewrite <- app_assoc. simpl. apply Hf. right. exists r, t. auto.
Qed.

Lemma invariant_paths {A : Type} Inv (p : Prog A) :
  forall hist tr o,
    invariant Inv hist p -> paths p tr o ->
    forall pre ev post, tr = pre ++ ev :: post -> Inv (hist ++ pre) (ev_call ev).
Proof.
  induction p as [a | e | c k IH]; simpl; intros hist tr o Hi Hp pre ev post Htr.
  - destruct Hp as [-> _]. destruct pre; discriminate.
  - destruct Hp as [-> _]. destruct pre; discriminate.
  - destruct Hi as [Hc Hk].
    destruct Hp as [(e & -> & _) | (r & tr' & -> & Hp)].
    + destruct pre as [| e0 pre].
      * injection Htr as <-. rewrite app_nil_r. exact Hc.
      * injection Htr as _ Htr. destruct pre; discriminate.
    + destruct pre as [| e0 pre].
      * injection Htr as <- _. rewrite app_nil_r. exact Hc.
      * injection Htr as <- Htr.
        specialize (IH r _ _ _ (Hk r) Hp pre ev post Htr).
        rewrite <- app_assoc in IH. exact IH.
Qed.

(** A computation whose calls all satisfy [C] keeps any invariant that
    [C] implies. *)
Lemma invariant_of_satisfies {A : Type} Inv (C : Call -> Prop) (Q : A -> Prop) E
      (p : Prog A) :
  (forall hist c, C c -> Inv hist c) ->
  satisfies C Q E p -> forall hist, invariant Inv hist p.
Proof.
  intros HC. induction p as [a | e | c k IH]; simpl; auto.
  intros [Hc Hk] hist. split; auto.
Qed.

Lemma invariant_lift {A : Type} Inv hist (r : result A) : invariant Inv hist (lift r).
Proof. destruct r; exact I. Qed.

Lemma guidance_invariant_auxiliary self a hist c :
  auxiliary_call c -> guidance_invariant self a hist c.
Proof.
  intros (H1 & H2 & H3 & H4). destruct c; simpl in *; try exact I; tauto.
Qed.

Lemma conditional_embedding_incl self a hist hist' cond :
  incl hist hist' ->
  conditional_embedding self a hist cond -> conditional_embedding self a hist' cond.
Proof. intros Hi (d & ids & H1 & H2). exists d, ids. split; apply Hi; assumption. Qed.

Lemma unconditional_embedding_incl hist hist' uncond :
  incl hist hist' ->
  unconditional_embedding hist uncond -> unconditional_embedding hist' uncond.
Proof.
  intros Hi (d & b & ml & ids & H1 & H2). exists d, b, ml, ids.
  split; apply Hi; assumption.
Qed.

Lemma embeddings_from_incl self a hist hist' emb :
  incl hist hist' ->
  embeddings_from self a hist emb -> embeddings_from self a hist' emb.
Proof.
  intros Hi. unfold embeddings_from. destruct (do_classifier_free_guidance a).
  - intros (u & c & -> & Hu & Hc). exists u, c.
    split; [reflexivity |]. split.
    + eapply unconditional_embedding_incl; eassumption.
    + eapply conditional_embedding_incl; eassumption.
  - apply conditional_embedding_incl; exact Hi.
Qed.

Lemma embeddings_from_mono self a hist t emb :
  embeddings_from self a hist emb -> embeddings_from self a (hist ++ t) emb.
Proof. apply embeddings_from_incl. apply incl_appl, incl_refl. Qed.

(** One iteration of the loop. *)
Lemma denoise_step_invariant self a emb t t_index latents hist :
  embeddings_from self a hist emb ->
  invariant (guidance_invariant self a) hist (denoise_step self a emb t t_index latents).
Proof.
  intros Hemb. unfold denoise_step.
  destruct (scheduler_is_lms self); simpl.
  - split; [exact I |]. intros sigmas.
    destruct (py_index sigmas t_index) as [e | sigma]; simpl; [exact I |].
    split; [apply embeddings_from_mono; exact Hemb |]. intros out.
    destruct (perform_guidance a out) as [e | noise_pred] eqn:Hg; simpl; [exact I |].
    split; [| intros; exact I].
    eexists _, _, _, _, out. split; [reflexivity | exact Hg].
  - split; [exact Hemb |]. intros out.
    destruct (perform_guidance a out) as [e | noise_pred] eqn:Hg; simpl; [exact I |].
    split; [| intros; exact I].
    eexists _, _, _, _, out. split; [reflexivity | exact Hg].
Qed.

Lemma denoise_loop_invariant self a emb timesteps :
  forall t_index latents hist,
    embeddings_from self a hist emb ->
    invariant (guidance_invariant self a) hist
              (denoise_loop self a emb timesteps t_index latents).
Proof.
  induction timesteps as [| t rest IH]; intros t_index latents hist Hemb; simpl.
  - exact I.
  - apply invariant_bind.
    + apply denoise_step_invariant; exact Hemb.
    + intros latents' tr _. apply IH. apply embeddings_from_mono; exact Hemb.
Qed.

End Guidance.

Section GuidanceStages.
Context {torch : Torch} {pil : PIL}.

Ltac crunch_satisfies :=
  repeat match goal with
         | |- context [lift ?r] => destruct r; simpl
         | |- satisfies _ _ _ (if ?b then _ else _) => destruct b; simpl
         | |- satisfies _ _ _ (match ?x with _ => _ end) => destruct x; simpl
         | |- satisfies _ _ _ (bind (match ?x with _ => _ end) _) => destruct x; simpl
         | |- _ /\ _ => split
         | |- forall _, _ => intro
         | |- auxiliary_call _ => unfold auxiliary_call; simpl; tauto
         | |- True => exact I
         | _ => progress simpl
         end.

Lemma set_timesteps_auxiliary self a :
  satisfies auxiliary_call (fun _ => True) (fun _ => True) (set_timesteps self a).
Proof. unfold set_timesteps. crunch_satisfies. Qed.

Lemma prepare_latents_auxiliary self a device b offset :
  satisfies auxiliary_call (fun _ => True) (fun _ => True)
            (prepare_latents self a device b offset).
Proof. unfold prepare_latents, noise_timesteps. crunch_satisfies. Qed.

Lemma decode_and_check_auxiliary a device latents :
  satisfies auxiliary_call (fun _ => True) (fun _ => True)
            (decode_and_check a device latents).
Proof. unfold decode_and_check. crunch_satisfies. Qed.

Lemma encode_prompt_invariant self a device b hist :
  Forall (fun ev => ~ is_tokenizer ev) hist ->
  Forall (fun ev => ~ is_text_encoder ev) hist ->
  invariant (guidance_invariant self a) hist (encode_prompt self a device b).
Proof.
  intros Htok Henc. unfold encode_prompt. simpl.
  split; [intros _; auto |]. intros ids.
  split.
  { intros _. apply Forall_app. split; [exact Henc |].
    constructor; [| constructor]. unfold is_text_encoder; simpl; tauto. }
  intros cond.
  destruct (do_classifier_free_guidance a) eqn:Hcfg; simpl; [| exact I].
  destruct (py_index (t_shape ids) (-1)) as [e | max_length]; simpl; [exact I |].
  split; [intros; congruence |]. intros uids.
  split; [intros; congruence |]. intros uncond. exact I.
Qed.

(** The embeddings [encode_prompt] returns. *)
Lemma encode_prompt_returns self a device b t emb :
  paths (encode_prompt self a device b) t (inr emb) -> embeddings_from self a t emb.
Proof.
  unfold encode_prompt, embeddings_from. simpl.
  intros [(e & _ & He) | (ids & t1 & -> & [(e & _ & He) | (cond & t2 & -> & H)])];
    try discriminate.
  destruct (do_classifier_free_guidance a).
  - destruct (py_index (t_shape ids) (-1)) as [e | max_length]; simpl in H.
    + destruct H as [_ H]. discriminate.
    + destruct H as [(e & _ & He) | (uids & t3 & -> & [(e & _ & He) | (uncond & t4 & -> & H)])];
        try discriminate.
      destruct H as [-> H]. injection H as ->.
      exists uncond, cond. split; [reflexivity |]. split.
      * exists device, b, max_length, uids. simpl. tauto.
      * exists device, ids. simpl. tauto.
  - destruct H as [-> H]. injection H as ->.
    exists device, ids. simpl. tauto.
Qed.

Lemma sample_latents_invariant self a emb latents init_timestep offset hist :
  embeddings_from self a hist emb ->
  invariant (guidance_invariant self a) hist
            (sample_latents self a emb latents init_timestep offset).
Proof.
  intros Hemb. unfold sample_latents.
  destruct init_timestep as [k |]; simpl; [| exact I].
  split; [exact I |]. intros schedule.
  apply denoise_loop_invariant. apply embeddings_from_mono. exact Hemb.
Qed.

Lemma device_binding_not_core tr :
  Forall is_device_binding tr ->
  Forall (fun ev => ~ is_tokenizer ev) tr /\ Forall (fun ev => ~ is_text_encoder ev) tr.
Proof.
  intros H. split; (eapply Forall_impl; [| exact H]);
    intros [c r]; unfold is_device_binding, is_tokenizer, is_text_encoder; simpl;
    destruct c; simpl; tauto.
Qed.

(** The invariant holds at every call of [__call__]. *)
Lemma pipeline_invariant self a :
  invariant (guidance_invariant self a) [] (pipeline self a).
Proof.
  unfold pipeline. apply invariant_bind.
  { eapply invariant_of_satisfies; [apply guidance_invariant_auxiliary |].
    apply (legacy_device_satisfies self a auxiliary_call (fun _ => True)).
    intros c Hc. destruct c; simpl in Hc; try contradiction;
      unfold auxiliary_call; simpl; tauto. }
  intros device t_dev Hdev. rewrite app_nil_l.
  apply legacy_device_paths in Hdev. destruct Hdev as (Hdev & _ & _).
  apply device_binding_not_core in Hdev. destruct Hdev as [Htok Henc].
  apply invariant_bind; [apply invariant_lift |].
  intros b t1 Hb. apply paths_lift in Hb. destruct Hb as [-> _]. rewrite app_nil_r.
  apply invariant_bind; [apply invariant_lift |].
  intros u1 t2 H2. apply paths_lift in H2. destruct H2 as [-> _]. rewrite app_nil_r.
  apply invariant_bind; [apply invariant_lift |].
  intros u2 t3 H3. apply paths_lift in H3. destruct H3 as [-> _]. rewrite app_nil_r.
  apply invariant_bind; [apply encode_prompt_invariant; assumption |].
  intros emb t_enc Hemb. apply encode_prompt_returns in Hemb.
  assert (Hemb' : embeddings_from self a (t_dev ++ t_enc) emb).
  { eapply embeddings_from_incl; [| exact Hemb]. apply incl_appr, incl_refl. }
  apply invariant_bind.
  { eapply invariant_of_satisfies;
      [apply guidance_invariant_auxiliary | apply set_timesteps_auxiliary]. }
  intros offset t_set _.
  apply invariant_bind.
  { eapply invariant_of_satisfies;
      [apply guidance_invariant_auxiliary | apply prepare_latents_auxiliary]. }
  intros [latents init_timestep] t_prep _.
  apply invariant_bind.
  { apply sample_latents_invariant. do 2 apply embeddings_from_mono. exact Hemb'. }
  intros latents' t_loop _.
  eapply invariant_of_satisfies;
    [apply guidance_invariant_auxiliary | apply decode_and_check_auxiliary].
Qed.

End GuidanceStages.

(** ** Comparison of floats *)

Section FloatOrder.

Lemma SFcompare_antisym x y :
  SFcompare y x = option_map CompOpp (SFcompare x y).
Proof.
  destruct x as [sx | sx | | sx mx ex], y as [sy | sy | | sy my ey]; simpl;
    try reflexivity;
    try (destruct sx; reflexivity); try (destruct sy; reflexivity);
    try (destruct sx, sy; reflexivity).
  change (Pos.compare_cont Eq mx my) with (Pos.compare mx my).
  change (Pos.compare_cont Eq my mx) with (Pos.compare my mx).
  rewrite (Pos.compare_antisym mx my), (Z.compare_antisym ex ey).
  destruct sx, sy; simpl; try reflexivity;
    destruct (ex ?= ey); simpl; try reflexivity;
    destruct (mx ?= my)%positive; reflexivity.
Qed.

(** [x <= y] excludes [y < x]. *)
Lemma leb_not_ltb x y : PyFloat.leb x y = true -> PyFloat.ltb y x = false.
Proof.
  unfold PyFloat.leb, PyFloat.ltb, SFleb, SFltb. rewrite (SFcompare_antisym x y).
  destruct (SFcompare x y) as [[ | | ] | ]; simpl; congruence.
Qed.

End FloatOrder.

Section GuidanceTheorem.
Context {torch : Torch} {pil : PIL}.

(** With [guidance_scale > 1.0], every scheduler step directly follows
    a UNet call on the concatenated embeddings [uncond; cond] - the text
    encoder's answers on the empty prompts and on the prompt - and the
    noise prediction it is given is
    [uncond + guidance_scale * (cond - uncond)] on the two chunks of that
    call's answer.  With [guidance_scale <= 1.0], every scheduler step is
    given the answer of the UNet call before it, made on the prompt's
    embedding alone, and the tokenizer and the text encoder are called at
    most once, on the prompt. *)
Lemma guidance_at_each_step self a tr o :
  paths (pipeline self a) tr o ->
  (PyFloat.ltb PyFloat.one (guidance_scale a) = true ->
   forall pre noise_pred t latents kw r post,
     tr = pre ++ Ev (SchedulerStep noise_pred t latents kw) r :: post ->
     exists pre' x t' out uncond cond noise_pred_uncond noise_pred_text,
       pre = pre' ++ [Ev (Unet x t' (t_cat [uncond; cond])) (inr out)]
       /\ unconditional_embedding pre' uncond
       /\ conditional_embedding self a pre' cond
       /\ t_chunk 2 out = [noise_pred_uncond; noise_pred_text]
       /\ noise_pred =
          t_add noise_pred_uncond
                (s_mul (NFloat (guidance_scale a))
                       (t_sub noise_pred_text noise_pred_uncond)))
  /\ (PyFloat.leb (guidance_scale a) PyFloat.one = true ->
      (forall pre noise_pred t latents kw r post,
          tr = pre ++ Ev (SchedulerStep noise_pred t latents kw) r :: post ->
          exists pre' x t' cond,
            pre = pre' ++ [Ev (Unet x t' cond) (inr noise_pred)]
            /\ conditional_embedding self a pre' cond)
      /\ (forall pre text max_length truncation r post,
             tr = pre ++ Ev (Tokenizer text max_length truncation) r :: post ->
             text = prompt a /\ truncation = true
             /\ Forall (fun ev => ~ is_tokenizer ev) pre)
      /\ (forall pre input_ids r post,
             tr = pre ++ Ev (TextEncoder input_ids) r :: post ->
             Forall (fun ev => ~ is_text_encoder ev) pre)).
Proof.
  intros Hp.
  pose proof (invariant_paths _ _ [] tr o (pipeline_invariant self a) Hp) as Hinv.
  assert (Hstep : forall pre noise_pred t latents kw r post,
             tr = pre ++ Ev (SchedulerStep noise_pred t latents kw) r :: post ->
             exists pre' x t' emb out,
               pre = pre' ++ [Ev (Unet x t' emb) (inr out)]
               /\ perform_guidance a out = inr noise_pred
               /\ embeddings_from self a pre' emb).
  { intros pre noise_pred t latents kw r post Htr.
    destruct (Hinv pre _ post Htr) as (pre' & x & t' & emb & out & Hpre & Hg).
    simpl in Hpre. exists pre', x, t', emb, out. split; [exact Hpre |].
    split; [exact Hg |].
    subst pre. rewrite <- app_assoc in Htr. simpl in Htr.
    exact (Hinv pre' _ _ Htr). }
  split.
  - intros Hgs pre noise_pred t latents kw r post Htr.
    destruct (Hstep _ _ _ _ _ _ _ Htr) as (pre' & x & t' & emb & out & Hpre & Hg & Hemb).
    unfold embeddings_from, perform_guidance, do_classifier_free_guidance in Hg, Hemb.
    rewrite Hgs in Hg, Hemb.
    destruct Hemb as (uncond & cond & -> & Hu & Hc).
    destruct (t_chunk 2 out) as [| nu [| nt [| ? ?]]] eqn:Hchunk; try discriminate.
    injection Hg as <-.
    exists pre', x, t', out, uncond, cond, nu, nt. repeat split; assumption.
  - intros Hle. apply leb_not_ltb in Hle.
    split; [| split].
    + intros pre noise_pred t latents kw r post Htr.
      destruct (Hstep _ _ _ _ _ _ _ Htr) as (pre' & x & t' & emb & out & Hpre & Hg & Hemb).
      unfold embeddings_from, perform_guidance, do_classifier_free_guidance in Hg, Hemb.
      rewrite Hle in Hg, Hemb. injection Hg as <-.
      exists pre', x, t', emb. split; assumption.
    + intros pre text max_length truncation r post Htr.
      exact (Hinv pre _ post Htr Hle).
    + intros pre input_ids r post Htr.
      exact (Hinv pre _ post Htr Hle).
Qed.

End GuidanceTheorem.

(** ** Floating point: digits, shifts and rounding *)

Section Digits.

Lemma digits2_pos_size p : digits2_pos p = Pos.size p.
Proof. induction p; simpl; congruence. Qed.

Lemma Zdigits2_log2 m : 0 < m -> Zdigits2 m = Z.log2 m + 1.
Proof.
  destruct m as [| p | p]; try lia. intros _. simpl.
  rewrite digits2_pos_size. destruct p; simpl; lia.
Qed.

Lemma Zdigits2_nonneg m : 0 <= Zdigits2 m.
Proof. destruct m; simpl; lia. Qed.

Lemma Zdigits2_pos m : 0 < m -> 0 < Zdigits2 m.
Proof. intros H. rewrite Zdigits2_log2 by assumption. pose proof (Z.log2_nonneg m). lia. Qed.

Lemma Zdigits2_bounds m : 0 < m -> 2 ^ (Zdigits2 m - 1) <= m < 2 ^ Zdigits2 m.
Proof.
  intros H. rewrite Zdigits2_log2 by assumption.
  replace (Z.log2 m + 1 - 1) with (Z.log2 m) by lia.
  apply Z.log2_spec. assumption.
Qed.

Lemma Zdigits2_le_of_lt_pow2 m k : 0 < m -> m < 2 ^ k -> Zdigits2 m <= k.
Proof.
  intros Hm Hk. rewrite Zdigits2_log2 by assumption.
  assert (0 <= k). { destruct (Z.lt_ge_cases k 0); [| lia]. rewrite Z.pow_neg_r in Hk; lia. }
  apply Z.log2_lt_pow2 in Hk; lia.
Qed.

Lemma Zdigits2_gt_of_ge_pow2 m k : 0 <= k -> 2 ^ k <= m -> k < Zdigits2 m.
Proof.
  intros Hk Hm. assert (0 < m) by (pose proof (Z.pow_pos_nonneg 2 k); lia).
  rewrite Zdigits2_log2 by assumption.
  apply Z.log2_le_pow2 in Hm; lia.
Qed.

Lemma Zdigits2_mono m n : 0 < m -> m <= n -> Zdigits2 m <= Zdigits2 n.
Proof.
  intros Hm Hn. rewrite !Zdigits2_log2 by lia.
  pose proof (Z.log2_le_mono m n Hn). lia.
Qed.

Lemma Zdigits2_div_pow2 m n :
  0 < m -> 0 <= n < Zdigits2 m ->
  0 < m / 2 ^ n /\ Zdigits2 (m / 2 ^ n) = Zdigits2 m - n.
Proof.
  intros Hm Hn.
  pose proof (Zdigits2_bounds m Hm) as [Hlo Hhi].
  assert (Hpos : 0 < 2 ^ n) by (apply Z.pow_pos_nonneg; lia).
  assert (Hq : 2 ^ (Zdigits2 m - 1 - n) <= m / 2 ^ n).
  { apply Z.div_le_lower_bound; [assumption |].
    rewrite <- Z.pow_add_r by lia.
    replace (n + (Zdigits2 m - 1 - n)) with (Zdigits2 m - 1) by lia. assumption. }
  assert (0 < 2 ^ (Zdigits2 m - 1 - n)) by (apply Z.pow_pos_nonneg; lia).
  split; [lia |].
  rewrite <- Z.shiftr_div_pow2 by lia.
  rewrite !Zdigits2_log2; [| assumption | rewrite Z.shiftr_div_pow2 by lia; lia].
  rewrite Z.log2_shiftr by assumption.
  rewrite Zdigits2_log2 in Hn by assumption. lia.
Qed.

(** One more than [m] has at most one more digit. *)
Lemma Zdigits2_succ_le m m' :
  0 <= m -> 0 <= m' <= m + 1 -> Zdigits2 m' <= Zdigits2 m + 1.
Proof.
  intros Hm Hle. destruct (Z.eq_dec m' 0) as [-> | Hpos].
  - pose proof (Zdigits2_nonneg m). simpl. lia.
  - assert (Hlt : m' < 2 ^ (Zdigits2 m + 1)).
    { destruct (Z.eq_dec m 0) as [-> | Hnz].
      - simpl. lia.
      - pose proof (Zdigits2_bounds m ltac:(lia)) as [_ Hhi].
        pose proof (Zdigits2_nonneg m).
        rewrite Z.pow_add_r by lia. lia. }
    apply Zdigits2_le_of_lt_pow2; [lia | assumption].
Qed.

End Digits.

Section Shr.

Lemma shr_1_spec mrs :
  0 <= shr_m mrs ->
  shr_m (shr_1 mrs) = shr_m mrs / 2
  /\ (inexact mrs = false -> shr_m mrs mod 2 = 0 -> inexact (shr_1 mrs) = false).
Proof.
  destruct mrs as [m r s]; unfold inexact; simpl. intros Hm.
  destruct m as [| [p | p |] |]; try lia; simpl.
  - split; [reflexivity |]. intros ->. reflexivity.
  - split.
    + rewrite Pos2Z.inj_xI. rewrite Z.mul_comm, Z.div_add_l by lia.
      change (1 / 2) with 0. lia.
    + intros _ H. rewrite Pos2Z.inj_xI in H.
      rewrite Z.add_comm, Z.mul_comm, Z.mod_add in H by lia. discriminate.
  - split.
    + rewrite Pos2Z.inj_xO. rewrite Z.mul_comm, Z.div_mul by lia. reflexivity.
    + intros ->. reflexivity.
  - split; [reflexivity |]. intros _ H. discriminate.
Qed.

Lemma iter_pos_shr_1 p :
  forall mrs,
    0 <= shr_m mrs ->
    shr_m (iter_pos shr_1 p mrs) = shr_m mrs / 2 ^ Zpos p
    /\ (inexact mrs = false -> shr_m mrs mod 2 ^ Zpos p = 0 ->
        inexact (iter_pos shr_1 p mrs) = false).
Proof.
  assert (Hnn : forall m k, 0 <= m -> 0 <= m / 2 ^ Zpos k).
  { intros. apply Z.div_pos; [assumption | apply Z.pow_pos_nonneg; lia]. }
  induction p as [p IH | p IH |]; intros mrs Hm; cbn [iter_pos].
  - destruct (shr_1_spec mrs Hm) as [H1 E1].
    assert (Hm1 : 0 <= shr_m (shr_1 mrs)) by (rewrite H1; apply Z.div_pos; lia).
    destruct (IH _ Hm1) as [H2 E2].
    assert (Hm2 : 0 <= shr_m (iter_pos shr_1 p (shr_1 mrs))) by (rewrite H2; auto).
    destruct (IH _ Hm2) as [H3 E3].
    assert (Hpow : 2 ^ Zpos p~1 = 2 * 2 ^ Zpos p * 2 ^ Zpos p).
    { rewrite (Pos2Z.inj_xI p). rewrite Z.pow_add_r, Z.pow_mul_r by lia.
      change (2 ^ 2) with 4. rewrite Z.pow_1_r.
      replace 4 with (2 * 2) by reflexivity. rewrite Z.pow_mul_l. lia. }
    assert (Hp : 0 < 2 ^ Zpos p) by (apply Z.pow_pos_nonneg; lia).
    split.
    + rewrite H3, H2, H1, Hpow. rewrite !Z.div_div by lia. f_equal. lia.
    + intros Hex Hmod. rewrite Hpow in Hmod.
      apply Z.mod_divide in Hmod; [| lia]. destruct Hmod as [q Hq].
      apply E3.
      * apply E2.
        -- apply E1; [assumption |]. rewrite Hq.
           replace (q * (2 * 2 ^ Zpos p * 2 ^ Zpos p)) with (q * 2 ^ Zpos p * 2 ^ Zpos p * 2) by lia.
           apply Z.mod_mul. lia.
        -- rewrite H1, Hq.
           replace (q * (2 * 2 ^ Zpos p * 2 ^ Zpos p)) with (q * 2 ^ Zpos p * 2 ^ Zpos p * 2) by lia.
           rewrite Z.div_mul by lia. apply Z.mod_mul. lia.
      * rewrite H2, H1, Hq.
        replace (q * (2 * 2 ^ Zpos p * 2 ^ Zpos p)) with (q * 2 ^ Zpos p * 2 ^ Zpos p * 2) by lia.
        rewrite Z.div_mul by lia. rewrite Z.div_mul by lia. apply Z.mod_mul. lia.
  - destruct (IH _ Hm) as [H2 E2].
    assert (Hm2 : 0 <= shr_m (iter_pos shr_1 p mrs)) by (rewrite H2; auto).
    destruct (IH _ Hm2) as [H3 E3].
    assert (Hpow : 2 ^ Zpos p~0 = 2 ^ Zpos p * 2 ^ Zpos p).
    { rewrite (Pos2Z.inj_xO p). rewrite Z.pow_mul_r by lia.
      change (2 ^ 2) with 4. replace 4 with (2 * 2) by reflexivity.
      rewrite Z.pow_mul_l. reflexivity. }
    assert (Hp : 0 < 2 ^ Zpos p) by (apply Z.pow_pos_nonneg; lia).
    split.
    + rewrite H3, H2, Hpow. rewrite Z.div_div by lia. reflexivity.
    + intros Hex Hmod. rewrite Hpow in Hmod.
      apply Z.mod_divide in Hmod; [| lia]. destruct Hmod as [q Hq].
      apply E3.
      * apply E2; [assumption |]. rewrite Hq.
        replace (q * (2 ^ Zpos p * 2 ^ Zpos p)) with (q * 2 ^ Zpos p * 2 ^ Zpos p) by lia.
        apply Z.mod_mul. lia.
      * rewrite H2, Hq.
        replace (q * (2 ^ Zpos p * 2 ^ Zpos p)) with (q * 2 ^ Zpos p * 2 ^ Zpos p) by lia.
        rewrite Z.div_mul by lia. apply Z.mod_mul. lia.
  - destruct (shr_1_spec mrs Hm) as [H1 E1]. rewrite Z.pow_1_r. auto.
Qed.

End Shr.

Section Rounding.
Variables prec emax : Z.
Hypothesis prec_pos : 0 < prec.

Lemma fexp_ge e : e - prec <= fexp prec emax e.
Proof. unfold fexp. lia. Qed.

Lemma fexp_mono e e' : e <= e' -> fexp prec emax e <= fexp prec emax e'.
Proof. unfold fexp. lia. Qed.

Lemma fexp_lt e : emin prec emax < e -> fexp prec emax e < e.
Proof. unfold fexp. lia. Qed.

Lemma shr_record_of_loc_m m l : shr_m (shr_record_of_loc m l) = m.
Proof. destruct l as [| []]; reflexivity. Qed.

Lemma loc_of_exact mrs : inexact mrs = false -> loc_of_shr_record mrs = loc_Exact.
Proof. destruct mrs as [m [] []]; unfold inexact; simpl; congruence. Qed.

Lemma shr_fexp_spec m e l :
  0 <= m ->
  exists mrs,
    shr_fexp prec emax m e l = (mrs, e + Z.max 0 (fexp prec emax (Zdigits2 m + e) - e))
    /\ shr_m mrs = m / 2 ^ Z.max 0 (fexp prec emax (Zdigits2 m + e) - e)
    /\ (l = loc_Exact ->
        m mod 2 ^ Z.max 0 (fexp prec emax (Zdigits2 m + e) - e) = 0 ->
        loc_of_shr_record mrs = loc_Exact).
Proof.
  intros Hm. unfold shr_fexp, shr.
  destruct (fexp prec emax (Zdigits2 m + e) - e) as [| p | p] eqn:Hn.
  - exists (shr_record_of_loc m l). rewrite Z.max_l by lia.
    rewrite Z.add_0_r, Z.pow_0_r, Z.div_1_r, shr_record_of_loc_m.
    repeat split. intros -> _. reflexivity.
  - assert (Hm' : 0 <= shr_m (shr_record_of_loc m l)) by (rewrite shr_record_of_loc_m; exact Hm).
    destruct (iter_pos_shr_1 p _ Hm') as [H1 H2].
    rewrite shr_record_of_loc_m in H1, H2.
    exists (iter_pos shr_1 p (shr_record_of_loc m l)). rewrite Z.max_r by lia.
    repeat split; [exact H1 |].
    intros -> Hmod. apply loc_of_exact. apply H2; [reflexivity | exact Hmod].
  - exists (shr_record_of_loc m l). rewrite Z.max_l by lia.
    rewrite Z.add_0_r, Z.pow_0_r, Z.div_1_r, shr_record_of_loc_m.
    repeat split. intros -> _. reflexivity.
Qed.

Lemma round_nearest_even_bounds m l :
  m <= round_nearest_even m l <= m + 1
  /\ (l = loc_Exact -> round_nearest_even m l = m).
Proof.
  destruct l as [| c]; [| destruct c]; cbn [round_nearest_even].
  - split; [lia | reflexivity].
  - destruct (Z.even m); (split; [lia | discriminate]).
  - split; [lia | discriminate].
  - split; [lia | discriminate].
Qed.

(** What [binary_round_aux] computes: a first right shift by [n1] bits to
    the exponent of the format, the rounding of the shifted mantissa to
    [m2], and a second shift by [n2] bits when the rounding carried. *)
Lemma binary_round_aux_spec sx mx ex lx :
  0 <= mx ->
  exists m2,
    let n1 := Z.max 0 (fexp prec emax (Zdigits2 mx + ex) - ex) in
    let n2 := Z.max 0 (fexp prec emax (Zdigits2 m2 + (ex + n1)) - (ex + n1)) in
    mx / 2 ^ n1 <= m2 <= mx / 2 ^ n1 + 1
    /\ (lx = loc_Exact -> mx mod 2 ^ n1 = 0 -> m2 = mx / 2 ^ n1)
    /\ binary_round_aux prec emax sx mx ex lx =
       match m2 / 2 ^ n2 with
       | Z0 => S754_zero sx
       | Zpos m =>
           if ex + n1 + n2 <=? emax - prec
           then S754_finite sx m (ex + n1 + n2) else S754_infinity sx
       | Zneg _ => S754_nan
       end.
Proof.
  intros Hm. unfold binary_round_aux.
  destruct (shr_fexp_spec mx ex lx Hm) as (mrs1 & -> & Hm1 & Hex1).
  set (n1 := Z.max 0 (fexp prec emax (Zdigits2 mx + ex) - ex)) in *.
  set (m2 := round_nearest_even (shr_m mrs1) (loc_of_shr_record mrs1)).
  destruct (round_nearest_even_bounds (shr_m mrs1) (loc_of_shr_record mrs1)) as [Hb He].
  fold m2 in Hb, He. rewrite Hm1 in Hb, He.
  assert (H0 : 0 <= mx / 2 ^ n1).
  { apply Z.div_pos; [exact Hm | apply Z.pow_pos_nonneg; lia]. }
  assert (Hm2 : 0 <= m2) by lia.
  destruct (shr_fexp_spec m2 (ex + n1) loc_Exact Hm2) as (mrs2 & -> & Hm3 & _).
  exists m2. cbv zeta. split; [exact Hb |]. split.
  - intros Hl Hmod. apply He. apply Hex1; assumption.
  - rewrite Hm3. reflexivity.
Qed.

(** The mantissa of a rounded result fits the precision. *)
Lemma binary_round_aux_digits sx mx ex lx s m e :
  0 <= mx ->
  binary_round_aux prec emax sx mx ex lx = S754_finite s m e ->
  s = sx /\ Zdigits2 (Zpos m) <= prec.
Proof.
  intros Hm Hr.
  destruct (binary_round_aux_spec sx mx ex lx Hm) as (m2 & Hb & _ & Heq).
  cbv zeta in *. rewrite Heq in Hr. clear Heq.
  set (n1 := Z.max 0 (fexp prec emax (Zdigits2 mx + ex) - ex)) in *.
  set (n2 := Z.max 0 (fexp prec emax (Zdigits2 m2 + (ex + n1)) - (ex + n1))) in *.
  destruct (m2 / 2 ^ n2) as [| q | q] eqn:Hq; try discriminate.
  destruct (ex + n1 + n2 <=? emax - prec); try discriminate.
  injection Hr as -> -> _. split; [reflexivity |].
  assert (H0 : 0 <= mx / 2 ^ n1).
  { apply Z.div_pos; [exact Hm | apply Z.pow_pos_nonneg; lia]. }
  assert (Hm2 : 0 < m2).
  { destruct (Z.eq_dec m2 0) as [-> | ]; [| lia].
    rewrite Z.div_0_l in Hq; [discriminate |].
    apply Z.pow_nonzero; lia. }
  assert (Hn2 : 0 <= n2) by lia.
  destruct (Z.lt_ge_cases n2 (Zdigits2 m2)) as [Hlt | Hge].
  - destruct (Zdigits2_div_pow2 m2 n2 Hm2 (conj Hn2 Hlt)) as [_ Hd].
    rewrite Hq in Hd. rewrite Hd.
    pose proof (fexp_ge (Zdigits2 m2 + (ex + n1))). lia.
  - exfalso. pose proof (Zdigits2_bounds m2 Hm2) as [_ Hhi].
    assert (m2 < 2 ^ n2).
    { eapply Z.lt_le_trans; [exact Hhi |]. apply Z.pow_le_mono_r; lia. }
    rewrite Z.div_small in Hq by lia. discriminate.
Qed.

Lemma binary_round_aux_sign sx mx ex lx s :
  0 <= mx ->
  binary_round_aux prec emax sx mx ex lx = S754_infinity s -> s = sx.
Proof.
  intros Hm Hr.
  destruct (binary_round_aux_spec sx mx ex lx Hm) as (m2 & _ & _ & Heq).
  cbv zeta in Heq. rewrite Heq in Hr.
  destruct (_ / _); try discriminate.
  destruct (_ <=? _); congruence.
Qed.

(** Rounding does not lower the position of the leading bit. *)
Lemma binary_round_aux_magnitude sx mx ex lx :
  0 < mx -> emin prec emax < Zdigits2 mx + ex ->
  binary_round_aux prec emax sx mx ex lx = S754_infinity sx
  \/ exists m e,
      binary_round_aux prec emax sx mx ex lx = S754_finite sx m e
      /\ Zdigits2 mx + ex <= Zdigits2 (Zpos m) + e.
Proof.
  intros Hm Hmag.
  destruct (binary_round_aux_spec sx mx ex lx (Z.lt_le_incl _ _ Hm)) as (m2 & Hb & _ & Heq).
  cbv zeta in *. rewrite Heq. clear Heq.
  set (n1 := Z.max 0 (fexp prec emax (Zdigits2 mx + ex) - ex)) in *.
  set (n2 := Z.max 0 (fexp prec emax (Zdigits2 m2 + (ex + n1)) - (ex + n1))) in *.
  assert (Hn1 : 0 <= n1 < Zdigits2 mx).
  { pose proof (fexp_lt _ Hmag). pose proof (Zdigits2_pos mx Hm). lia. }
  destruct (Zdigits2_div_pow2 mx n1 Hm Hn1) as [Hq1 Hd1].
  assert (Hm2 : 0 < m2) by lia.
  assert (Hd2 : Zdigits2 mx - n1 <= Zdigits2 m2).
  { rewrite <- Hd1. apply Zdigits2_mono; lia. }
  assert (Hn2 : 0 <= n2 < Zdigits2 m2).
  { assert (emin prec emax < Zdigits2 m2 + (ex + n1)) by lia.
    pose proof (fexp_lt _ H). pose proof (Zdigits2_pos m2 Hm2). lia. }
  destruct (Zdigits2_div_pow2 m2 n2 Hm2 Hn2) as [Hq2 Hd3].
  destruct (m2 / 2 ^ n2) as [| q | q] eqn:Hq; try lia.
  destruct (ex + n1 + n2 <=? emax - prec); [right | left; reflexivity].
  exists q, (ex + n1 + n2). split; [reflexivity | lia].
Qed.

(** An exact value that is at most [K] units of the first shift is
    rounded to at most [K] such units. *)
Lemma binary_round_aux_upper sx mx ex K :
  0 <= mx ->
  mx <= K * 2 ^ Z.max 0 (fexp prec emax (Zdigits2 mx + ex) - ex) ->
  binary_round_aux prec emax sx mx ex loc_Exact = S754_zero sx
  \/ exists m n2,
      0 <= n2
      /\ Zpos m * 2 ^ n2 <= K
      /\ binary_round_aux prec emax sx mx ex loc_Exact =
         let e := ex + Z.max 0 (fexp prec emax (Zdigits2 mx + ex) - ex) + n2 in
         if e <=? emax - prec then S754_finite sx m e else S754_infinity sx.
Proof.
  intros Hm HK.
  destruct (binary_round_aux_spec sx mx ex loc_Exact Hm) as (m2 & Hb & Hex & Heq).
  cbv zeta in *. rewrite Heq. clear Heq.
  set (n1 := Z.max 0 (fexp prec emax (Zdigits2 mx + ex) - ex)) in *.
  set (n2 := Z.max 0 (fexp prec emax (Zdigits2 m2 + (ex + n1)) - (ex + n1))) in *.
  assert (Hp1 : 0 < 2 ^ n1) by (apply Z.pow_pos_nonneg; lia).
  assert (Hp2 : 0 < 2 ^ n2) by (apply Z.pow_pos_nonneg; lia).
  assert (H0 : 0 <= mx / 2 ^ n1) by (apply Z.div_pos; lia).
  assert (Hm2K : m2 <= K).
  { destruct (Z.eq_dec (mx mod 2 ^ n1) 0) as [Hz | Hnz].
    - rewrite (Hex eq_refl Hz).
      apply Z.div_le_upper_bound; [exact Hp1 | lia].
    - pose proof (Z.div_mod mx (2 ^ n1) ltac:(lia)) as Hdm.
      pose proof (Z.mod_pos_bound mx (2 ^ n1) Hp1).
      assert (mx / 2 ^ n1 < K) by nia. lia. }
  pose proof (Z.mul_div_le m2 (2 ^ n2) Hp2) as Hle.
  assert (Hq0 : 0 <= m2 / 2 ^ n2) by (apply Z.div_pos; lia).
  destruct (m2 / 2 ^ n2) as [| q | q] eqn:Hq; try lia.
  - left. reflexivity.
  - right. exists q, n2. split; [lia |]. split; [lia | reflexivity].
Qed.

(** A value whose leading bit, after a carry, still fits below the
    exponent [B] is not rounded to infinity. *)
Lemma binary_round_aux_no_overflow sx mx ex lx B s :
  0 <= mx -> ex <= B -> Zdigits2 mx + ex + 1 - prec <= B ->
  emin prec emax <= B -> B <= emax - prec ->
  binary_round_aux prec emax sx mx ex lx <> S754_infinity s.
Proof.
  intros Hm Hex Hmag Hemin HB.
  destruct (binary_round_aux_spec sx mx ex lx Hm) as (m2 & Hb & _ & Heq).
  cbv zeta in *. rewrite Heq. clear Heq.
  set (n1 := Z.max 0 (fexp prec emax (Zdigits2 mx + ex) - ex)) in *.
  set (n2 := Z.max 0 (fexp prec emax (Zdigits2 m2 + (ex + n1)) - (ex + n1))) in *.
  assert (Hp1 : 0 < 2 ^ n1) by (apply Z.pow_pos_nonneg; lia).
  assert (H0 : 0 <= mx / 2 ^ n1) by (apply Z.div_pos; lia).
  assert (He1 : ex + n1 <= B) by (unfold n1, fexp; lia).
  assert (Hd1 : Zdigits2 (mx / 2 ^ n1) + n1 <= Z.max (Zdigits2 mx) n1).
  { destruct (Z.eq_dec mx 0) as [-> | Hnz].
    - rewrite Z.div_0_l by lia. simpl. lia.
    - destruct (Z.lt_ge_cases n1 (Zdigits2 mx)) as [Hlt | Hge].
      + destruct (Zdigits2_div_pow2 mx n1 ltac:(lia) ltac:(lia)) as [_ ->]. lia.
      + pose proof (Zdigits2_bounds mx ltac:(lia)) as [_ Hhi].
        assert (mx < 2 ^ n1).
        { eapply Z.lt_le_trans; [exact Hhi |]. apply Z.pow_le_mono_r; lia. }
        rewrite Z.div_small by lia. simpl. lia. }
  pose proof (Zdigits2_succ_le (mx / 2 ^ n1) m2 H0 ltac:(lia)) as Hd2.
  assert (He2 : ex + n1 + n2 <= B) by (unfold n2, fexp; lia).
  destruct (m2 / 2 ^ n2) as [| q | q]; try discriminate.
  assert (Hfit : (ex + n1 + n2 <=? emax - prec) = true) by (apply Z.leb_le; lia).
  rewrite Hfit. discriminate.
Qed.

End Rounding.

Section Binary64.

Lemma Pos_iter_xO p k : Zpos (Pos.iter xO p k) = Zpos p * 2 ^ Zpos k.
Proof.
  induction k as [| k IH] using Pos.peano_ind.
  - simpl. lia.
  - rewrite Pos.iter_succ, Pos2Z.inj_xO, IH, Pos2Z.inj_succ, Z.pow_succ_r by lia. lia.
Qed.

(** A mantissa at the exponent of the format is left as it is. *)
Lemma binary_round_aux_canonical sx mx ex :
  fexp PyFloat.prec PyFloat.emax (Zdigits2 (Zpos mx) + ex) = ex ->
  ex <= PyFloat.emax - PyFloat.prec ->
  binary_round_aux PyFloat.prec PyFloat.emax sx (Zpos mx) ex loc_Exact
  = S754_finite sx mx ex.
Proof.
  intros Hc He.
  destruct (binary_round_aux_spec PyFloat.prec PyFloat.emax sx (Zpos mx) ex loc_Exact
              ltac:(lia)) as (m2 & _ & Hex & ->).
  cbv zeta in Hex. rewrite Hc, Z.sub_diag in Hex. rewrite Hc, Z.sub_diag.
  change (Z.max 0 0) with 0 in *. rewrite Z.pow_0_r, Z.div_1_r in *.
  rewrite (Hex eq_refl (Z.mod_1_r _)).
  rewrite !Z.add_0_r, Hc, Z.sub_diag. change (Z.max 0 0) with 0.
  rewrite Z.pow_0_r, Z.div_1_r, Z.add_0_r.
  apply Z.leb_le in He. rewrite He. reflexivity.
Qed.

(** An integer below 2^53 converts exactly, to a mantissa of 53 bits. *)
Lemma of_Z_small w :
  0 < w < 2 ^ 53 ->
  exists mx ex,
    PyFloat.of_Z w = S754_finite false mx ex
    /\ -52 <= ex <= 0
    /\ Zpos mx = w * 2 ^ (- ex)
    /\ Zdigits2 (Zpos mx) = 53.
Proof.
  intros [Hpos Hlt]. destruct w as [| p | p]; try lia.
  pose proof (Zdigits2_pos (Zpos p) Hpos) as Hd1.
  pose proof (Zdigits2_le_of_lt_pow2 (Zpos p) 53 Hpos Hlt) as Hd2.
  pose proof (Zdigits2_bounds (Zpos p) Hpos) as [Hlo Hhi].
  unfold PyFloat.of_Z, binary_normalize, binary_round, shl_align.
  change (Zpos (digits2_pos p)) with (Zdigits2 (Zpos p)).
  set (d := Zdigits2 (Zpos p)) in *.
  assert (Hf : fexp PyFloat.prec PyFloat.emax (d + 0) = d - 53).
  { unfold fexp, emin, PyFloat.prec, PyFloat.emax. lia. }
  rewrite Hf.
  destruct (d - 53 - 0) as [| k | k] eqn:Hk; try lia.
  - assert (d = 53) by lia.
    exists p, 0. split.
    + apply binary_round_aux_canonical.
      * change (Zdigits2 (Zpos p)) with d. unfold fexp, emin, PyFloat.prec, PyFloat.emax. lia.
      * unfold PyFloat.prec, PyFloat.emax. lia.
    + repeat split; lia.
  - assert (Hmz : Zpos (Pos.iter xO p k) = Zpos p * 2 ^ (53 - d)).
    { rewrite Pos_iter_xO. f_equal. f_equal. lia. }
    assert (Hdz : Zdigits2 (Zpos (Pos.iter xO p k)) = 53).
    { assert (Hp : 0 < 2 ^ (53 - d)) by (apply Z.pow_pos_nonneg; lia).
      assert (Hs : 2 ^ (d - 1) * 2 ^ (53 - d) = 2 ^ 52).
      { rewrite <- Z.pow_add_r by lia. f_equal. lia. }
      assert (Hs' : 2 ^ d * 2 ^ (53 - d) = 2 ^ 53).
      { rewrite <- Z.pow_add_r by lia. f_equal. lia. }
      pose proof (Zdigits2_le_of_lt_pow2 (Zpos (Pos.iter xO p k)) 53 ltac:(lia)
                    ltac:(rewrite Hmz; nia)).
      pose proof (Zdigits2_gt_of_ge_pow2 (Zpos (Pos.iter xO p k)) 52 ltac:(lia)
                    ltac:(rewrite Hmz; nia)).
      lia. }
    exists (Pos.iter xO p k), (d - 53). split.
    + apply binary_round_aux_canonical.
      * rewrite Hdz. unfold fexp, emin, PyFloat.prec, PyFloat.emax. lia.
      * unfold PyFloat.prec, PyFloat.emax. lia.
    + repeat split; try lia. rewrite Hmz. f_equal. f_equal. lia.
Qed.

End Binary64.

Section Binary64Ops.

(** [int(w * s)] for [0 < w < 2^53] and a positive [s <= 1] is an integer
    between 0 and [w]. *)
Lemma mul_of_Z_to_int w ms es :
  0 < w < 2 ^ 53 -> es <= 0 -> Zpos ms <= 2 ^ (- es) ->
  exists k,
    PyFloat.to_int (PyFloat.mul (PyFloat.of_Z w) (S754_finite false ms es)) = inr k
    /\ 0 <= k <= w.
Proof.
  intros Hw Hes Hms.
  destruct (of_Z_small w Hw) as (mx & ex & -> & Hex & Hmx & Hdx).
  unfold PyFloat.mul, SFmul. cbn [xorb].
  rewrite Pos2Z.inj_mul.
  set (M := Zpos mx * Zpos ms). set (E := ex + es).
  assert (HM : 0 < M) by (unfold M; lia).
  pose proof (Zdigits2_bounds (Zpos mx) ltac:(lia)) as [_ Hmxhi]. rewrite Hdx in Hmxhi.
  assert (Hpes : 0 < 2 ^ (- es)) by (apply Z.pow_pos_nonneg; lia).
  assert (HM1 : M <= Zpos mx * 2 ^ (- es)) by (unfold M; nia).
  assert (HdM : Zdigits2 M <= 53 - es).
  { apply Zdigits2_le_of_lt_pow2; [exact HM |].
    replace (53 - es) with (53 + (- es)) by lia. rewrite Z.pow_add_r by lia. nia. }
  set (n1 := Z.max 0 (fexp PyFloat.prec PyFloat.emax (Zdigits2 M + E) - E)).
  assert (Hn1 : 0 <= n1 <= - es).
  { unfold n1, fexp, emin, PyFloat.prec, PyFloat.emax, E. lia. }
  set (k := - es - n1).
  assert (Hpk : 0 < 2 ^ k) by (apply Z.pow_pos_nonneg; lia).
  assert (Hpn1 : 0 < 2 ^ n1) by (apply Z.pow_pos_nonneg; lia).
  assert (Hsplit : 2 ^ (- es) = 2 ^ k * 2 ^ n1).
  { rewrite <- Z.pow_add_r by lia. f_equal. lia. }
  destruct (binary_round_aux_upper PyFloat.prec PyFloat.emax false M E (Zpos mx * 2 ^ k)
              ltac:(lia) ltac:(fold n1; nia))
    as [-> | (m & n2 & Hn2 & Hle & ->)].
  - exists 0. simpl. split; [reflexivity | lia].
  - fold n1. cbv zeta.
    set (e := E + n1 + n2).
    assert (He : e = ex - k + n2) by lia.
    assert (Hpn2 : 0 < 2 ^ n2) by (apply Z.pow_pos_nonneg; lia).
    assert (Hn2k : n2 < 53 + k).
    { apply (Z.pow_lt_mono_r_iff 2); [lia | lia |].
      rewrite Z.pow_add_r by lia. nia. }
    assert (Hfit : (e <=? PyFloat.emax - PyFloat.prec) = true).
    { apply Z.leb_le. unfold PyFloat.emax, PyFloat.prec. lia. }
    rewrite Hfit. unfold PyFloat.to_int, PyFloat.trunc. cbn [cond_Zopp].
    assert (Hpex : 0 < 2 ^ (- ex)) by (apply Z.pow_pos_nonneg; lia).
    destruct (0 <=? e) eqn:Hsign.
    + apply Z.leb_le in Hsign.
      rewrite Z.shiftl_mul_pow2 by lia.
      eexists. split; [reflexivity |].
      assert (Hpe : 0 < 2 ^ e) by (apply Z.pow_pos_nonneg; lia).
      split; [nia |].
      assert (Hs2 : 2 ^ n2 = 2 ^ e * (2 ^ (- ex) * 2 ^ k)).
      { rewrite <- !Z.pow_add_r by lia. f_equal. lia. }
      rewrite Hs2, Hmx in Hle. nia.
    + apply Z.leb_gt in Hsign.
      rewrite Z.shiftr_div_pow2 by lia.
      eexists. split; [reflexivity |].
      assert (Hpe : 0 < 2 ^ (- e)) by (apply Z.pow_pos_nonneg; lia).
      split; [apply Z.div_pos; lia |].
      apply Z.div_le_upper_bound; [exact Hpe |].
      assert (Hs2 : 2 ^ (- ex) * 2 ^ k = 2 ^ (- e) * 2 ^ n2).
      { rewrite <- !Z.pow_add_r by lia. f_equal. lia. }
      rewrite Hmx in Hle.
      assert (Zpos m * 2 ^ n2 <= w * 2 ^ (- e) * 2 ^ n2) by nia.
      nia.
Qed.

End Binary64Ops.

Section Binary64Order.

Lemma prec64_pos : 0 < PyFloat.prec.
Proof. reflexivity. Qed.

Lemma compare_cont_Z m q : Pos.compare_cont Eq m q = (Zpos m ?= Zpos q).
Proof. reflexivity. Qed.

(** A positive float whose leading bit is at position 0 or above is not
    below 1.0. *)
Lemma ge_one_not_ltb m e :
  Zdigits2 (Zpos m) <= 53 -> 1 <= Zdigits2 (Zpos m) + e ->
  PyFloat.ltb (S754_finite false m e) PyFloat.one = false.
Proof.
  intros Hd Hmag. unfold PyFloat.ltb, SFltb, PyFloat.one, SFcompare.
  destruct (Z.compare_spec e (-52)) as [He | He | He]; try reflexivity; [| lia].
  assert (Hd53 : Zdigits2 (Zpos m) = 53) by lia.
  pose proof (Zdigits2_bounds (Zpos m) ltac:(lia)) as [Hlo _]. rewrite Hd53 in Hlo.
  rewrite compare_cont_Z.
  destruct (Z.compare_spec (Zpos m) 4503599627370496) as [Hc | Hc | Hc]; try reflexivity.
  change (2 ^ (53 - 1)) with 4503599627370496 in Hlo. lia.
Qed.

(** A positive float below 1.0 has a mantissa of at most [2 ^ (- e)]. *)
Lemma ltb_one_small m e :
  Zdigits2 (Zpos m) <= 53 ->
  PyFloat.ltb (S754_finite false m e) PyFloat.one = true ->
  e <= 0 /\ Zpos m <= 2 ^ (- e).
Proof.
  intros Hd. unfold PyFloat.ltb, SFltb, PyFloat.one, SFcompare.
  pose proof (Zdigits2_bounds (Zpos m) ltac:(lia)) as [_ Hhi].
  assert (Hm53 : Zpos m < 2 ^ 53).
  { eapply Z.lt_le_trans; [exact Hhi |]. apply Z.pow_le_mono_r; lia. }
  destruct (Z.compare_spec e (-52)) as [He | He | He]; try discriminate.
  - subst e.
    rewrite compare_cont_Z.
    destruct (Z.compare_spec (Zpos m) 4503599627370496) as [Hc | Hc | Hc]; try discriminate.
    intros _. split; [lia |]. change (2 ^ (- -52)) with 4503599627370496. lia.
  - intros _. split; [lia |].
    assert (2 ^ 53 <= 2 ^ (- e)) by (apply Z.pow_le_mono_r; lia). lia.
Qed.

(** A positive float at most 1.0 has a mantissa of at most [2 ^ (- e)]. *)
Lemma leb_one_small m e :
  Zdigits2 (Zpos m) <= 53 ->
  PyFloat.leb (S754_finite false m e) PyFloat.one = true ->
  e <= 0 /\ Zpos m <= 2 ^ (- e).
Proof.
  intros Hd. unfold PyFloat.leb, SFleb, PyFloat.one, SFcompare.
  pose proof (Zdigits2_bounds (Zpos m) ltac:(lia)) as [_ Hhi].
  assert (Hm53 : Zpos m < 2 ^ 53).
  { eapply Z.lt_le_trans; [exact Hhi |]. apply Z.pow_le_mono_r; lia. }
  destruct (Z.compare_spec e (-52)) as [He | He | He]; try discriminate.
  - subst e.
    rewrite compare_cont_Z.
    destruct (Z.compare_spec (Zpos m) 4503599627370496) as [Hc | Hc | Hc]; try discriminate;
      intros _; (split; [lia |]); change (2 ^ (- -52)) with 4503599627370496; lia.
  - intros _. split; [lia |].
    assert (2 ^ 53 <= 2 ^ (- e)) by (apply Z.pow_le_mono_r; lia). lia.
Qed.

(** [a / b] for [0 < b <= a] overflows or is a float not below 1.0. *)
Lemma truediv_ge_one a b :
  0 < b <= a ->
  PyFloat.truediv a b = inl OverflowError
  \/ exists m e,
      PyFloat.truediv a b = inr (S754_finite false m e)
      /\ 1 <= Zdigits2 (Zpos m) + e.
Proof.
  intros [Hb Hab]. destruct a as [| pa | pa], b as [| pb | pb]; try lia.
  unfold PyFloat.truediv. cbn [Z.eqb PyFloat.exact_of_Z].
  unfold PyFloat.div, SFdiv, SFdiv_core_binary. cbn [xorb].
  set (e' := Z.min (fexp PyFloat.prec PyFloat.emax
                      (Zdigits2 (Zpos pa) + 0 - (Zdigits2 (Zpos pb) + 0))) (0 - 0)).
  assert (He' : e' <= 0) by (unfold e'; lia).
  set (m' := match 0 - 0 - e' with
             | 0 => Zpos pa
             | Zpos _ => Z.shiftl (Zpos pa) (0 - 0 - e')
             | Zneg _ => 0
             end).
  assert (Hm' : m' = Zpos pa * 2 ^ (- e')).
  { unfold m'. destruct (0 - 0 - e') as [| s | s] eqn:Hs; try lia.
    - replace (- e') with 0 by lia. rewrite Z.pow_0_r. lia.
    - rewrite Z.shiftl_mul_pow2 by lia. f_equal. f_equal. lia. }
  destruct (Z.div_eucl m' (Zpos pb)) as [q r] eqn:Hde.
  assert (Hq : q = m' / Zpos pb) by (unfold Z.div; rewrite Hde; reflexivity).
  assert (Hp : 0 < 2 ^ (- e')) by (apply Z.pow_pos_nonneg; lia).
  assert (Hqlo : 2 ^ (- e') <= q).
  { rewrite Hq. apply Z.div_le_lower_bound; [lia |]. rewrite Hm'. nia. }
  pose proof (Zdigits2_gt_of_ge_pow2 q (- e') ltac:(lia) Hqlo) as Hdq.
  destruct (binary_round_aux_magnitude PyFloat.prec PyFloat.emax prec64_pos
              false q e' (new_location (Zpos pb) r) ltac:(lia)
              ltac:(unfold emin, PyFloat.prec, PyFloat.emax; lia))
    as [-> | (m & e & -> & Hmag)].
  - left. reflexivity.
  - right. exists m, e. split; [reflexivity | lia].
Qed.

(** [a / b] for [0 < b <= a < 2^1023] does not overflow. *)
Lemma truediv_no_overflow a b :
  0 < b <= a -> a < 2 ^ 1023 -> PyFloat.truediv a b <> inl OverflowError.
Proof.
  intros [Hb Hab] Ha. destruct a as [| pa | pa], b as [| pb | pb]; try lia.
  unfold PyFloat.truediv. cbn [Z.eqb PyFloat.exact_of_Z].
  unfold PyFloat.div, SFdiv, SFdiv_core_binary. cbn [xorb].
  set (da := Zdigits2 (Zpos pa)). set (db := Zdigits2 (Zpos pb)).
  set (e' := Z.min (fexp PyFloat.prec PyFloat.emax (da + 0 - (db + 0))) (0 - 0)).
  assert (He' : e' <= 0) by (unfold e'; lia).
  set (m' := match 0 - 0 - e' with
             | 0 => Zpos pa
             | Zpos _ => Z.shiftl (Zpos pa) (0 - 0 - e')
             | Zneg _ => 0
             end).
  assert (Hm' : m' = Zpos pa * 2 ^ (- e')).
  { unfold m'. destruct (0 - 0 - e') as [| s | s] eqn:Hs; try lia.
    - replace (- e') with 0 by lia. rewrite Z.pow_0_r. lia.
    - rewrite Z.shiftl_mul_pow2 by lia. f_equal. f_equal. lia. }
  destruct (Z.div_eucl m' (Zpos pb)) as [q r] eqn:Hde.
  assert (Hq : q = m' / Zpos pb) by (unfold Z.div; rewrite Hde; reflexivity).
  assert (Hp : 0 < 2 ^ (- e')) by (apply Z.pow_pos_nonneg; lia).
  pose proof (Zdigits2_bounds (Zpos pa) ltac:(lia)) as [_ Hahi]. fold da in Hahi.
  pose proof (Zdigits2_bounds (Zpos pb) ltac:(lia)) as [Hblo _]. fold db in Hblo.
  pose proof (Zdigits2_pos (Zpos pb) ltac:(lia)) as Hdb. fold db in Hdb.
  pose proof (Zdigits2_mono (Zpos pb) (Zpos pa) ltac:(lia) Hab) as Hdab. fold da db in Hdab.
  pose proof (Zdigits2_le_of_lt_pow2 (Zpos pa) 1023 ltac:(lia) Ha) as Hda. fold da in Hda.
  assert (Hm0 : 0 <= m') by (rewrite Hm'; apply Z.mul_nonneg_nonneg; lia).
  assert (Hq0 : 0 <= q) by (rewrite Hq; apply Z.div_pos; assumption).
  assert (Hdq : Zdigits2 q <= da - e' - db + 1).
  { clearbody da db e' m'.
    destruct (Z.eq_dec q 0) as [Hz | Hnz]; [rewrite Hz; change (Zdigits2 0) with 0; lia |].
    apply Zdigits2_le_of_lt_pow2; [lia |].
    pose proof (Z.mul_div_le m' (Zpos pb) ltac:(lia)) as Hle. rewrite <- Hq in Hle.
    assert (Hpb : 0 < 2 ^ (db - 1)) by (apply Z.pow_pos_nonneg; lia).
    assert (Hsplit : 2 ^ (da - e' - db + 1) * 2 ^ (db - 1) = 2 ^ da * 2 ^ (- e')).
    { rewrite <- !Z.pow_add_r by lia. f_equal. lia. }
    assert (q * 2 ^ (db - 1) < 2 ^ (da - e' - db + 1) * 2 ^ (db - 1)) by nia.
    nia. }
  intros H.
  destruct (binary_round_aux PyFloat.prec PyFloat.emax false q e'
              (new_location (Zpos pb) r)) as [s | s | | s m e] eqn:Hr;
    cbn [PyFloat.is_inf] in H; try discriminate.
  revert Hr.
  apply (binary_round_aux_no_overflow PyFloat.prec PyFloat.emax prec64_pos
           false q e' (new_location (Zpos pb) r) (PyFloat.emax - PyFloat.prec) s Hq0);
    unfold emin, PyFloat.prec, PyFloat.emax; lia.
Qed.

(** [np.sqrt] of a positive float not below 1.0 is not below 1.0. *)
Lemma sqrt_ge_one m e :
  1 <= Zdigits2 (Zpos m) + e ->
  PyFloat.ltb (PyFloat.sqrt (S754_finite false m e)) PyFloat.one = false.
Proof.
  intros Hmag. unfold PyFloat.sqrt, SFsqrt, SFsqrt_core_binary.
  set (d := Zdigits2 (Zpos m)) in *.
  set (e' := Z.min (fexp PyFloat.prec PyFloat.emax (Z.div2 (d + e + 1))) (Z.div2 e)).
  assert (He' : 2 * e' <= e).
  { assert (2 * Z.div2 e <= e).
    { rewrite Z.div2_div. apply Z.mul_div_le. lia. }
    unfold e'. lia. }
  set (m' := match e - 2 * e' with
             | 0 => Zpos m
             | Zpos _ => Z.shiftl (Zpos m) (e - 2 * e')
             | Zneg _ => 0
             end).
  assert (Hm' : m' = Zpos m * 2 ^ (e - 2 * e')).
  { unfold m'. destruct (e - 2 * e') as [| s | s] eqn:Hs; try lia.
    rewrite Z.shiftl_mul_pow2 by lia. reflexivity. }
  pose proof (Z.sqrtrem_sqrt m') as Hsq.
  destruct (Z.sqrtrem m') as [q r]. cbn [fst] in Hsq. subst q.
  set (t := Z.max 0 (- e')).
  pose proof (Zdigits2_bounds (Zpos m) ltac:(lia)) as [Hlo _]. fold d in Hlo.
  assert (Hd : 0 < d) by (apply Zdigits2_pos; lia).
  assert (Hbig : 2 ^ t * 2 ^ t <= m').
  { rewrite Hm', <- Z.pow_add_r by lia.
    apply Z.le_trans with (2 ^ (d - 1) * 2 ^ (e - 2 * e')).
    - rewrite <- Z.pow_add_r by lia. apply Z.pow_le_mono_r; lia.
    - assert (0 < 2 ^ (e - 2 * e')) by (apply Z.pow_pos_nonneg; lia). nia. }
  assert (Hqt : 2 ^ t <= Z.sqrt m').
  { rewrite <- (Z.sqrt_square (2 ^ t)) by (apply Z.pow_nonneg; lia).
    apply Z.sqrt_le_mono. exact Hbig. }
  pose proof (Zdigits2_gt_of_ge_pow2 (Z.sqrt m') t ltac:(lia) Hqt) as Hdq.
  assert (Hqpos : 0 < Z.sqrt m').
  { assert (0 < 2 ^ t) by (apply Z.pow_pos_nonneg; lia). lia. }
  set (l := if r =? 0 then loc_Exact
            else loc_Inexact (if r <=? Z.sqrt m' then Lt else Gt)).
  destruct (binary_round_aux_magnitude PyFloat.prec PyFloat.emax prec64_pos
              false (Z.sqrt m') e' l Hqpos
              ltac:(unfold emin, PyFloat.prec, PyFloat.emax; lia))
    as [-> | (m2 & e2 & Hr & Hmag2)].
  - reflexivity.
  - rewrite Hr. apply ge_one_not_ltb; [| lia].
    apply (binary_round_aux_digits PyFloat.prec PyFloat.emax
             false (Z.sqrt m') e' l false m2 e2 ltac:(lia) Hr).
Qed.

(** [np.sqrt] never returns a negative number, and its mantissa fits. *)
Lemma sqrt_cases x :
  match PyFloat.sqrt x with
  | S754_finite s m e => s = false /\ Zdigits2 (Zpos m) <= 53
  | S754_infinity s => s = false
  | _ => True
  end.
Proof.
  destruct x as [s | s | | s m e]; simpl; try exact I;
    try (destruct s; simpl; auto; fail).
  destruct s; simpl; [exact I |].
  unfold SFsqrt_core_binary.
  pose proof (Z.sqrtrem_sqrt
    match e - 2 * Z.min (fexp PyFloat.prec PyFloat.emax (Z.div2 (Zdigits2 (Zpos m) + e + 1))) (Z.div2 e) with
    | 0 => Zpos m
    | Zpos _ => Z.shiftl (Zpos m) (e - 2 * Z.min (fexp PyFloat.prec PyFloat.emax (Z.div2 (Zdigits2 (Zpos m) + e + 1))) (Z.div2 e))
    | Zneg _ => 0
    end) as Hsq.
  destruct (Z.sqrtrem _) as [q r]. cbn [fst] in Hsq.
  assert (Hq : 0 <= q) by (rewrite Hsq; apply Z.sqrt_nonneg).
  destruct (binary_round_aux _ _ _ _ _ _) as [s' | s' | | s' m' e'] eqn:Hr; try exact I.
  - exact (binary_round_aux_sign _ _ _ _ _ _ _ Hq Hr).
  - destruct (binary_round_aux_digits PyFloat.prec PyFloat.emax
                _ _ _ _ _ _ _ Hq Hr) as [-> Hd].
    split; [reflexivity | exact Hd].
Qed.

End Binary64Order.

(** ** The size computations of [scale_image] *)

Section ScaledSize.

Lemma of_int_small w : 0 < w < 2 ^ 53 -> PyFloat.of_int w = inr (PyFloat.of_Z w).
Proof.
  intros Hw. unfold PyFloat.of_int.
  destruct (of_Z_small w Hw) as (mx & ex & -> & _). reflexivity.
Qed.

(** [int(w * scale)] for a [scale] below 1.0 that [np.sqrt] returned. *)
Lemma scaled_dimension w q :
  0 < w < 2 ^ 53 ->
  PyFloat.ltb (PyFloat.sqrt q) PyFloat.one = true ->
  exists w',
    (p <-? PyFloat.int_mul w (PyFloat.sqrt q) ;; PyFloat.to_int p)%result = inr w'
    /\ 0 <= w' <= w.
Proof.
  intros Hw Hlt. unfold PyFloat.int_mul. rewrite (of_int_small w Hw). cbn [rbind].
  pose proof (sqrt_cases q) as Hc.
  destruct (PyFloat.sqrt q) as [s | s | | s m e].
  - destruct (of_Z_small w Hw) as (mx & ex & -> & _).
    exists 0. split; [reflexivity | lia].
  - subst s. discriminate Hlt.
  - discriminate Hlt.
  - destruct Hc as [-> Hd].
    destruct (ltb_one_small m e Hd Hlt) as [He Hm].
    exact (mul_of_Z_to_int w m e Hw He Hm).
Qed.

(** A resized image is no wider and no higher than the original. *)
Lemma scaled_size_le max_pixels w h w' h' :
  0 < w < 2 ^ 53 -> 0 < h < 2 ^ 53 ->
  scaled_size max_pixels (w, h) = inr (Some (w', h')) ->
  0 <= w' <= w /\ 0 <= h' <= h.
Proof.
  intros Hw Hh. unfold scaled_size.
  destruct (PyFloat.truediv max_pixels (w * h)) as [e | q]; cbn [rbind]; [discriminate |].
  destruct (PyFloat.ltb (PyFloat.sqrt q) PyFloat.one) eqn:Hlt; [| discriminate].
  destruct (scaled_dimension w q Hw Hlt) as (w1 & -> & Hw1).
  destruct (scaled_dimension h q Hh Hlt) as (h1 & -> & Hh1).
  cbn [rbind]. intros H. injection H as <- <-. auto.
Qed.

(** An image within the budget is kept, unless the quotient
    [max_pixels / (w * h)] exceeds the floats, which takes a budget of
    at least 2^1023. *)
Lemma scaled_size_within_budget max_pixels w h :
  0 < w * h <= max_pixels ->
  scaled_size max_pixels (w, h) = inr None
  \/ (2 ^ 1023 <= max_pixels
      /\ scaled_size max_pixels (w, h) = inl OverflowError).
Proof.
  intros Hb. unfold scaled_size.
  destruct (truediv_ge_one max_pixels (w * h) Hb) as [Ho | (m & e & -> & Hmag)].
  - right. destruct (Z.lt_ge_cases max_pixels (2 ^ 1023)) as [Hlt | Hge].
    + destruct (truediv_no_overflow max_pixels (w * h) Hb Hlt Ho).
    + split; [exact Hge |]. rewrite Ho. reflexivity.
  - left. cbn [rbind]. rewrite (sqrt_ge_one m e Hmag). reflexivity.
Qed.

(** An image with a zero dimension makes the quotient of line 23 fail. *)
Lemma scaled_size_empty max_pixels w h :
  w * h = 0 -> scaled_size max_pixels (w, h) = inl ZeroDivisionError.
Proof.
  intros H. unfold scaled_size, PyFloat.truediv. rewrite H. reflexivity.
Qed.

Context {pil : PIL}.

Lemma scale_image_scaled_size image max_pixels :
  scale_image image max_pixels =
  match scaled_size max_pixels (im_size image) with
  | inl e => inl e
  | inr None => inr image
  | inr (Some size) => resize image size
  end.
Proof.
  unfold scale_image, scaled_size. destruct (im_size image) as [w h].
  destruct (PyFloat.truediv max_pixels (w * h)) as [e | q]; cbn [rbind]; [reflexivity |].
  destruct (PyFloat.ltb (PyFloat.sqrt q) PyFloat.one); [| reflexivity].
  destruct (p <-? PyFloat.int_mul w (PyFloat.sqrt q) ;; PyFloat.to_int p)%result
    as [e | w']; cbn [rbind]; [reflexivity |].
  destruct (p <-? PyFloat.int_mul h (PyFloat.sqrt q) ;; PyFloat.to_int p)%result
    as [e | h']; cbn [rbind]; reflexivity.
Qed.

(** C7 (amended). For an image of positive width and height (below
    2^53; Pillow's are below 2^31): an image that [scale_image] returns
    has at most as many pixels as the one it was given; and an image
    whose area is at most [max_pixels] is returned unchanged, unless
    [max_pixels] is at least 2^1023 and the quotient
    [max_pixels / (w * h)] is beyond the floats, which raises
    OverflowError. *)
Theorem C7_scale_image (spec : PILSpec pil) image max_pixels :
  0 < fst (im_size image) < 2 ^ 53 ->
  0 < snd (im_size image) < 2 ^ 53 ->
  (forall image', scale_image image max_pixels = inr image' ->
                  pixel_count image' <= pixel_count image)
  /\ (pixel_count image <= max_pixels ->
      scale_image image max_pixels = inr image
      \/ (2 ^ 1023 <= max_pixels
          /\ scale_image image max_pixels = inl OverflowError)).
Proof.
  intros Hw Hh. rewrite scale_image_scaled_size.
  unfold pixel_count. destruct (im_size image) as [w h] eqn:Hsize. cbn [fst snd] in *.
  split.
  - intros image'.
    destruct (scaled_size max_pixels (w, h)) as [e | [[w' h'] |]] eqn:Hs.
    + discriminate.
    + intros Hr. rewrite (resize_size _ _ _ Hr). cbn [fst snd].
      destruct (scaled_size_le max_pixels w h w' h' Hw Hh Hs). nia.
    + intros H. injection H as <-. rewrite Hsize. cbn [fst snd]. lia.
  - intros Hb.
    destruct (scaled_size_within_budget max_pixels w h ltac:(nia)) as [-> | [Hge ->]]; auto.
Qed.

End ScaledSize.

(** ** [preprocess] *)

Section PreprocessTheory.
Context {pil : PIL}.

(** Every 8-bit sample is rescaled into [-1, 1]. *)
Lemma rescale_in_unit_range (b : byte) :
  in_unit_range
    (F32.sub (F32.mul F32.two (F32.div (F32.of_byte b) F32.lit_255)) F32.one) = true.
Proof. destruct b; vm_compute; reflexivity. Qed.

Lemma transpose_0312_spec {A : Type} (a : ndarray A) n h w c :
  shape a = [n; h; w; c] ->
  exists t,
    transpose_0312 a = inr t
    /\ shape t = [n; c; h; w]
    /\ forall P : A -> Prop, Forall P (data a) -> Forall P (data t).
Proof.
  intros Hs. unfold transpose_0312. rewrite Hs.
  eexists. split; [reflexivity |]. split; [reflexivity |].
  intros P HP. cbn [data]. apply Forall_flat_map. apply Forall_forall.
  intros i _. destruct (nth_error (data a) (Z.to_nat i)) as [x |] eqn:Hn.
  - constructor; [| constructor].
    rewrite Forall_forall in HP. apply HP. eapply nth_error_In. exact Hn.
  - constructor.
Qed.

Lemma round_down_64_divides x : (64 | x - x mod 64).
Proof.
  exists (x / 64). pose proof (Z.div_mod x 64 ltac:(lia)). lia.
Qed.

(** What [preprocess] does once the sizes are known: [image1] is the
    image after [scale_image], [image2] the one after the last resize. *)
Lemma preprocess_resized image max_pixels image1 image2 w h :
  scale_image (convert ModeRGB image) max_pixels = inr image1 ->
  resize image1 (round_down_64 (im_size image1)) = inr image2 ->
  im_size image2 = (w, h) ->
  im_mode image2 = ModeRGB ->
  exists t,
    preprocess image max_pixels = inr t
    /\ shape t = [1; 3; h; w]
    /\ Forall (fun x => in_unit_range x = true) (data t).
Proof.
  intros Hscale Hresize Hsize Hmode. unfold preprocess.
  rewrite Hscale. cbn [rbind].
  unfold round_down_64 in Hresize. destruct (im_size image1) as [w1 h1].
  rewrite Hresize. cbn [rbind].
  set (a := array_map (fun x => F32.div x F32.lit_255)
                      (array_map F32.of_byte (np_array image2))).
  assert (Hshape : shape (expand_dims0 a) = [1; h; w; 3]).
  { unfold a, expand_dims0, array_map, np_array. rewrite Hsize, Hmode. reflexivity. }
  destruct (transpose_0312_spec (expand_dims0 a) 1 h w 3 Hshape) as (t & -> & Hst & Hdata).
  cbn [rbind]. eexists. split; [reflexivity |]. split; [exact Hst |].
  cbn [array_map data]. apply Forall_map.
  apply (Hdata (fun x => in_unit_range (F32.sub (F32.mul F32.two x) F32.one) = true)).
  unfold a, expand_dims0, array_map. cbn [data].
  apply Forall_map. apply Forall_map. apply Forall_forall.
  intros b _. apply rescale_in_unit_range.
Qed.

(** C10 (amended). When the size computation goes through (the image has
    a positive area and the quotient of line 23 fits a float) and the
    resulting size has a dimension below 1, [preprocess] fails with a
    ValueError: the one Pillow's [resize] raises for an empty size, which
    [preprocess] passes on, having no check of its own. *)
Theorem C10_preprocess_empty_size (spec : PILSpec pil) (rejects : PILRejectsEmpty pil)
        image max_pixels w h :
  target_size max_pixels (im_size image) = inr (w, h) ->
  w < 1 \/ h < 1 ->
  exists text, preprocess image max_pixels = inl (ValueError (MsgLibrary text)).
Proof.
  intros Ht Hempty. unfold target_size in Ht. unfold preprocess.
  rewrite scale_image_scaled_size, convert_size.
  destruct (scaled_size max_pixels (im_size image)) as [e | scaled]; cbn [rbind] in Ht;
    [discriminate |].
  injection Ht as Ht.
  assert (Hlast : forall image1,
             round_down_64 (im_size image1) = (w, h) ->
             exists text,
               (let '(w1, h1) := im_size image1 in
                image2 <-? resize image1 (w1 - w1 mod 64, h1 - h1 mod 64) ;;
                let a := array_map (fun x => F32.div x F32.lit_255)
                                   (array_map F32.of_byte (np_array image2)) in
                a <-? transpose_0312 (expand_dims0 a) ;;
                inr (array_map (fun x => F32.sub (F32.mul F32.two x) F32.one) a))%result
               = inl (ValueError (MsgLibrary text))).
  { intros image1 Hround. unfold round_down_64 in Hround.
    destruct (im_size image1) as [w1 h1]. injection Hround as -> ->.
    destruct (resize_empty image1 _ _ Hempty) as [text ->].
    exists text. reflexivity. }
  destruct scaled as [[ws hs] |].
  - destruct (Z.lt_ge_cases ws 1) as [Hws | Hws];
      [| destruct (Z.lt_ge_cases hs 1) as [Hhs | Hhs]].
    + destruct (resize_empty (convert ModeRGB image) ws hs (or_introl Hws)) as [text ->].
      exists text. reflexivity.
    + destruct (resize_empty (convert ModeRGB image) ws hs (or_intror Hhs)) as [text ->].
      exists text. reflexivity.
    + destruct (resize_positive (convert ModeRGB image) ws hs ltac:(lia) ltac:(lia))
        as [image1 Hr].
      rewrite Hr. cbn [rbind]. apply Hlast.
      rewrite (resize_size _ _ _ Hr). exact Ht.
  - cbn [rbind]. apply Hlast. rewrite convert_size. exact Ht.
Qed.

End PreprocessTheory.

(** ** The starting timestep *)

Section InitTimestep.
Context {torch : Torch} {pil : PIL}.

Lemma valid_digits s m e :
  valid_binary PyFloat.prec PyFloat.emax (S754_finite s m e) = true ->
  Zdigits2 (Zpos m) <= 53.
Proof.
  cbn [valid_binary]. unfold bounded, canonical_mantissa. intros H.
  apply andb_prop in H. destruct H as [H _]. apply Z.eqb_eq in H.
  change (Zdigits2 (Zpos m)) with (Zpos (digits2_pos m)).
  unfold fexp, PyFloat.prec in H. lia.
Qed.

(** [int(n * strength)] for a strength in [0, 1]. *)
Lemma strength_product n strength :
  valid_binary PyFloat.prec PyFloat.emax strength = true ->
  PyFloat.leb PyFloat.zero strength = true ->
  PyFloat.leb strength PyFloat.one = true ->
  0 <= n < 2 ^ 53 ->
  exists product truncated,
    PyFloat.int_mul n strength = inr product
    /\ PyFloat.to_int product = inr truncated
    /\ truncated = PyFloat.trunc product
    /\ 0 <= truncated <= n.
Proof.
  intros Hvalid Hlo Hhi Hn. unfold PyFloat.int_mul.
  destruct (Z.eq_dec n 0) as [-> | Hnz].
  - change (PyFloat.of_int 0) with (@inr Exn _ (S754_zero false)). cbn [rbind].
    destruct strength as [s | s | | s m e];
      [ | destruct s; discriminate | discriminate | destruct s; [discriminate |] ].
    + eexists _, 0. repeat split; try reflexivity; lia.
    + eexists _, 0. repeat split; try reflexivity; lia.
  - assert (Hn' : 0 < n < 2 ^ 53) by lia.
    rewrite (of_int_small n Hn'). cbn [rbind].
    destruct strength as [s | s | | s m e];
      [ | destruct s; discriminate | discriminate | destruct s; [discriminate |] ].
    + destruct (of_Z_small n Hn') as (mx & ex & -> & _).
      eexists _, 0. repeat split; try reflexivity; lia.
    + destruct (leb_one_small m e (valid_digits _ _ _ Hvalid) Hhi) as [He Hm].
      destruct (mul_of_Z_to_int n m e Hn' He Hm) as (k & Hk & Hrange).
      eexists _, k. split; [reflexivity |]. split; [exact Hk |]. split; [| exact Hrange].
      destruct (PyFloat.mul (PyFloat.of_Z n) (S754_finite false m e));
        cbn [PyFloat.to_int] in Hk; try discriminate; congruence.
Qed.

(** Lines 173-174 for a strength in [0, 1]: [int] truncates the float
    product, which lies between 0 and the step count. *)
Lemma init_timestep_value n strength offset :
  valid_binary PyFloat.prec PyFloat.emax strength = true ->
  PyFloat.leb PyFloat.zero strength = true ->
  PyFloat.leb strength PyFloat.one = true ->
  0 <= n < 2 ^ 53 ->
  exists product,
    PyFloat.int_mul n strength = inr product
    /\ 0 <= PyFloat.trunc product <= n
    /\ get_init_timestep n strength offset
       = inr (Z.min (PyFloat.trunc product + offset) n).
Proof.
  intros Hvalid Hlo Hhi Hn.
  destruct (strength_product n strength Hvalid Hlo Hhi Hn)
    as (product & truncated & Hp & Ht & Htrunc & Hrange).
  exists product. subst truncated.
  split; [exact Hp |]. split; [exact Hrange |].
  unfold get_init_timestep. rewrite Hp. cbn [rbind]. rewrite Ht. reflexivity.
Qed.

End InitTimestep.

(** ** Executions that return *)

Section Returns.
Context {torch : Torch} {pil : PIL}.

(** A call that returns has passed the checks and gone through every
    stage. *)
Lemma pipeline_returns self a tr out :
  paths (pipeline self a) tr (inr out) ->
  exists b device emb offset latents k latents' t_dev t_enc t_set t_prep t_loop t_dec,
    validate a = inr b
    /\ paths (legacy_device self a) t_dev (inr device)
    /\ paths (encode_prompt self a device b) t_enc (inr emb)
    /\ paths (set_timesteps self a) t_set (inr offset)
    /\ paths (prepare_latents self a device b offset) t_prep (inr (latents, k))
    /\ paths (sample_latents self a emb latents k offset) t_loop (inr latents')
    /\ paths (decode_and_check a device latents') t_dec (inr out)
    /\ tr = t_dev ++ t_enc ++ t_set ++ t_prep ++ t_loop ++ t_dec.
Proof.
  intros Hp. destruct (validate a) as [err | b] eqn:Hv.
  - destruct (pipeline_validation_error self a err Hv tr _ Hp) as (_ & e & He & _).
    discriminate.
  - rewrite (pipeline_validated self a b Hv) in Hp.
    apply paths_bind in Hp.
    destruct Hp as [(e & _ & He) | (device & t_dev & r1 & Hdev & Hp & ->)]; [discriminate |].
    apply paths_bind in Hp.
    destruct Hp as [(e & _ & He) | (emb & t_enc & r2 & Henc & Hp & ->)]; [discriminate |].
    apply paths_bind in Hp.
    destruct Hp as [(e & _ & He) | (offset & t_set & r3 & Hset & Hp & ->)]; [discriminate |].
    apply paths_bind in Hp.
    destruct Hp as [(e & _ & He) | ([latents k] & t_prep & r4 & Hprep & Hp & ->)];
      [discriminate |].
    apply paths_bind in Hp.
    destruct Hp as [(e & _ & He) | (latents' & t_loop & t_dec & Hloop & Hdec & ->)];
      [discriminate |].
    exists b, device, emb, offset, latents, k, latents', t_dev, t_enc, t_set, t_prep,
      t_loop, t_dec.
    repeat split; assumption.
Qed.

Lemma set_timesteps_returns self a t offset :
  paths (set_timesteps self a) t (inr offset) ->
  offset = scheduler_offset self
  /\ exists kw, t = [Ev (SetTimesteps (num_inference_steps a) kw) (inr tt)].
Proof.
  unfold set_timesteps, scheduler_offset.
  destruct (set_timesteps_accepts_offset self); simpl;
    intros [(e & _ & He) | ([] & tr' & -> & -> & H)]; try discriminate;
    injection H as <-; eauto.
Qed.

(** One completed iteration: an optional read of the sigmas, the UNet
    call, the scheduler step. *)
Lemma denoise_step_returns self a emb t t_index latents tr latents' :
  paths (denoise_step self a emb t t_index latents) tr (inr latents') ->
  exists pre sigma out noise_pred,
    tr = pre ++ [Ev (Unet (model_input self a latents sigma)
                          (if scheduler_is_lms self then t_to_dtype (unet_dtype self) t else t)
                          emb) (inr out);
                 Ev (SchedulerStep noise_pred
                                   (if scheduler_is_lms self then inr t_index else inl t)
                                   latents (extra_step_kwargs self a)) (inr latents')]
    /\ perform_guidance a out = inr noise_pred
    /\ (if scheduler_is_lms self
        then exists sigmas s, pre = [Ev SchedulerSigmas (inr sigmas)]
                              /\ py_index sigmas t_index = inr s /\ sigma = Some s
        else pre = [] /\ sigma = None).
Proof.
  unfold denoise_step, model_input.
  destruct (scheduler_is_lms self); simpl.
  - intros [(e & _ & He) | (sigmas & tr1 & -> & H)]; [discriminate |].
    destruct (py_index sigmas t_index) as [e | s] eqn:Hs; simpl in H;
      [destruct H as [_ H]; discriminate |].
    destruct H as [(e & _ & He) | (out & tr2 & -> & H)]; [discriminate |].
    destruct (perform_guidance a out) as [e | noise_pred] eqn:Hg; simpl in H;
      [destruct H as [_ H]; discriminate |].
    destruct H as [(e & _ & He) | (l & tr3 & -> & -> & H)]; [discriminate |].
    injection H as <-.
    exists [Ev SchedulerSigmas (inr sigmas)], (Some s), out, noise_pred.
    split; [reflexivity |]. split; [exact Hg |]. exists sigmas, s. auto.
  - intros [(e & _ & He) | (out & tr2 & -> & H)]; [discriminate |].
    destruct (perform_guidance a out) as [e | noise_pred] eqn:Hg; simpl in H;
      [destruct H as [_ H]; discriminate |].
    destruct H as [(e & _ & He) | (l & tr3 & -> & -> & H)]; [discriminate |].
    injection H as <-.
    exists [], None, out, noise_pred. auto.
Qed.

Lemma sample_latents_returns self a emb latents k offset t latents' :
  paths (sample_latents self a emb latents k offset) t (inr latents') ->
  exists k' schedule t',
    k = Some k'
    /\ t = Ev SchedulerTimesteps (inr schedule) :: t'
    /\ paths (denoise_loop self a emb
                (py_slice_from schedule (t_start_of (num_inference_steps a) k' offset))
                (t_start_of (num_inference_steps a) k' offset) latents) t' (inr latents').
Proof.
  unfold sample_latents. destruct k as [k' |]; simpl.
  - intros [(e & _ & He) | (schedule & t' & -> & H)]; [discriminate |].
    exists k', schedule, t'. auto.
  - intros [_ H]. discriminate.
Qed.

Lemma decode_and_check_returns a device latents t out :
  paths (decode_and_check a device latents) t (inr out) ->
  exists image pixel_values checked flags,
    t = [Ev (VaeDecode (s_mul (NFloat (PyFloat.div PyFloat.one PyFloat.lit_0_18215)) latents))
            (inr image);
         Ev (FeatureExtractor
               (numpy_to_pil
                  (to_numpy_nhwc
                     (t_clamp (NInt 0) (NInt 1)
                        (t_add_s (t_div_s image (NInt 2)) (NFloat PyFloat.lit_0_5))))))
            (inr pixel_values);
         Ev (SafetyChecker
               (to_numpy_nhwc
                  (t_clamp (NInt 0) (NInt 1)
                     (t_add_s (t_div_s image (NInt 2)) (NFloat PyFloat.lit_0_5))))
               (t_to device pixel_values))
            (inr (checked, flags))]
    /\ out = {| sample := if String.eqb (output_type a) "pil"
                          then inl (numpy_to_pil checked) else inr checked;
                nsfw_content_detected := flags |}.
Proof.
  unfold decode_and_check. simpl.
  intros [(e & _ & He) | (image & t1 & -> & H)]; [discriminate |].
  destruct H as [(e & _ & He) | (pixel_values & t2 & -> & H)]; [discriminate |].
  destruct H as [(e & _ & He) | ([checked flags] & t3 & -> & -> & H)]; [discriminate |].
  injection H as H. subst out.
  exists image, pixel_values, checked, flags. auto.
Qed.

End Returns.

(** ** Counting calls and reading an execution *)

Section TraceFacts.
Context {torch : Torch} {pil : PIL}.

Lemma count_calls_app f t1 t2 :
  count_calls f (t1 ++ t2) = (count_calls f t1 + count_calls f t2)%nat.
Proof. unfold count_calls. rewrite filter_app, length_app. reflexivity. Qed.

Lemma count_calls_snoc f tr c r :
  count_calls f (tr ++ [Ev c r]) = (count_calls f tr + if f c then 1 else 0)%nat.
Proof.
  rewrite count_calls_app. f_equal. unfold count_calls. simpl. destruct (f c); reflexivity.
Qed.

Lemma count_calls_none f tr :
  Forall (fun ev => f (ev_call ev) = false) tr -> count_calls f tr = 0%nat.
Proof.
  unfold count_calls. induction 1 as [| ev tr Hev _ IH]; simpl; [reflexivity |].
  rewrite Hev. exact IH.
Qed.

Lemma final_latents_from_app acc t1 t2 :
  final_latents_from acc (t1 ++ t2) = final_latents_from (final_latents_from acc t1) t2.
Proof.
  revert acc. induction t1 as [| [c r] t1 IH]; intros acc; simpl; [reflexivity |].
  apply IH.
Qed.

Lemma final_latents_from_none acc tr :
  Forall (fun ev => step_callb (ev_call ev) = false) tr -> final_latents_from acc tr = acc.
Proof.
  intros H. revert acc. induction H as [| [c r] tr Hev _ IH]; intros acc; simpl;
    [reflexivity |].
  rewrite IH. destruct c; simpl in Hev; try reflexivity. discriminate.
Qed.

Lemma last_schedule_from_app acc t1 t2 :
  last_schedule_from acc (t1 ++ t2) = last_schedule_from (last_schedule_from acc t1) t2.
Proof.
  revert acc. induction t1 as [| [c r] t1 IH]; intros acc; simpl; [reflexivity |].
  apply IH.
Qed.

Lemma last_schedule_from_none acc tr :
  Forall (fun ev => timesteps_callb (ev_call ev) = false) tr ->
  last_schedule_from acc tr = acc.
Proof.
  intros H. revert acc. induction H as [| [c r] tr Hev _ IH]; intros acc; simpl;
    [reflexivity |].
  rewrite IH. destruct c; simpl in Hev; try reflexivity. discriminate.
Qed.

Lemma latents_after_none init hist tr :
  Forall (fun ev => step_callb (ev_call ev) = false) tr ->
  latents_after init (hist ++ tr) = latents_after init hist.
Proof.
  intros H. unfold latents_after, final_latents.
  rewrite final_latents_from_app, (final_latents_from_none _ _ H). reflexivity.
Qed.

Lemma latents_after_step init hist np t latents kw latents' :
  latents_after init (hist ++ [Ev (SchedulerStep np t latents kw) (inr latents')]) = latents'.
Proof.
  unfold latents_after, final_latents. rewrite final_latents_from_app. reflexivity.
Qed.

Lemma last_schedule_none hist tr :
  Forall (fun ev => timesteps_callb (ev_call ev) = false) tr ->
  last_schedule (hist ++ tr) = last_schedule hist.
Proof.
  intros H. unfold last_schedule.
  rewrite last_schedule_from_app, (last_schedule_from_none _ _ H). reflexivity.
Qed.

Lemma last_schedule_read hist schedule :
  last_schedule (hist ++ [Ev SchedulerTimesteps (inr schedule)]) = Some schedule.
Proof. unfold last_schedule. rewrite last_schedule_from_app. reflexivity. Qed.

(** An event that the calls [hist] cannot be lies after them. *)
Lemma split_after_prefix (P : Event -> Prop) hist t pre ev post :
  Forall P hist -> ~ P ev ->
  hist ++ t = pre ++ ev :: post ->
  exists pre', pre = hist ++ pre' /\ t = pre' ++ ev :: post.
Proof.
  intros Hh Hev. revert pre. induction Hh as [| e0 hist He0 _ IH]; intros pre Heq.
  - exists pre. auto.
  - destruct pre as [| e1 pre]; simpl in Heq.
    + injection Heq as -> _. contradiction.
    + injection Heq as <- Heq. destruct (IH pre Heq) as (pre' & -> & ->).
      exists pre'. auto.
Qed.

Lemma auxiliary_not_sampling tr :
  Forall (fun ev => auxiliary_call (ev_call ev)) tr ->
  Forall (fun ev => unet_callb (ev_call ev) = false) tr
  /\ Forall (fun ev => step_callb (ev_call ev) = false) tr.
Proof.
  intros H. split; (eapply Forall_impl; [| exact H]);
    intros [c r] (_ & _ & Hu & Hs); destruct c; simpl in *; tauto.
Qed.

Lemma device_binding_not_sampling tr :
  Forall is_device_binding tr ->
  Forall (fun ev => auxiliary_call (ev_call ev)) tr.
Proof.
  intros H. eapply Forall_impl; [| exact H].
  intros [c r]; unfold is_device_binding, auxiliary_call; destruct c; simpl; tauto.
Qed.

End TraceFacts.

(** ** The sampling loop *)

Section Sampling.
Context {torch : Torch} {pil : PIL}.

Ltac crunch_calls :=
  repeat match goal with
         | |- context [lift ?r] => destruct r; simpl
         | |- satisfies _ _ _ (if ?b then _ else _) => destruct b; simpl
         | |- satisfies _ _ _ (match ?x with _ => _ end) => destruct x; simpl
         | |- satisfies _ _ _ (bind (match ?x with _ => _ end) _) => destruct x; simpl
         | |- _ /\ _ => split
         | |- forall _, _ => intro
         | |- True => exact I
         | _ => progress simpl
         end.

Lemma legacy_device_prelude self a :
  satisfies prelude_call (fun _ => True) (fun _ => True) (legacy_device self a).
Proof. unfold legacy_device. crunch_calls. Qed.

Lemma encode_prompt_prelude self a device b :
  satisfies prelude_call (fun _ => True) (fun _ => True) (encode_prompt self a device b).
Proof. unfold encode_prompt. crunch_calls. Qed.

Lemma set_timesteps_prelude self a :
  satisfies prelude_call (fun _ => True) (fun _ => True) (set_timesteps self a).
Proof. unfold set_timesteps. crunch_calls. Qed.

Lemma prepare_latents_prelude self a device b offset :
  satisfies prelude_call (fun _ => True) (fun _ => True)
            (prepare_latents self a device b offset).
Proof. unfold prepare_latents, noise_timesteps. crunch_calls. Qed.

Lemma prelude_not_sampling tr :
  Forall (fun ev => prelude_call (ev_call ev)) tr ->
  Forall (fun ev => unet_callb (ev_call ev) = false) tr
  /\ Forall (fun ev => step_callb (ev_call ev) = false) tr.
Proof.
  intros H. split; (eapply Forall_impl; [| exact H]);
    intros [c r]; destruct c; simpl; tauto.
Qed.

(** The calls of one completed iteration. *)
Lemma denoise_step_effect self a emb t t_index latents tr latents' :
  paths (denoise_step self a emb t t_index latents) tr (inr latents') ->
  count_calls unet_callb tr = 1%nat
  /\ count_calls step_callb tr = 1%nat
  /\ Forall (fun ev => timesteps_callb (ev_call ev) = false) tr
  /\ forall init hist, latents_after init (hist ++ tr) = latents'.
Proof.
  intros Hp.
  destruct (denoise_step_returns _ _ _ _ _ _ _ _ Hp) as (pre & sigma & out & np & -> & _ & Hpre).
  destruct (scheduler_is_lms self).
  - destruct Hpre as (sigmas & s & -> & _ & _).
    repeat split; try reflexivity; [repeat constructor |].
    intros init hist. unfold latents_after, final_latents.
    rewrite final_latents_from_app. reflexivity.
  - destruct Hpre as (-> & _).
    repeat split; try reflexivity; [repeat constructor |].
    intros init hist. unfold latents_after, final_latents.
    rewrite final_latents_from_app. reflexivity.
Qed.

(** A completed loop makes one UNet call and one scheduler step per
    timestep, and returns the answer of the last step. *)
Lemma denoise_loop_effect self a emb :
  forall timesteps t_index latents tr latents',
    paths (denoise_loop self a emb timesteps t_index latents) tr (inr latents') ->
    count_calls unet_callb tr = length timesteps
    /\ count_calls step_callb tr = length timesteps
    /\ Forall (fun ev => timesteps_callb (ev_call ev) = false) tr
    /\ forall init hist,
        latents_after init hist = latents -> latents_after init (hist ++ tr) = latents'.
Proof.
  induction timesteps as [| t rest IH]; intros t_index latents tr latents' Hp; simpl in Hp.
  - destruct Hp as [-> Hl]. injection Hl as <-.
    repeat split; try reflexivity; [constructor |].
    intros init hist. rewrite app_nil_r. auto.
  - apply paths_bind in Hp.
    destruct Hp as [(e & _ & He) | (l1 & t1 & t2 & H1 & H2 & ->)]; [discriminate |].
    destruct (denoise_step_effect _ _ _ _ _ _ _ _ H1) as (Hu1 & Hs1 & Ht1 & Hl1).
    destruct (IH _ _ _ _ H2) as (Hu2 & Hs2 & Ht2 & Hl2).
    rewrite !count_calls_app, Hu1, Hs1, Hu2, Hs2.
    repeat split; try reflexivity; [apply Forall_app; auto |].
    intros init hist _. rewrite app_assoc. apply Hl2. apply Hl1.
Qed.

(** The invariant of the loop holds through one iteration. *)
Lemma denoise_step_sampling self a emb init t_start t t_index latents hist :
  latents_after init hist = latents ->
  iteration_timestep t_start hist t ->
  t_index = t_start + Z.of_nat (count_calls step_callb hist) ->
  invariant (sampling_invariant self a init t_start) hist
            (denoise_step self a emb t t_index latents).
Proof.
  intros Hl (schedule & Hsched & Hnth) Hidx. unfold denoise_step.
  destruct (scheduler_is_lms self) eqn:Hlms; simpl.
  - split; [exact I |]. intros sigmas.
    destruct (py_index sigmas t_index) as [e | s] eqn:Hs; simpl; [exact I |].
    set (hist1 := hist ++ [Ev SchedulerSigmas (inr sigmas)]).
    assert (Hl1 : latents_after init hist1 = latents).
    { unfold hist1. rewrite latents_after_none; [exact Hl | repeat constructor]. }
    assert (Hc1 : count_calls step_callb hist1 = count_calls step_callb hist).
    { unfold hist1. rewrite count_calls_snoc. simpl. lia. }
    assert (Hit1 : iteration_timestep t_start hist1 t).
    { exists schedule. rewrite Hc1. split; [| exact Hnth].
      unfold hist1. rewrite last_schedule_none; [exact Hsched | repeat constructor]. }
    split.
    { exists (Some s), t. rewrite Hlms, Hl1, Hc1.
      split; [reflexivity |]. split; [exact Hit1 |]. split; [reflexivity |].
      exists hist, sigmas, s. rewrite <- Hidx. auto. }
    intros out.
    destruct (perform_guidance a out) as [e | noise_pred]; simpl; [exact I |].
    split; [| intros; exact I].
    rewrite Hlms.
    rewrite latents_after_none by (repeat constructor).
    rewrite count_calls_snoc. simpl. rewrite Nat.add_0_r, Hl1, Hc1.
    split; [reflexivity |]. split; [reflexivity |].
    exists t. split; [| rewrite Hidx; reflexivity].
    destruct Hit1 as (schedule1 & Hs1 & Hn1). exists schedule1.
    rewrite count_calls_snoc. simpl. rewrite Nat.add_0_r.
    split; [| exact Hn1].
    rewrite last_schedule_none; [exact Hs1 | repeat constructor].
  - split.
    { exists None, t. rewrite Hlms, Hl.
      split; [reflexivity |]. split; [exists schedule; auto |]. auto. }
    intros out.
    destruct (perform_guidance a out) as [e | noise_pred]; simpl; [exact I |].
    split; [| intros; exact I].
    rewrite Hlms.
    rewrite latents_after_none by (repeat constructor).
    split; [symmetry; exact Hl |]. split; [reflexivity |].
    exists t. split; [| reflexivity].
    exists schedule. rewrite count_calls_snoc. simpl. rewrite Nat.add_0_r.
    split; [| exact Hnth].
    rewrite last_schedule_none; [exact Hsched | repeat constructor].
Qed.

Lemma denoise_loop_sampling self a emb init t_start schedule :
  forall timesteps t_index latents hist,
    last_schedule hist = Some schedule ->
    latents_after init hist = latents ->
    t_index = t_start + Z.of_nat (count_calls step_callb hist) ->
    (forall j, nth_error timesteps j
               = nth_error schedule (Z.to_nat t_start + count_calls step_callb hist + j)) ->
    invariant (sampling_invariant self a init t_start) hist
              (denoise_loop self a emb timesteps t_index latents).
Proof.
  induction timesteps as [| t rest IH]; intros t_index latents hist Hsched Hl Hidx Hnth;
    simpl; [exact I |].
  apply invariant_bind.
  - apply denoise_step_sampling; [exact Hl | | exact Hidx].
    exists schedule. split; [exact Hsched |].
    specialize (Hnth 0%nat). simpl in Hnth. rewrite Nat.add_0_r in Hnth. auto.
  - intros l1 t1 H1.
    destruct (denoise_step_effect _ _ _ _ _ _ _ _ H1) as (_ & Hs1 & Ht1 & Hl1).
    apply IH.
    + rewrite last_schedule_none; assumption.
    + apply Hl1.
    + rewrite count_calls_app, Hs1. lia.
    + intros j. specialize (Hnth (S j)). simpl in Hnth. rewrite Hnth.
      rewrite count_calls_app, Hs1. f_equal. lia.
Qed.

(** The invariant holds from the read of the schedule to the end of the
    call, when no scheduler step was made before. *)
Lemma sample_and_decode_sampling self a emb device init k offset hist :
  Forall (fun ev => step_callb (ev_call ev) = false) hist ->
  invariant (sampling_invariant self a init (t_start_of (num_inference_steps a) k offset))
            hist
            (bind (sample_latents self a emb init (Some k) offset)
                  (fun latents => decode_and_check a device latents)).
Proof.
  intros Hh.
  assert (H0 : count_calls step_callb hist = 0%nat) by (apply count_calls_none; exact Hh).
  assert (Hi : latents_after init hist = init).
  { rewrite <- (app_nil_l hist). rewrite latents_after_none by exact Hh. reflexivity. }
  apply invariant_bind.
  - unfold sample_latents. simpl. split; [exact I |]. intros schedule.
    apply (denoise_loop_sampling self a emb init _ schedule).
    + apply last_schedule_read.
    + rewrite latents_after_none; [exact Hi | repeat constructor].
    + rewrite count_calls_snoc, H0. unfold t_start_of. simpl. lia.
    + intros j. unfold py_slice_from. rewrite nth_error_skipn.
      rewrite count_calls_snoc, H0. unfold t_start_of. simpl. f_equal. lia.
  - intros latents' t Hp.
    destruct (sample_latents_returns _ _ _ _ _ _ _ _ Hp) as (k' & schedule & t' & Hk & -> & Hloop).
    destruct (denoise_loop_effect _ _ _ _ _ _ _ _ Hloop) as (_ & _ & _ & Hl).
    unfold decode_and_check. simpl.
    split.
    + f_equal. symmetry.
      change (hist ++ Ev SchedulerTimesteps (inr schedule) :: t')
        with (hist ++ [Ev SchedulerTimesteps (inr schedule)] ++ t').
      rewrite app_assoc. apply Hl.
      rewrite latents_after_none; [exact Hi | repeat constructor].
    + intros image. split; [exact I |]. intros pv. split; [exact I |]. intros [c f]. exact I.
Qed.

End Sampling.

(** ** What a completed call did *)

Section CompletedCalls.
Context {torch : Torch} {pil : PIL}.

Lemma legacy_device_returns self a t d :
  paths (legacy_device self a) t (inr d) ->
  exists cuda_available,
    d = selected_device self a cuda_available
    /\ (torch_device a = Some None -> In (Ev CudaIsAvailable (inr cuda_available)) t).
Proof.
  unfold legacy_device, selected_device.
  destruct (torch_device a) as [[d' | ] | ]; simpl.
  - intros [(e & _ & He) | (r & t1 & -> & H)]; [discriminate |].
    destruct H as [(e & _ & He) | (r' & t2 & -> & _ & H)]; [discriminate |].
    injection H as H. subst d. exists true. split; [reflexivity | discriminate].
  - intros [(e & _ & He) | (r & t1 & -> & H)]; [discriminate |].
    destruct H as [(e & _ & He) | (avail & t2 & -> & H)]; [discriminate |].
    destruct H as [(e & _ & He) | (r' & t3 & -> & _ & H)]; [discriminate |].
    injection H as H. subst d. exists avail. split; [reflexivity |]. intros _. simpl. auto.
  - intros [_ H]. injection H as H. subst d. exists true. split; [reflexivity | discriminate].
Qed.

Lemma noise_timesteps_returns self a device b k t ts :
  paths (noise_timesteps self a device b k) t (inr ts) ->
  noising_timesteps self a device b k t ts.
Proof.
  unfold noise_timesteps, noising_timesteps.
  destruct (scheduler_is_lms self); simpl.
  - intros [-> H]. injection H as H. subst ts. split; reflexivity.
  - intros [(e & _ & He) | (schedule & t1 & -> & H)]; [discriminate |].
    destruct (py_index schedule (- k)) as [e | t0] eqn:Hi; simpl in H;
      destruct H as [-> H]; [discriminate |].
    injection H as H. subst ts. exists schedule, t0.
    split; [reflexivity |]. split; [exact Hi | reflexivity].
Qed.

(** The seed-image branch that completes: the seed (preprocessed if it is
    a PIL image) was encoded and sampled, the sample scaled and repeated
    over the batch, [init_timestep] bound, and the noise drawn and added
    at the timesteps of lines 175-185. *)
Lemma prepare_latents_seed_returns self a device b offset t latents k :
  init_image a <> None ->
  paths (prepare_latents self a device b offset) t (inr (latents, k)) ->
  exists x z seed_latents k' t_ts ts noise noised,
    (init_image a = Some (inl x)
     \/ exists image f,
         init_image a = Some (inr image)
         /\ preprocess image (init_max_pixels a) = inr f
         /\ x = of_float_tensor f)
    /\ torch_cat (py_repeat (s_mul (NFloat PyFloat.lit_0_18215) z) b) = inr seed_latents
    /\ get_init_timestep (num_inference_steps a) (init_strength a) offset = inr k'
    /\ noising_timesteps self a device b k' t_ts ts
    /\ t = Ev (VaeEncodeSample (t_to device x)) (inr z)
           :: t_ts ++ [Ev (Randn (t_shape seed_latents) (generator a) device) (inr noise);
                       Ev (AddNoise seed_latents noise ts) (inr noised)]
    /\ latents = t_to device noised
    /\ k = Some k'.
Proof.
  intros Hseed. unfold prepare_latents.
  destruct (init_image a) as [image |]; [| contradiction]. clear Hseed.
  set (rest := fun image : Tensor => bind (call (VaeEncodeSample (t_to device image))) _).
  assert (Hrest : forall x t0,
             paths (rest x) t0 (inr (latents, k)) ->
             exists z seed_latents k' t_ts ts noise noised,
               torch_cat (py_repeat (s_mul (NFloat PyFloat.lit_0_18215) z) b)
               = inr seed_latents
               /\ get_init_timestep (num_inference_steps a) (init_strength a) offset
                  = inr k'
               /\ noising_timesteps self a device b k' t_ts ts
               /\ t0 = Ev (VaeEncodeSample (t_to device x)) (inr z)
                       :: t_ts ++ [Ev (Randn (t_shape seed_latents) (generator a) device)
                                      (inr noise);
                                   Ev (AddNoise seed_latents noise ts) (inr noised)]
               /\ latents = t_to device noised
               /\ k = Some k').
  { intros x t0 H0. unfold rest in H0. simpl in H0.
    destruct H0 as [(e & _ & He) | (z & t1 & -> & H0)]; [discriminate |].
    destruct (torch_cat (py_repeat (s_mul (NFloat PyFloat.lit_0_18215) z) b))
      as [e | seed_latents] eqn:Hcat; simpl in H0; [destruct H0 as [_ H0]; discriminate |].
    destruct (get_init_timestep (num_inference_steps a) (init_strength a) offset)
      as [e | k'] eqn:Hk; simpl in H0; [destruct H0 as [_ H0]; discriminate |].
    apply paths_bind in H0.
    destruct H0 as [(e & _ & He) | (ts & t_ts & t2 & Hts & H0 & ->)]; [discriminate |].
    apply noise_timesteps_returns in Hts. simpl in H0.
    destruct H0 as [(e & _ & He) | (noise & t3 & -> & H0)]; [discriminate |].
    destruct H0 as [(e & _ & He) | (noised & t4 & -> & -> & H0)]; [discriminate |].
    injection H0 as H1 H2. subst latents k.
    exists z, seed_latents, k', t_ts, ts, noise, noised. repeat split; auto. }
  destruct image as [tensor | pil_image]; simpl.
  - intros H. destruct (Hrest tensor t H) as (z & sl & k' & t_ts & ts & noise & noised & H').
    exists tensor, z, sl, k', t_ts, ts, noise, noised. split; [left; reflexivity | exact H'].
  - destruct (preprocess pil_image (init_max_pixels a)) as [e | f] eqn:Hpre; simpl.
    + intros [_ H]. discriminate.
    + intros H.
      destruct (Hrest (of_float_tensor f) t H)
        as (z & sl & k' & t_ts & ts & noise & noised & H').
      exists (of_float_tensor f), z, sl, k', t_ts, ts, noise, noised.
      split; [right; exists pil_image, f; auto | exact H'].
Qed.

(** The seed-image branch that completes has bound [init_timestep] and
    returns the noised seed latents, moved to the device. *)
Lemma prepare_latents_returns self a device b offset t latents k :
  paths (prepare_latents self a device b offset) t (inr (latents, k)) ->
  (init_image a = None /\ k = None)
  \/ exists k' x noise ts noised,
      init_image a <> None
      /\ k = Some k'
      /\ get_init_timestep (num_inference_steps a) (init_strength a) offset = inr k'
      /\ In (Ev (AddNoise x noise ts) (inr noised)) t
      /\ latents = t_to device noised.
Proof.
  destruct (init_image a) as [image |] eqn:Himg.
  - intros H. right.
    assert (Hseed : init_image a <> None) by (rewrite Himg; discriminate).
    destruct (prepare_latents_seed_returns self a device b offset t latents k Hseed H)
      as (x & z & sl & k' & t_ts & ts & noise & noised & _ & _ & Hk & _ & -> & -> & ->).
    exists k', sl, noise, ts, noised.
    split; [discriminate |]. split; [reflexivity |]. split; [exact Hk |].
    split; [| reflexivity].
    right. apply in_or_app. right. simpl. auto.
  - unfold prepare_latents. rewrite Himg.
    intros H. left. split; [reflexivity |]. simpl in H.
    destruct H as [(e & _ & He) | (noise & t1 & -> & H)]; [discriminate |].
    destruct (scheduler_is_lms self); simpl in H.
    + destruct H as [(e & _ & He) | (sigmas & t2 & -> & H)]; [discriminate |].
      destruct (py_index sigmas 0); simpl in H; destruct H as [_ H]; [discriminate |].
      injection H as _ H. subst k. reflexivity.
    + destruct H as [_ H]. injection H as _ H. subst k. reflexivity.
Qed.

Lemma app_split {A : Type} (hist t pre : list A) ev post :
  hist ++ t = pre ++ ev :: post ->
  In ev hist \/ exists pre', pre = hist ++ pre' /\ t = pre' ++ ev :: post.
Proof.
  revert pre. induction hist as [| e0 hist IH]; intros pre Heq.
  - right. exists pre. auto.
  - destruct pre as [| e1 pre]; simpl in Heq.
    + injection Heq as -> _. left. simpl. auto.
    + injection Heq as <- Heq. destruct (IH pre Heq) as [Hin | (pre' & -> & ->)].
      * left. simpl. auto.
      * right. exists pre'. auto.
Qed.

Lemma sampling_invariant_prelude self a init t_start hist c :
  prelude_call c -> sampling_invariant self a init t_start hist c.
Proof. destruct c; simpl; tauto. Qed.

(** A completed call ran in seed-image mode: it noised the seed latents,
    read the schedule and kept [sampling_invariant] at every call. *)
Lemma pipeline_sampling self a tr out :
  paths (pipeline self a) tr (inr out) ->
  exists k init schedule,
    get_init_timestep (num_inference_steps a) (init_strength a) (scheduler_offset self)
    = inr k
    /\ init_image a <> None
    /\ check_strength a = inr tt
    /\ (exists cuda_available x noise ts noised,
           In (Ev (AddNoise x noise ts) (inr noised)) tr
           /\ init = t_to (selected_device self a cuda_available) noised)
    /\ last_schedule tr = Some schedule
    /\ count_calls unet_callb tr
       = length (py_slice_from schedule
                   (t_start_of (num_inference_steps a) k (scheduler_offset self)))
    /\ count_calls step_callb tr = count_calls unet_callb tr
    /\ forall pre ev post,
        tr = pre ++ ev :: post ->
        sampling_invariant self a init
          (t_start_of (num_inference_steps a) k (scheduler_offset self)) pre (ev_call ev).
Proof.
  intros Hp.
  destruct (pipeline_returns self a tr out Hp)
    as (b & device & emb & offset & latents & k0 & latents' & t_dev & t_enc & t_set
        & t_prep & t_loop & t_dec & Hv & Hdev & Henc & Hset & Hprep & Hloop & Hdec & ->).
  destruct (set_timesteps_returns _ _ _ _ Hset) as (-> & _).
  destruct (sample_latents_returns _ _ _ _ _ _ _ _ Hloop)
    as (k & schedule & t' & -> & Htl & Hl).
  destruct (prepare_latents_returns _ _ _ _ _ _ _ _ Hprep)
    as [(_ & Hk) | (k' & x & noise & ts & noised & Hseed & Hk & Hget & Hin & Hlat)];
    [discriminate |].
  injection Hk as <-.
  destruct (legacy_device_returns _ _ _ _ Hdev) as (avail & Hd & _).
  destruct (denoise_loop_effect _ _ _ _ _ _ _ _ Hl) as (Hcu & Hcs & Hnt & _).
  destruct (decode_and_check_returns _ _ _ _ _ Hdec) as (image & pv & checked & flags & Htd & _).
  set (t_pre := t_dev ++ t_enc ++ t_set ++ t_prep).
  assert (Hpre : Forall (fun ev => prelude_call (ev_call ev)) t_pre).
  { unfold t_pre.
    apply Forall_app; split; [| apply Forall_app; split; [| apply Forall_app; split]].
    - exact (proj1 (satisfies_paths _ _ _ _ _ _ (legacy_device_prelude self a) Hdev)).
    - exact (proj1 (satisfies_paths _ _ _ _ _ _ (encode_prompt_prelude self a device b) Henc)).
    - exact (proj1 (satisfies_paths _ _ _ _ _ _ (set_timesteps_prelude self a) Hset)).
    - exact (proj1 (satisfies_paths _ _ _ _ _ _
                      (prepare_latents_prelude self a device b (scheduler_offset self))
                      Hprep)). }
  destruct (prelude_not_sampling _ Hpre) as [Hpu Hps].
  assert (Htr : t_dev ++ t_enc ++ t_set ++ t_prep ++ t_loop ++ t_dec
                = t_pre ++ t_loop ++ t_dec).
  { unfold t_pre. rewrite <- !app_assoc. reflexivity. }
  rewrite Htr. clear Htr.
  assert (Hdu : count_calls unet_callb t_dec = 0%nat) by (rewrite Htd; reflexivity).
  assert (Hds : count_calls step_callb t_dec = 0%nat) by (rewrite Htd; reflexivity).
  assert (Hdt : Forall (fun ev => timesteps_callb (ev_call ev) = false) t_dec)
    by (rewrite Htd; repeat constructor).
  exists k, latents, schedule.
  split; [exact Hget |]. split; [exact Hseed |]. split.
  { unfold validate in Hv.
    destruct (batch_size_of (prompt a)); simpl in Hv; [discriminate |].
    destruct (check_size a); simpl in Hv; [discriminate |].
    destruct (check_strength a) as [e | []]; simpl in Hv; [discriminate | reflexivity]. }
  split.
  { exists avail, x, noise, ts, noised. split; [| congruence].
    apply in_or_app. left. unfold t_pre. rewrite !app_assoc. apply in_or_app. right.
    exact Hin. }
  split.
  { rewrite Htl.
    change (t_pre ++ (Ev SchedulerTimesteps (inr schedule) :: t') ++ t_dec)
      with (t_pre ++ [Ev SchedulerTimesteps (inr schedule)] ++ (t' ++ t_dec)).
    rewrite app_assoc. rewrite last_schedule_none by (apply Forall_app; auto).
    apply last_schedule_read. }
  split.
  { rewrite !count_calls_app, (count_calls_none _ _ Hpu), Hdu, Htl.
    change (Ev SchedulerTimesteps (inr schedule) :: t')
      with ([Ev SchedulerTimesteps (inr schedule)] ++ t').
    rewrite count_calls_app, Hcu. simpl. lia. }
  split.
  { rewrite !count_calls_app, (count_calls_none _ _ Hpu), (count_calls_none _ _ Hps),
      Hdu, Hds, Htl.
    change (Ev SchedulerTimesteps (inr schedule) :: t')
      with ([Ev SchedulerTimesteps (inr schedule)] ++ t').
    rewrite !count_calls_app, Hcu, Hcs. reflexivity. }
  intros pre ev post Hsplit.
  destruct (app_split _ _ _ _ _ Hsplit) as [Hev | (pre' & -> & Htail)].
  - apply sampling_invariant_prelude.
    rewrite Forall_forall in Hpre. exact (Hpre ev Hev).
  - assert (Hpt : paths (bind (sample_latents self a emb latents (Some k)
                                 (scheduler_offset self))
                              (fun l => decode_and_check a device l))
                        (t_loop ++ t_dec) (inr out)).
    { apply paths_bind. right. exists latents', t_loop, t_dec. auto. }
    exact (invariant_paths _ _ t_pre _ _
             (sample_and_decode_sampling self a emb device latents k
                                         (scheduler_offset self) t_pre Hps)
             Hpt pre' ev post Htail).
Qed.

(** C1. A call that returns has made one UNet call and one scheduler
    step for each entry of the schedule from [t_start] on, and on every
    execution each scheduler step directly follows the UNet call whose
    answer it consumes.  With [guidance_scale > 1.0] that UNet call is
    made on the concatenated embeddings [uncond; cond] - the text
    encoder's answers on the empty prompts and on the prompt - and the
    step is given [uncond + guidance_scale * (cond - uncond)] on the two
    chunks of the call's answer.  With [guidance_scale <= 1.0] the step
    is given the answer of the UNet call, made on the prompt's embedding
    alone, and the tokenizer and the text encoder are called at most
    once, on the prompt. *)
Theorem C1_guidance self a tr o :
  paths (pipeline self a) tr o ->
  (forall out, o = inr out ->
     exists k schedule,
       get_init_timestep (num_inference_steps a) (init_strength a) (scheduler_offset self)
       = inr k
       /\ last_schedule tr = Some schedule
       /\ count_calls step_callb tr
          = length (py_slice_from schedule
                      (t_start_of (num_inference_steps a) k (scheduler_offset self)))
       /\ count_calls unet_callb tr = count_calls step_callb tr)
  /\ (PyFloat.ltb PyFloat.one (guidance_scale a) = true ->
      forall pre noise_pred t latents kw r post,
        tr = pre ++ Ev (SchedulerStep noise_pred t latents kw) r :: post ->
        exists pre' x t' out uncond cond noise_pred_uncond noise_pred_text,
          pre = pre' ++ [Ev (Unet x t' (t_cat [uncond; cond])) (inr out)]
          /\ unconditional_embedding pre' uncond
          /\ conditional_embedding self a pre' cond
          /\ t_chunk 2 out = [noise_pred_uncond; noise_pred_text]
          /\ noise_pred =
             t_add noise_pred_uncond
                   (s_mul (NFloat (guidance_scale a))
                          (t_sub noise_pred_text noise_pred_uncond)))
  /\ (PyFloat.leb (guidance_scale a) PyFloat.one = true ->
      (forall pre noise_pred t latents kw r post,
          tr = pre ++ Ev (SchedulerStep noise_pred t latents kw) r :: post ->
          exists pre' x t' cond,
            pre = pre' ++ [Ev (Unet x t' cond) (inr noise_pred)]
            /\ conditional_embedding self a pre' cond)
      /\ (forall pre text max_length truncation r post,
             tr = pre ++ Ev (Tokenizer text max_length truncation) r :: post ->
             text = prompt a /\ truncation = true
             /\ Forall (fun ev => ~ is_tokenizer ev) pre)
      /\ (forall pre input_ids r post,
             tr = pre ++ Ev (TextEncoder input_ids) r :: post ->
             Forall (fun ev => ~ is_text_encoder ev) pre)).
Proof.
  intros Hp. split; [| exact (guidance_at_each_step self a tr o Hp)].
  intros out ->.
  destruct (pipeline_sampling self a tr out Hp)
    as (k & init & schedule & Hk & _ & _ & _ & Hs & Hu & Hst & _).
  exists k, schedule. rewrite Hst. auto.
Qed.

(** X1. A completed call ran in seed-image mode, and the number of its
    denoising iterations is: one UNet call and one scheduler step for each
    entry of the schedule from [t_start] on, where the schedule is the
    last [scheduler.timesteps] read. *)
Theorem X1_sampling_step_count self a tr out :
  paths (pipeline self a) tr (inr out) ->
  init_image a <> None
  /\ exists k schedule,
    get_init_timestep (num_inference_steps a) (init_strength a) (scheduler_offset self)
    = inr k
    /\ last_schedule tr = Some schedule
    /\ count_calls unet_callb tr
       = length (py_slice_from schedule
                   (t_start_of (num_inference_steps a) k (scheduler_offset self)))
    /\ count_calls step_callb tr = count_calls unet_callb tr.
Proof.
  intros Hp.
  destruct (pipeline_sampling self a tr out Hp)
    as (k & init & schedule & Hk & Hseed & _ & _ & Hs & Hu & Hst & _).
  split; [exact Hseed |]. exists k, schedule. auto.
Qed.

(** X3. The loop walks the schedule in order: the iteration that follows [i]
    scheduler steps handles entry [t_start + i] of the schedule.  The UNet
    is given that entry (cast to the UNet's dtype for the LMS scheduler);
    the scheduler step is given the entry, or the index [t_start + i] for
    the LMS scheduler, whose sigma at that index, read right before, has
    scaled the UNet's input.  Each step carries [eta] exactly when the
    scheduler's [step] accepts it. *)
Theorem X3_loop_walks_schedule self a tr out :
  paths (pipeline self a) tr (inr out) ->
  exists k,
    get_init_timestep (num_inference_steps a) (init_strength a) (scheduler_offset self)
    = inr k
    /\ (forall pre noise_pred t latents kw r post,
           tr = pre ++ Ev (SchedulerStep noise_pred t latents kw) r :: post ->
           kw = (if step_accepts_eta self then Some (eta a) else None)
           /\ exists ts,
               iteration_timestep
                 (t_start_of (num_inference_steps a) k (scheduler_offset self)) pre ts
               /\ t = (if scheduler_is_lms self
                       then inr (t_start_of (num_inference_steps a) k (scheduler_offset self)
                                 + Z.of_nat (count_calls step_callb pre))
                       else inl ts))
    /\ (forall pre x t emb r post,
           tr = pre ++ Ev (Unet x t emb) r :: post ->
           exists ts,
             iteration_timestep
               (t_start_of (num_inference_steps a) k (scheduler_offset self)) pre ts
             /\ t = (if scheduler_is_lms self then t_to_dtype (unet_dtype self) ts else ts)
             /\ (scheduler_is_lms self = true ->
                 exists pre' sigmas sigma latents,
                   pre = pre' ++ [Ev SchedulerSigmas (inr sigmas)]
                   /\ py_index sigmas
                        (t_start_of (num_inference_steps a) k (scheduler_offset self)
                         + Z.of_nat (count_calls step_callb pre)) = inr sigma
                   /\ x = model_input self a latents (Some sigma))).
Proof.
  intros Hp.
  destruct (pipeline_sampling self a tr out Hp)
    as (k & init & schedule & Hk & _ & _ & _ & _ & _ & _ & Hinv).
  exists k. split; [exact Hk |]. split.
  - intros pre noise_pred t latents kw r post Htr.
    destruct (Hinv _ _ _ Htr) as (_ & Hkw & ts & Hit & Ht).
    split; [exact Hkw |]. exists ts. auto.
  - intros pre x t emb r post Htr.
    destruct (Hinv _ _ _ Htr) as (sigma & ts & Hx & Hit & Ht & Hsig).
    exists ts. split; [exact Hit |]. split; [exact Ht |].
    intros Hlms. rewrite Hlms in Hsig.
    destruct Hsig as (pre' & sigmas & s & Hpre & Hs & ->).
    exists pre', sigmas, s, (latents_after init pre). auto.
Qed.

(** X4. The latents are threaded through the loop: the loop starts from the
    noised seed latents (moved to the device); each scheduler step is
    given the answer of the step before it, the UNet is given a sample
    built from the same latents, and the VAE decodes the answer of the
    last step, scaled by [1 / 0.18215]. *)
Theorem X4_latents_threaded self a tr out :
  paths (pipeline self a) tr (inr out) ->
  exists init,
    (exists cuda_available x noise ts noised,
        In (Ev (AddNoise x noise ts) (inr noised)) tr
        /\ init = t_to (selected_device self a cuda_available) noised)
    /\ (forall pre noise_pred t latents kw r post,
           tr = pre ++ Ev (SchedulerStep noise_pred t latents kw) r :: post ->
           latents = latents_after init pre)
    /\ (forall pre x t emb r post,
           tr = pre ++ Ev (Unet x t emb) r :: post ->
           exists sigma, x = model_input self a (latents_after init pre) sigma)
    /\ (forall pre z r post,
           tr = pre ++ Ev (VaeDecode z) r :: post ->
           z = s_mul (NFloat (PyFloat.div PyFloat.one PyFloat.lit_0_18215))
                     (latents_after init pre)).
Proof.
  intros Hp.
  destruct (pipeline_sampling self a tr out Hp)
    as (k & init & schedule & _ & _ & _ & Hinit & _ & _ & _ & Hinv).
  exists init. split; [exact Hinit |]. split; [| split].
  - intros pre noise_pred t latents kw r post Htr.
    exact (proj1 (Hinv _ _ _ Htr)).
  - intros pre x t emb r post Htr.
    destruct (Hinv _ _ _ Htr) as (sigma & ts & Hx & _).
    exists sigma. exact Hx.
  - intros pre z r post Htr. exact (Hinv _ _ _ Htr).
Qed.

Lemma denoise_loop_calls self a emb (C : Call -> Prop) :
  C SchedulerSigmas -> (forall x t e, C (Unet x t e)) ->
  (forall np t l kw, C (SchedulerStep np t l kw)) ->
  forall timesteps t_index latents,
    satisfies C (fun _ => True) (fun _ => True)
              (denoise_loop self a emb timesteps t_index latents).
Proof.
  intros Hsig Hunet Hstep.
  induction timesteps as [| t rest IH]; intros t_index latents; simpl; [exact I |].
  apply satisfies_bind. unfold denoise_step.
  destruct (scheduler_is_lms self); simpl.
  - split; [exact Hsig |]. intros sigmas.
    destruct (py_index sigmas t_index); simpl; [exact I |].
    split; [apply Hunet |]. intros out.
    destruct (perform_guidance a out); simpl; [exact I |].
    split; [apply Hstep |]. intros l. apply IH.
  - split; [apply Hunet |]. intros out.
    destruct (perform_guidance a out); simpl; [exact I |].
    split; [apply Hstep |]. intros l. apply IH.
Qed.

Lemma sample_latents_calls self a emb latents k offset (C : Call -> Prop) :
  C SchedulerTimesteps -> C SchedulerSigmas -> (forall x t e, C (Unet x t e)) ->
  (forall np t l kw, C (SchedulerStep np t l kw)) ->
  satisfies C (fun _ => True) (fun _ => True) (sample_latents self a emb latents k offset).
Proof.
  intros Hts Hsig Hunet Hstep. unfold sample_latents.
  destruct k as [k |]; simpl; [| exact I].
  split; [exact Hts |]. intros schedule. apply denoise_loop_calls; assumption.
Qed.

(** X5. The last call of a completed call is the safety checker's, its only
    one, on the decoded images; what is returned is exactly its answer:
    its images (as PIL images when [output_type] is exactly "pil", as the
    array otherwise) and its flags. *)
Theorem X5_output_is_safety_checked self a tr out :
  paths (pipeline self a) tr (inr out) ->
  exists pre images clip_input checked flags,
    tr = pre ++ [Ev (SafetyChecker images clip_input) (inr (checked, flags))]
    /\ count_calls safety_checker_callb pre = 0%nat
    /\ nsfw_content_detected out = flags
    /\ sample out = (if String.eqb (output_type a) "pil"
                     then inl (numpy_to_pil checked) else inr checked).
Proof.
  intros Hp.
  destruct (pipeline_returns self a tr out Hp)
    as (b & device & emb & offset & latents & k0 & latents' & t_dev & t_enc & t_set
        & t_prep & t_loop & t_dec & Hv & Hdev & Henc & Hset & Hprep & Hloop & Hdec & ->).
  destruct (decode_and_check_returns _ _ _ _ _ Hdec)
    as (image & pv & checked & flags & -> & ->).
  assert (Hnone : forall t, Forall (fun ev => prelude_call (ev_call ev)) t ->
                            count_calls safety_checker_callb t = 0%nat).
  { intros t Ht. apply count_calls_none. eapply Forall_impl; [| exact Ht].
    intros [c r]; destruct c; simpl; tauto. }
  eexists (t_dev ++ t_enc ++ t_set ++ t_prep ++ t_loop ++ [_; _]), _, _, checked, flags.
  split; [rewrite <- !app_assoc; reflexivity |].
  split; [| split; reflexivity].
  rewrite !count_calls_app.
  rewrite (Hnone _ (proj1 (satisfies_paths _ _ _ _ _ _ (legacy_device_prelude self a) Hdev))).
  rewrite (Hnone _ (proj1 (satisfies_paths _ _ _ _ _ _
                             (encode_prompt_prelude self a device b) Henc))).
  rewrite (Hnone _ (proj1 (satisfies_paths _ _ _ _ _ _ (set_timesteps_prelude self a) Hset))).
  rewrite (Hnone _ (proj1 (satisfies_paths _ _ _ _ _ _
                             (prepare_latents_prelude self a device b offset) Hprep))).
  rewrite (count_calls_none safety_checker_callb t_loop).
  - reflexivity.
  - apply (proj1 (satisfies_paths _ _ _ _ _ _
                    (sample_latents_calls self a emb latents k0 offset
                       (fun c => safety_checker_callb c = false)
                       eq_refl eq_refl (fun _ _ _ => eq_refl) (fun _ _ _ _ => eq_refl))
                    Hloop)).
Qed.

End CompletedCalls.

(** ** The device, the scheduler and the generator *)

Section Protocol.
Context {torch : Torch} {pil : PIL}.

(** The calls of the legacy device keyword, when each was answered. *)
Lemma legacy_device_answered self a d t o :
  torch_device a = Some d ->
  paths (legacy_device self a) t o -> Forall answered t ->
  exists cuda_available,
    o = inr (selected_device self a cuda_available)
    /\ t = Ev (Warn " Consider using `pipe.to(torch_device)` instead.") (inr tt)
           :: match d with
              | Some _ => []
              | None => [Ev CudaIsAvailable (inr cuda_available)]
              end
           ++ [Ev (PipeTo (selected_device self a cuda_available)) (inr tt)].
Proof.
  intros Hd. unfold legacy_device, selected_device. rewrite Hd.
  destruct d as [d |]; simpl.
  - intros [(e & -> & _) | ([] & t1 & -> & H)] Ha; [inversion Ha; contradiction |].
    destruct H as [(e & -> & _) | ([] & t2 & -> & -> & ->)].
    + inversion Ha as [| ? ? _ Ha']. inversion Ha'; contradiction.
    + exists true. auto.
  - intros [(e & -> & _) | ([] & t1 & -> & H)] Ha; [inversion Ha; contradiction |].
    destruct H as [(e & -> & _) | (avail & t2 & -> & H)].
    + inversion Ha as [| ? ? _ Ha']. inversion Ha'; contradiction.
    + destruct H as [(e & -> & _) | ([] & t3 & -> & -> & ->)].
      * inversion Ha as [| ? ? _ Ha']. inversion Ha' as [| ? ? _ Ha''].
        inversion Ha''; contradiction.
      * exists avail. auto.
Qed.

(** X8. With [torch_device] among the keywords, a call that fails one of the
    input checks has warned and moved the pipeline to the device before
    it raises: the device given, or [cuda] / [cpu] by
    [torch.cuda.is_available()] when [None] was given. *)
Theorem X8_torch_device_applied_before_validation self a d err tr o :
  torch_device a = Some d ->
  validate a = inl err ->
  paths (pipeline self a) tr o ->
  Forall answered tr ->
  o = inl err
  /\ exists cuda_available,
      tr = Ev (Warn " Consider using `pipe.to(torch_device)` instead.") (inr tt)
           :: match d with
              | Some _ => []
              | None => [Ev CudaIsAvailable (inr cuda_available)]
              end
           ++ [Ev (PipeTo (selected_device self a cuda_available)) (inr tt)].
Proof.
  intros Hd Hv Hp Ha.
  destruct (pipeline_validation_error self a err Hv tr o Hp) as (_ & e & -> & He).
  rewrite (He Ha). split; [reflexivity |].
  unfold pipeline in Hp. apply paths_bind in Hp.
  destruct Hp as [(e' & Hp & _) | (dev & t1 & t2 & H1 & H2 & ->)].
  - destruct (legacy_device_answered self a d tr _ Hd Hp Ha) as (avail & Ho & _).
    discriminate.
  - apply Forall_app in Ha. destruct Ha as [Ha1 _].
    destruct (legacy_device_answered self a d t1 _ Hd H1 Ha1) as (avail & _ & Ht1).
    assert (Ht2 : t2 = []).
    { unfold validate in Hv.
      destruct (batch_size_of (prompt a)) as [e1 | b]; simpl in Hv, H2; [tauto |].
      destruct (check_size a) as [e2 | []]; simpl in Hv, H2; [tauto |].
      destruct (check_strength a) as [e3 | []]; simpl in Hv, H2; [tauto | discriminate]. }
    rewrite Ht2, app_nil_r. exists avail. exact Ht1.
Qed.

(** A kind of call that is only made when none of it was made before is
    made at most once. *)
Lemma count_at_most_one f (tr : Trace) :
  (forall pre ev post, tr = pre ++ ev :: post -> f (ev_call ev) = true ->
                       count_calls f pre = 0%nat) ->
  (count_calls f tr <= 1)%nat.
Proof.
  induction tr as [| ev tr IH] using rev_ind; intros H; [unfold count_calls; simpl; lia |].
  destruct ev as [c r]. rewrite count_calls_snoc.
  destruct (f c) eqn:Hf.
  - rewrite (H tr (Ev c r) [] eq_refl Hf). lia.
  - assert (count_calls f tr <= 1)%nat; [| lia].
    apply IH. intros pre ev post -> Hev.
    apply (H pre ev (post ++ [Ev c r])); [| exact Hev].
    rewrite <- app_assoc. reflexivity.
Qed.

(** A computation whose calls satisfy [C] keeps, after the calls [hist],
    an invariant that [C] implies from [hist] on. *)
Lemma invariant_after {A : Type} Inv (C : Call -> Prop) (Q : A -> Prop) E (p : Prog A) :
  forall hist,
    (forall h' c, C c -> Inv (hist ++ h') c) ->
    satisfies C Q E p -> invariant Inv hist p.
Proof.
  induction p as [x | e | c k IH]; simpl; auto.
  intros hist HC [Hc Hk]. split.
  - specialize (HC [] c Hc). rewrite app_nil_r in HC. exact HC.
  - intros r. apply IH; [| apply Hk].
    intros h' c' Hc'. rewrite <- app_assoc. apply HC. exact Hc'.
Qed.

Lemma prepare_latents_calls self a device b offset (C : Call -> Prop) :
  (forall x, C (VaeEncodeSample x)) -> C SchedulerTimesteps -> C SchedulerSigmas ->
  (forall s g d, C (Randn s g d)) -> (forall x n t, C (AddNoise x n t)) ->
  satisfies C (fun _ => True) (fun _ => True) (prepare_latents self a device b offset).
Proof.
  intros Henc Hts Hsig Hrandn Hnoise. unfold prepare_latents, noise_timesteps.
  repeat match goal with
         | |- context [lift ?r] => destruct r; simpl
         | |- satisfies _ _ _ (if ?b then _ else _) => destruct b; simpl
         | |- satisfies _ _ _ (match ?x with _ => _ end) => destruct x; simpl
         | |- satisfies _ _ _ (bind (match ?x with _ => _ end) _) => destruct x; simpl
         | |- _ /\ _ => split
         | |- forall _, _ => intro
         | |- True => exact I
         | |- C _ => auto
         | _ => progress simpl
         end.
Qed.

Lemma decode_and_check_calls a device latents (C : Call -> Prop) :
  (forall z, C (VaeDecode z)) -> (forall i, C (FeatureExtractor i)) ->
  (forall i c, C (SafetyChecker i c)) ->
  satisfies C (fun _ => True) (fun _ => True) (decode_and_check a device latents).
Proof.
  intros Hdec Hfe Hsc. unfold decode_and_check. simpl.
  split; [apply Hdec |]. intros image.
  split; [apply Hfe |]. intros pv.
  split; [apply Hsc |]. intros [c f]. exact I.
Qed.

(** What holds of the scheduler at each call. *)
Lemma pipeline_scheduler_invariant self a :
  invariant
    (fun hist c =>
       match c with
       | SetTimesteps _ _ => count_calls set_timesteps_callb hist = 0%nat
       | _ =>
           scheduler_use c ->
           In (Ev (SetTimesteps (num_inference_steps a)
                                (if set_timesteps_accepts_offset self then Some 1 else None))
                  (inr tt)) hist
       end)
    [] (pipeline self a).
Proof.
  set (Inv := fun (hist : Trace) (c : Call) => _).
  assert (Hquiet : forall c, ~ scheduler_use c -> set_timesteps_callb c = false ->
                             forall hist, Inv hist c).
  { intros c Hc Hs hist. destruct c; simpl in *; try tauto; discriminate. }
  assert (Hcount : forall (C : Call -> Prop) t,
             (forall c, C c -> set_timesteps_callb c = false) ->
             Forall (fun ev => C (ev_call ev)) t ->
             count_calls set_timesteps_callb t = 0%nat).
  { intros C t HC Ht. apply count_calls_none. eapply Forall_impl; [| exact Ht].
    intros ev. apply HC. }
  unfold pipeline. apply invariant_bind.
  { eapply invariant_of_satisfies; [| apply (legacy_device_satisfies self a
                                              device_binding_call (fun _ => True)); auto].
    intros hist c Hc. apply Hquiet; destruct c; simpl in *; tauto. }
  intros device t_dev Hdev. rewrite app_nil_l.
  apply legacy_device_paths in Hdev. destruct Hdev as (Hdev & _ & _).
  assert (H0 : count_calls set_timesteps_callb t_dev = 0%nat).
  { apply (Hcount device_binding_call); [| exact Hdev].
    intros c Hc. destruct c; simpl in *; tauto. }
  apply invariant_bind; [apply invariant_lift |].
  intros b t1 Hb. apply paths_lift in Hb. destruct Hb as [-> _]. rewrite app_nil_r.
  apply invariant_bind; [apply invariant_lift |].
  intros u1 t2 H2. apply paths_lift in H2. destruct H2 as [-> _]. rewrite app_nil_r.
  apply invariant_bind; [apply invariant_lift |].
  intros u2 t3 H3. apply paths_lift in H3. destruct H3 as [-> _]. rewrite app_nil_r.
  apply invariant_bind.
  { eapply invariant_of_satisfies;
      [| apply (encode_prompt_satisfies self a device b
                  (fun c => tokenizer_call c \/ text_encoder_call c)); auto].
    intros hist c Hc. apply Hquiet; destruct c; simpl in *; tauto. }
  intros emb t_enc Henc.
  assert (H1 : count_calls set_timesteps_callb t_enc = 0%nat).
  { apply (Hcount (fun c => tokenizer_call c \/ text_encoder_call c)).
    - intros c Hc. destruct c; simpl in *; tauto.
    - exact (proj1 (satisfies_paths _ _ _ _ _ _
                      (encode_prompt_satisfies self a device b _ (fun c Hc => Hc)) Henc)). }
  apply invariant_bind.
  { unfold set_timesteps.
    destruct (set_timesteps_accepts_offset self); simpl;
      (split; [rewrite count_calls_app; lia | intros; exact I]). }
  intros offset t_set Hset.
  assert (Hin : In (Ev (SetTimesteps (num_inference_steps a)
                          (if set_timesteps_accepts_offset self then Some 1 else None))
                       (inr tt)) t_set).
  { unfold set_timesteps in Hset.
    destruct (set_timesteps_accepts_offset self); simpl in Hset;
      destruct Hset as [(e & _ & He) | ([] & t' & -> & _)]; try discriminate;
      simpl; auto. }
  assert (Hafter : forall h' c, set_timesteps_callb c = false ->
                                Inv (((t_dev ++ t_enc) ++ t_set) ++ h') c).
  { intros h' c Hc. destruct c; simpl in *; try discriminate; intros _;
      apply in_or_app; left; apply in_or_app; right; exact Hin. }
  apply invariant_bind.
  { apply (invariant_after Inv (fun c => set_timesteps_callb c = false)
             (fun _ => True) (fun _ => True)); [exact Hafter |].
    apply prepare_latents_calls; reflexivity. }
  intros [latents k] t_prep _.
  assert (Hafter' : forall h' c, set_timesteps_callb c = false ->
                                 Inv ((((t_dev ++ t_enc) ++ t_set) ++ t_prep) ++ h') c).
  { intros h' c Hc. rewrite <- app_assoc. apply Hafter. exact Hc. }
  apply invariant_bind.
  { apply (invariant_after Inv (fun c => set_timesteps_callb c = false)
             (fun _ => True) (fun _ => True)); [exact Hafter' |].
    apply sample_latents_calls; reflexivity. }
  intros latents' t_loop _.
  apply (invariant_after Inv (fun c => set_timesteps_callb c = false)
           (fun _ => True) (fun _ => True)).
  - intros h' c Hc. rewrite <- app_assoc. apply Hafter'. exact Hc.
  - apply decode_and_check_calls; reflexivity.
Qed.

(** X6. On every execution, [scheduler.set_timesteps] is called at most once,
    and every read of the scheduler's timesteps or sigmas, every
    [add_noise] and every [step] comes after its answered call with
    [num_inference_steps] (and [offset=1] where it is accepted). *)
Theorem X6_scheduler_configured_first self a tr o :
  paths (pipeline self a) tr o ->
  (count_calls set_timesteps_callb tr <= 1)%nat
  /\ forall pre ev post,
      tr = pre ++ ev :: post ->
      scheduler_use (ev_call ev) ->
      In (Ev (SetTimesteps (num_inference_steps a)
                           (if set_timesteps_accepts_offset self then Some 1 else None))
             (inr tt)) pre.
Proof.
  intros Hp.
  pose proof (invariant_paths _ _ [] tr o (pipeline_scheduler_invariant self a) Hp) as Hinv.
  split.
  - apply count_at_most_one. intros pre [c r] post Htr Hc.
    specialize (Hinv pre _ post Htr). simpl in Hinv.
    destruct c; simpl in Hc; try discriminate. exact Hinv.
  - intros pre [c r] post Htr Hc.
    specialize (Hinv pre _ post Htr). simpl in Hinv, Hc.
    destruct c; simpl in Hc; try contradiction; exact (Hinv I).
Qed.

End Protocol.

Section Noise.
Context {torch : Torch} {pil : PIL}.

(** What holds at each [torch.randn] call. *)
Lemma pipeline_noise_invariant self a :
  invariant
    (fun hist c =>
       match c with
       | Randn _ g device =>
           g = generator a
           /\ count_calls randn_callb hist = 0%nat
           /\ exists cuda_available,
               device = selected_device self a cuda_available
               /\ (torch_device a = Some None ->
                   In (Ev CudaIsAvailable (inr cuda_available)) hist)
       | _ => True
       end)
    [] (pipeline self a).
Proof.
  set (Inv := fun (hist : Trace) (c : Call) => _).
  assert (Hquiet : forall c, randn_callb c = false -> forall hist, Inv hist c).
  { intros c Hc hist. destruct c; simpl in *; try exact I; discriminate. }
  assert (Hcount : forall (C : Call -> Prop) t,
             (forall c, C c -> randn_callb c = false) ->
             Forall (fun ev => C (ev_call ev)) t ->
             count_calls randn_callb t = 0%nat).
  { intros C t HC Ht. apply count_calls_none. eapply Forall_impl; [| exact Ht].
    intros ev. apply HC. }
  unfold pipeline. apply invariant_bind.
  { eapply invariant_of_satisfies; [| apply (legacy_device_satisfies self a
                                              device_binding_call (fun _ => True)); auto].
    intros hist c Hc. apply Hquiet; destruct c; simpl in *; tauto. }
  intros device t_dev Hdev. rewrite app_nil_l.
  destruct (legacy_device_returns _ _ _ _ Hdev) as (avail & Hd & Havail).
  apply legacy_device_paths in Hdev. destruct Hdev as (Hdev & _ & _).
  assert (H0 : count_calls randn_callb t_dev = 0%nat).
  { apply (Hcount device_binding_call); [| exact Hdev].
    intros c Hc. destruct c; simpl in *; tauto. }
  apply invariant_bind; [apply invariant_lift |].
  intros b t1 Hb. apply paths_lift in Hb. destruct Hb as [-> _]. rewrite app_nil_r.
  apply invariant_bind; [apply invariant_lift |].
  intros u1 t2 H2. apply paths_lift in H2. destruct H2 as [-> _]. rewrite app_nil_r.
  apply invariant_bind; [apply invariant_lift |].
  intros u2 t3 H3. apply paths_lift in H3. destruct H3 as [-> _]. rewrite app_nil_r.
  apply invariant_bind.
  { eapply invariant_of_satisfies;
      [| apply (encode_prompt_satisfies self a device b
                  (fun c => tokenizer_call c \/ text_encoder_call c)); auto].
    intros hist c Hc. apply Hquiet; destruct c; simpl in *; tauto. }
  intros emb t_enc Henc.
  assert (H1 : count_calls randn_callb t_enc = 0%nat).
  { apply (Hcount (fun c => tokenizer_call c \/ text_encoder_call c)).
    - intros c Hc. destruct c; simpl in *; tauto.
    - exact (proj1 (satisfies_paths _ _ _ _ _ _
                      (encode_prompt_satisfies self a device b _ (fun c Hc => Hc)) Henc)). }
  apply invariant_bind.
  { eapply invariant_of_satisfies;
      [| apply (set_timesteps_satisfies self a (fun c => randn_callb c = false)
                  (fun _ => True)); reflexivity].
    intros hist c Hc. apply Hquiet. exact Hc. }
  intros offset t_set Hset.
  assert (H2 : count_calls randn_callb t_set = 0%nat).
  { apply (Hcount (fun c => randn_callb c = false)); [auto |].
    exact (proj1 (satisfies_paths _ _ _ _ _ _
                    (set_timesteps_satisfies self a (fun c => randn_callb c = false)
                       (fun _ => True) (fun _ _ => eq_refl)) Hset)). }
  set (hist := (t_dev ++ t_enc) ++ t_set).
  assert (Hh : count_calls randn_callb hist = 0%nat).
  { unfold hist. rewrite !count_calls_app. lia. }
  assert (Hin : torch_device a = Some None -> In (Ev CudaIsAvailable (inr avail)) hist).
  { intros Ht. unfold hist. apply in_or_app. left. apply in_or_app. left. auto. }
  clearbody hist.
  apply invariant_bind.
  { assert (Hrandn : forall h' size,
               Forall (fun ev => randn_callb (ev_call ev) = false) h' ->
               Inv (hist ++ h') (Randn size (generator a) device)).
    { intros h' size Hh'. simpl. split; [reflexivity |]. split.
      - rewrite count_calls_app, Hh, (count_calls_none _ _ Hh'). reflexivity.
      - exists avail. split; [exact Hd |]. intros Ht. apply in_or_app. left. auto. }
    unfold prepare_latents, noise_timesteps.
    destruct (init_image a) as [[tensor | pil_image] |]; simpl.
    - split; [exact I |]. intros enc.
      destruct (torch_cat _) as [e | seed_latents]; simpl; [exact I |].
      destruct (get_init_timestep _ _ _) as [e | k]; simpl; [exact I |].
      destruct (scheduler_is_lms self); simpl.
      + split; [apply Hrandn; repeat constructor |]. intros noise.
        split; [exact I |]. intros noised. exact I.
      + split; [exact I |]. intros schedule.
        destruct (py_index schedule (- k)); simpl; [exact I |].
        split; [rewrite <- app_assoc; apply Hrandn; repeat constructor |]. intros noise.
        split; [exact I |]. intros noised. exact I.
    - destruct (preprocess pil_image (init_max_pixels a)) as [e | x]; simpl; [exact I |].
      split; [exact I |]. intros enc.
      destruct (torch_cat _) as [e | seed_latents]; simpl; [exact I |].
      destruct (get_init_timestep _ _ _) as [e | k]; simpl; [exact I |].
      destruct (scheduler_is_lms self); simpl.
      + split; [apply Hrandn; repeat constructor |]. intros noise.
        split; [exact I |]. intros noised. exact I.
      + split; [exact I |]. intros schedule.
        destruct (py_index schedule (- k)); simpl; [exact I |].
        split; [rewrite <- app_assoc; apply Hrandn; repeat constructor |]. intros noise.
        split; [exact I |]. intros noised. exact I.
    - split.
      { pose proof (Hrandn [] [b; unet_in_channels self; height a / 8; width a / 8]
                      (Forall_nil _)) as Hr.
        rewrite app_nil_r in Hr. exact Hr. }
      intros latents. destruct (scheduler_is_lms self); simpl; [| exact I].
      split; [exact I |]. intros sigmas. destruct (py_index sigmas 0); exact I. }
  intros [latents k] t_prep _.
  apply invariant_bind.
  { eapply invariant_of_satisfies;
      [| apply (sample_latents_calls self a emb latents k offset
                  (fun c => randn_callb c = false)); reflexivity].
    intros h c Hc. apply Hquiet. exact Hc. }
  intros latents' t_loop _.
  eapply invariant_of_satisfies;
    [| apply (decode_and_check_calls a device latents'
                (fun c => randn_callb c = false)); reflexivity].
  intros h c Hc. apply Hquiet. exact Hc.
Qed.

(** X7. On every execution [torch.randn] is called at most once, with the
    caller's generator, on the device of the call: [self.device], or the
    device the [torch_device] keyword selected. *)
Theorem X7_noise_drawn_once self a tr o :
  paths (pipeline self a) tr o ->
  (count_calls randn_callb tr <= 1)%nat
  /\ forall pre size g device r post,
      tr = pre ++ Ev (Randn size g device) r :: post ->
      g = generator a
      /\ exists cuda_available,
          device = selected_device self a cuda_available
          /\ (torch_device a = Some None ->
              In (Ev CudaIsAvailable (inr cuda_available)) pre).
Proof.
  intros Hp.
  pose proof (invariant_paths _ _ [] tr o (pipeline_noise_invariant self a) Hp) as Hinv.
  split.
  - apply count_at_most_one. intros pre [c r] post Htr Hc.
    specialize (Hinv pre _ post Htr). simpl in Hinv.
    destruct c; simpl in Hc; try discriminate. exact (proj1 (proj2 Hinv)).
  - intros pre size g device r post Htr.
    destruct (Hinv pre _ post Htr) as (Hg & _ & Hd). simpl in Hg, Hd. auto.
Qed.

End Noise.

(** ** The strength and the number of iterations *)

Section Strength.
Context {torch : Torch} {pil : PIL}.

Lemma SFcompare_defined x y :
  x <> S754_nan -> y <> S754_nan -> SFcompare x y <> None.
Proof.
  destruct x as [sx | sx | | sx mx ex], y as [sy | sy | | sy my ey]; simpl;
    intros Hx Hy; try congruence;
    try (destruct sx; discriminate); try (destruct sy; discriminate);
    try (destruct sx, sy; discriminate).
Qed.

(** For numbers, [not (x < y)] is [y <= x]. *)
Lemma ltb_false_leb x y :
  x <> S754_nan -> y <> S754_nan -> PyFloat.ltb x y = false -> PyFloat.leb y x = true.
Proof.
  intros Hx Hy. unfold PyFloat.ltb, PyFloat.leb, SFltb, SFleb.
  rewrite (SFcompare_antisym x y).
  pose proof (SFcompare_defined x y Hx Hy) as Hd.
  destruct (SFcompare x y) as [[ | | ] | ]; simpl; congruence.
Qed.

(** [int(n * nan)] raises. *)
Lemma get_init_timestep_nan n offset :
  get_init_timestep n S754_nan offset = inl (ValueError MsgNanToInt)
  \/ get_init_timestep n S754_nan offset = inl OverflowError.
Proof.
  unfold get_init_timestep, PyFloat.int_mul, PyFloat.of_int.
  destruct (PyFloat.is_inf (PyFloat.of_Z n)); [right; reflexivity |].
  left. cbn [rbind].
  assert (H : PyFloat.mul (PyFloat.of_Z n) S754_nan = S754_nan).
  { unfold PyFloat.mul, SFmul. destruct (PyFloat.of_Z n); reflexivity. }
  rewrite H. reflexivity.
Qed.

(** [torch.cat] fails on the empty list only. *)
Lemma torch_cat_error xs e :
  torch_cat xs = inl e -> xs = [] /\ e = RuntimeError MsgEmptyCat.
Proof.
  destruct xs; simpl; intros H; [| discriminate].
  injection H as <-. auto.
Qed.

Lemma py_repeat_nil {A : Type} (x : A) n : py_repeat x n = [] -> n <= 0.
Proof.
  unfold py_repeat. destruct (Z.to_nat n) as [| k] eqn:Hn; simpl; [lia | discriminate].
Qed.

(** X9. A NaN [init_strength] passes the range check of lines 111-115 (both
    comparisons are false), and the call then fails, at the latest where
    [int(num_inference_steps * init_strength)] is taken: it never reaches
    the sampling loop and never returns.  When the checks have passed and
    the collaborators have answered, the exception is [int]'s ValueError
    for NaN, or one raised before line 173: an OverflowError or
    IndexError, [torch.cat]'s error for an empty batch, or the error of
    [preprocess]. *)
Theorem X9_nan_strength_not_rejected self a :
  init_image a <> None ->
  init_strength a = S754_nan ->
  check_strength a = inr tt
  /\ forall tr o, paths (pipeline self a) tr o ->
       (exists e, o = inl e)
       /\ count_calls unet_callb tr = 0%nat
       /\ count_calls step_callb tr = 0%nat
       /\ (forall b, validate a = inr b -> Forall answered tr ->
           exists e,
             o = inl e
             /\ (e = ValueError MsgNanToInt \/ e = OverflowError \/ e = IndexError
                 \/ (b <= 0 /\ e = RuntimeError MsgEmptyCat)
                 \/ exists image,
                     init_image a = Some (inr image)
                     /\ preprocess image (init_max_pixels a) = inl e)).
Proof.
  intros Himg Hnan. split.
  { unfold check_strength. rewrite Hnan. destruct (init_image a); reflexivity. }
  intros tr o Hp.
  set (C := fun c => unet_callb c = false /\ step_callb c = false).
  assert (Hcounts : Forall (fun ev => C (ev_call ev)) tr ->
                    count_calls unet_callb tr = 0%nat /\ count_calls step_callb tr = 0%nat).
  { intros H. split; apply count_calls_none; (eapply Forall_impl; [| exact H]);
      intros ev [Hu Hs]; assumption. }
  destruct (validate a) as [err | b] eqn:Hv.
  - destruct (pipeline_validation_error self a err Hv tr o Hp) as (Hdev & e & -> & _).
    split; [eauto |].
    assert (Hc : Forall (fun ev => C (ev_call ev)) tr).
    { eapply Forall_impl; [| exact Hdev].
      intros [c r]; unfold is_device_binding; destruct c; simpl; try tauto; split; reflexivity. }
    destruct (Hcounts Hc). repeat split; try assumption. discriminate.
  - set (E := fun e => e = ValueError MsgNanToInt \/ e = OverflowError \/ e = IndexError
                       \/ (b <= 0 /\ e = RuntimeError MsgEmptyCat)
                       \/ exists image,
                           init_image a = Some (inr image)
                           /\ preprocess image (init_max_pixels a) = inl e).
    assert (Hs : satisfies C (fun _ => False) E (pipeline self a)).
    { rewrite (pipeline_validated self a b Hv).
      apply satisfies_bind.
      eapply satisfies_weaken;
        [ | | | apply (legacy_device_satisfies self a C E) ]; auto.
      2:{ intros c Hc. destruct c; simpl in Hc; try contradiction; split; reflexivity. }
      intros device _.
      apply satisfies_bind.
      eapply satisfies_weaken;
        [ | | | apply (encode_prompt_satisfies self a device b C) ]; auto.
      3:{ intros c [Hc | Hc]; destruct c; simpl in Hc; try contradiction;
          split; reflexivity. }
      2:{ intros e ->. unfold E. auto. }
      intros emb _.
      apply satisfies_bind.
      eapply satisfies_weaken;
        [ | | | apply (set_timesteps_satisfies self a C E) ]; auto.
      2:{ intros n o'. split; reflexivity. }
      intros offset _.
      apply satisfies_bind.
      unfold prepare_latents. rewrite Hnan.
      destruct (init_image a) as [image |]; [| contradiction].
      set (rest := fun image : Tensor => bind (call (VaeEncodeSample (t_to device image))) _).
      assert (Hrest : forall tensor,
                 satisfies C (fun _ : Tensor * option Z => False) E (rest tensor)).
      { intros tensor. unfold rest. simpl. split; [split; reflexivity |]. intros enc.
        destruct (torch_cat (py_repeat (s_mul (NFloat PyFloat.lit_0_18215) enc) b))
          as [e | seed_latents] eqn:Hcat; simpl.
        - destruct (torch_cat_error _ _ Hcat) as [Hnil ->].
          apply py_repeat_nil in Hnil. unfold E.
          right. right. right. left. split; [exact Hnil | reflexivity].
        - destruct (get_init_timestep_nan (num_inference_steps a) offset) as [-> | ->];
            simpl; unfold E; auto. }
      destruct image as [tensor | pil_image].
      - eapply satisfies_weaken; [ | | | apply (Hrest tensor) ]; auto. contradiction.
      - destruct (preprocess pil_image (init_max_pixels a)) as [e | x] eqn:Hpre.
        + simpl. unfold E. right. right. right. right. exists pil_image. auto.
        + eapply satisfies_weaken; [ | | | apply (Hrest (of_float_tensor x)) ]; auto.
          contradiction. }
    destruct (satisfies_paths C _ E _ tr o Hs Hp) as [Hcalls Ho].
    destruct (Hcounts Hcalls). destruct o as [e | out]; [| contradiction].
    split; [eauto |]. repeat split; try assumption.
    intros b' Hb' Ha. injection Hb' as <-. exists e. split; [reflexivity |]. exact (Ho Ha).
Qed.

(** Computations with the same executions. *)
Lemma same_paths_bind {A B : Type} (p p' : Prog A) (f f' : A -> Prog B) :
  (forall tr o, paths p tr o <-> paths p' tr o) ->
  (forall x tr o, paths (f x) tr o <-> paths (f' x) tr o) ->
  forall tr o, paths (bind p f) tr o <-> paths (bind p' f') tr o.
Proof.
  intros Hp Hf tr o. rewrite !paths_bind. split.
  - intros [(e & H & ->) | (x & t1 & t2 & H1 & H2 & ->)].
    + left. exists e. split; [apply Hp; exact H | reflexivity].
    + right. exists x, t1, t2. split; [apply Hp; exact H1 |].
      split; [apply Hf; exact H2 | reflexivity].
  - intros [(e & H & ->) | (x & t1 & t2 & H1 & H2 & ->)].
    + left. exists e. split; [apply Hp; exact H | reflexivity].
    + right. exists x, t1, t2. split; [apply Hp; exact H1 |].
      split; [apply Hf; exact H2 | reflexivity].
Qed.

Lemma denoise_loop_with_size self a h w emb :
  forall timesteps t_index latents tr o,
    paths (denoise_loop self (with_size a h w) emb timesteps t_index latents) tr o
    <-> paths (denoise_loop self a emb timesteps t_index latents) tr o.
Proof.
  induction timesteps as [| t rest IH]; intros t_index latents; cbn [denoise_loop].
  - intros tr o. reflexivity.
  - apply same_paths_bind; [intros tr o; reflexivity |]. intros x. apply IH.
Qed.

Lemma denoise_loop_with_init_max_pixels self a m emb :
  forall timesteps t_index latents tr o,
    paths (denoise_loop self (with_init_max_pixels a m) emb timesteps t_index latents) tr o
    <-> paths (denoise_loop self a emb timesteps t_index latents) tr o.
Proof.
  induction timesteps as [| t rest IH]; intros t_index latents; cbn [denoise_loop].
  - intros tr o. reflexivity.
  - apply same_paths_bind; [intros tr o; reflexivity |]. intros x. apply IH.
Qed.

(** X10. In seed-image mode [height] and [width] are only checked: two calls
    that differ in them alone, both passing the check, have the same
    executions. *)
Theorem X10_seed_mode_ignores_size self a h w :
  init_image a <> None ->
  check_size a = inr tt ->
  check_size (with_size a h w) = inr tt ->
  forall tr o,
    paths (pipeline self (with_size a h w)) tr o <-> paths (pipeline self a) tr o.
Proof.
  intros Himg Hs Hs'. unfold pipeline. rewrite Hs, Hs'.
  apply same_paths_bind; [intros tr o; reflexivity |]. intros device.
  apply same_paths_bind; [intros tr o; reflexivity |]. intros b.
  apply same_paths_bind; [intros tr o; reflexivity |]. intros _.
  apply same_paths_bind; [intros tr o; reflexivity |]. intros _.
  apply same_paths_bind; [intros tr o; reflexivity |]. intros emb.
  apply same_paths_bind; [intros tr o; reflexivity |]. intros offset.
  apply same_paths_bind.
  { unfold prepare_latents. cbn [with_size init_image].
    destruct (init_image a) as [image |]; [intros tr o; reflexivity | contradiction]. }
  intros [latents k].
  apply same_paths_bind; [| intros x tr o; reflexivity].
  unfold sample_latents.
  apply same_paths_bind; [intros tr o; reflexivity |]. intros k'.
  apply same_paths_bind; [intros tr o; reflexivity |]. intros schedule.
  apply denoise_loop_with_size.
Qed.

(** X11. [init_max_pixels] is only used to preprocess a PIL seed image: with a
    tensor seed (or none) the executions of a call do not depend on it. *)
Theorem X11_max_pixels_only_for_pil_seed self a max_pixels :
  (forall image, init_image a <> Some (inr image)) ->
  forall tr o,
    paths (pipeline self (with_init_max_pixels a max_pixels)) tr o
    <-> paths (pipeline self a) tr o.
Proof.
  intros Himg. unfold pipeline.
  apply same_paths_bind; [intros tr o; reflexivity |]. intros device.
  apply same_paths_bind; [intros tr o; reflexivity |]. intros b.
  apply same_paths_bind; [intros tr o; reflexivity |]. intros _.
  apply same_paths_bind; [intros tr o; reflexivity |]. intros _.
  apply same_paths_bind; [intros tr o; reflexivity |]. intros emb.
  apply same_paths_bind; [intros tr o; reflexivity |]. intros offset.
  apply same_paths_bind.
  { unfold prepare_latents. cbn [with_init_max_pixels init_image].
    destruct (init_image a) as [[tensor | image] |];
      [intros tr o; reflexivity | destruct (Himg image eq_refl) | intros tr o; reflexivity]. }
  intros [latents k].
  apply same_paths_bind; [| intros x tr o; reflexivity].
  unfold sample_latents.
  apply same_paths_bind; [intros tr o; reflexivity |]. intros k'.
  apply same_paths_bind; [intros tr o; reflexivity |]. intros schedule.
  apply denoise_loop_with_init_max_pixels.
Qed.

(** X2. The number of iterations by the strength: a completed call reads
    [int(num_inference_steps * init_strength)] with a product between 0
    and the step count, starts the loop at entry
    [max(num_inference_steps - int(...), offset)] of the schedule and so
    makes as many UNet calls as the schedule has entries from there on;
    for a schedule of [num_inference_steps] entries that is
    [min(int(...), num_inference_steps - offset)]. *)
Theorem X2_iterations_by_strength self a tr out :
  valid_binary PyFloat.prec PyFloat.emax (init_strength a) = true ->
  0 <= num_inference_steps a < 2 ^ 53 ->
  paths (pipeline self a) tr (inr out) ->
  exists product schedule,
    PyFloat.int_mul (num_inference_steps a) (init_strength a) = inr product
    /\ 0 <= PyFloat.trunc product <= num_inference_steps a
    /\ last_schedule tr = Some schedule
    /\ count_calls unet_callb tr
       = (length schedule
          - Z.to_nat (Z.max (num_inference_steps a - PyFloat.trunc product)
                            (scheduler_offset self)))%nat
    /\ (length schedule = Z.to_nat (num_inference_steps a) ->
        count_calls unet_callb tr
        = Z.to_nat (Z.min (PyFloat.trunc product)
                          (num_inference_steps a - scheduler_offset self))).
Proof.
  intros Hvalid Hn Hp.
  destruct (pipeline_sampling self a tr out Hp)
    as (k & init & schedule & Hk & Himg & Hcs & _ & Hs & Hu & _ & _).
  assert (Hnotnan : init_strength a <> S754_nan).
  { intros Hnan. rewrite Hnan in Hk.
    destruct (get_init_timestep_nan (num_inference_steps a) (scheduler_offset self))
      as [H | H]; rewrite H in Hk; discriminate. }
  unfold check_strength in Hcs.
  destruct (init_image a) as [image |]; [| contradiction]. simpl in Hcs.
  destruct (PyFloat.ltb (init_strength a) PyFloat.zero) eqn:Hlo; [discriminate |].
  destruct (PyFloat.ltb PyFloat.one (init_strength a)) eqn:Hhi; [discriminate |].
  apply ltb_false_leb in Hlo; [| exact Hnotnan | discriminate].
  apply ltb_false_leb in Hhi; [| discriminate | exact Hnotnan].
  destruct (strength_product _ _ Hvalid Hlo Hhi Hn)
    as (product & truncated & Hprod & Hint & Htrunc & Hrange).
  unfold get_init_timestep in Hk. rewrite Hprod in Hk. cbn [rbind] in Hk.
  rewrite Hint in Hk. cbn [rbind] in Hk. injection Hk as Hk.
  exists product, schedule. rewrite <- Htrunc.
  split; [exact Hprod |]. split; [exact Hrange |]. split; [exact Hs |].
  assert (Hoff : 0 <= scheduler_offset self <= 1).
  { unfold scheduler_offset. destruct (set_timesteps_accepts_offset self); lia. }
  assert (Hstart : t_start_of (num_inference_steps a) k (scheduler_offset self)
                   = Z.max (num_inference_steps a - truncated) (scheduler_offset self)).
  { unfold t_start_of. lia. }
  rewrite Hu, Hstart. unfold py_slice_from. rewrite length_skipn.
  split; [reflexivity |]. intros Hlen. rewrite Hlen. lia.
Qed.

End Strength.

(** ** The starting timestep of a call *)

Section StartingTimestep.
Context {torch : Torch} {pil : PIL}.

(** What holds at each [set_timesteps] and [add_noise] call of a call
    whose seed-image branch binds [init_timestep] to [K]. *)
Lemma pipeline_noising_invariant self a b K :
  validate a = inr b ->
  get_init_timestep (num_inference_steps a) (init_strength a) (scheduler_offset self)
  = inr K ->
  invariant
    (fun hist c =>
       match c with
       | SetTimesteps m kw =>
           m = num_inference_steps a
           /\ kw = (if set_timesteps_accepts_offset self then Some 1 else None)
       | AddNoise _ _ ts => noised_at self a K hist ts
       | _ => True
       end)
    [] (pipeline self a).
Proof.
  intros Hv Hget.
  set (Inv := fun (hist : Trace) (c : Call) => _).
  set (quiet := fun c => match c with
                         | SetTimesteps _ _ | AddNoise _ _ _ => False
                         | _ => True
                         end).
  assert (Hquiet : forall hist c, quiet c -> Inv hist c).
  { intros hist c Hc. destruct c; simpl in *; try exact I; contradiction. }
  rewrite (pipeline_validated self a b Hv).
  apply invariant_bind.
  { eapply invariant_of_satisfies; [exact Hquiet |].
    apply (legacy_device_satisfies self a quiet (fun _ => True)).
    intros c Hc. destruct c; simpl in *; tauto. }
  intros device t_dev Hdev. rewrite app_nil_l.
  destruct (legacy_device_returns _ _ _ _ Hdev) as (avail & Hd & _).
  apply invariant_bind.
  { eapply invariant_of_satisfies; [exact Hquiet |].
    apply (encode_prompt_satisfies self a device b quiet).
    intros c [Hc | Hc]; destruct c; simpl in *; tauto. }
  intros emb t_enc _.
  apply invariant_bind.
  { unfold set_timesteps.
    destruct (set_timesteps_accepts_offset self); simpl;
      (split; [split; reflexivity | intros; exact I]). }
  intros offset t_set Hset.
  destruct (set_timesteps_returns _ _ _ _ Hset) as (-> & _).
  set (hist := (t_dev ++ t_enc) ++ t_set). clearbody hist.
  apply invariant_bind.
  { unfold prepare_latents.
    destruct (init_image a) as [image |].
    - set (rest := fun image : Tensor =>
                     bind (call (VaeEncodeSample (t_to device image))) _).
      assert (Hrest : forall x h, invariant Inv h (rest x)).
      { intros x h. unfold rest. simpl. split; [exact I |]. intros z.
        destruct (torch_cat _) as [e | seed_latents]; simpl; [exact I |].
        rewrite Hget. simpl. unfold noise_timesteps.
        destruct (scheduler_is_lms self) eqn:Hlms; simpl.
        - split; [exact I |]. intros noise. split; [| intros; exact I].
          exists b, avail. split; [exact Hv |]. rewrite Hlms, <- Hd. reflexivity.
        - split; [exact I |]. intros schedule.
          destruct (py_index schedule (- K)) as [e | t0] eqn:Hi; simpl; [exact I |].
          split; [exact I |]. intros noise. split; [| intros; exact I].
          exists b, avail. split; [exact Hv |]. rewrite Hlms, <- Hd.
          exists schedule, t0. split; [| split; [exact Hi | reflexivity]].
          apply in_or_app. left. apply in_or_app. right. simpl. auto. }
      destruct image as [tensor | pil_image]; simpl.
      + apply Hrest.
      + destruct (preprocess pil_image (init_max_pixels a)); simpl; [exact I |].
        apply Hrest.
    - simpl. split; [exact I |]. intros latents.
      destruct (scheduler_is_lms self); simpl; [| exact I].
      split; [exact I |]. intros sigmas. destruct (py_index sigmas 0); exact I. }
  intros [latents k] t_prep _.
  apply invariant_bind.
  { eapply invariant_of_satisfies; [exact Hquiet |].
    apply (sample_latents_calls self a emb latents k (scheduler_offset self) quiet);
      simpl; auto. }
  intros latents' t_loop _.
  eapply invariant_of_satisfies; [exact Hquiet |].
  apply (decode_and_check_calls a device latents' quiet); simpl; auto.
Qed.

(** C4 (amended). In seed-image mode with a strength in [0, 1] and
    [0 <= num_inference_steps < 2^53], the starting timestep is
    [init_timestep = min(int(num_inference_steps * init_strength) + offset,
    num_inference_steps)]: [int] truncates the float product toward zero
    (it does not round to nearest), the truncated product lies between 0
    and the step count, and [offset] is 1 if [scheduler.set_timesteps]
    accepts an [offset] parameter - it is then called with [offset=1] -
    and 0 otherwise.  This is the value the call uses: every [add_noise]
    is given the timesteps of that [init_timestep], and a call that
    returns has added the noise at those timesteps and walked the
    schedule from entry
    [max(num_inference_steps - init_timestep + offset, 0)]. *)
Theorem C4_init_timestep self a tr o :
  init_image a <> None ->
  valid_binary PyFloat.prec PyFloat.emax (init_strength a) = true ->
  PyFloat.leb PyFloat.zero (init_strength a) = true ->
  PyFloat.leb (init_strength a) PyFloat.one = true ->
  0 <= num_inference_steps a < 2 ^ 53 ->
  paths (pipeline self a) tr o ->
  let n := num_inference_steps a in
  let offset := if set_timesteps_accepts_offset self then 1 else 0 in
  exists product,
    PyFloat.int_mul n (init_strength a) = inr product
    /\ 0 <= PyFloat.trunc product <= n
    /\ let init_timestep := Z.min (PyFloat.trunc product + offset) n in
       (forall pre m kw r post,
           tr = pre ++ Ev (SetTimesteps m kw) r :: post ->
           m = n /\ kw = (if set_timesteps_accepts_offset self then Some 1 else None))
       /\ (forall pre x noise ts r post,
              tr = pre ++ Ev (AddNoise x noise ts) r :: post ->
              noised_at self a init_timestep pre ts)
       /\ (forall out, o = inr out ->
             (exists pre x noise ts noised post,
                 tr = pre ++ Ev (AddNoise x noise ts) (inr noised) :: post
                 /\ noised_at self a init_timestep pre ts)
             /\ exists schedule,
                 last_schedule tr = Some schedule
                 /\ count_calls unet_callb tr
                    = length (py_slice_from schedule
                                (Z.max (n - init_timestep + offset) 0))).
Proof.
  intros Hseed Hvalid Hlo Hhi Hn Hp n offset.
  destruct (init_timestep_value n (init_strength a) offset Hvalid Hlo Hhi Hn)
    as (product & Hprod & Hrange & Hget).
  exists product. split; [exact Hprod |]. split; [exact Hrange |].
  intros init_timestep. fold init_timestep in Hget.
  destruct (validate a) as [err | b] eqn:Hv.
  - destruct (pipeline_validation_error self a err Hv tr o Hp) as (Hdev & e & -> & _).
    assert (Hnone : forall pre ev post,
               tr = pre ++ ev :: post -> is_device_binding ev).
    { intros pre ev post ->. apply Forall_app in Hdev. destruct Hdev as [_ Hdev].
      inversion Hdev. assumption. }
    split; [| split].
    + intros pre m kw r post Htr. destruct (Hnone _ _ _ Htr).
    + intros pre x noise ts r post Htr. destruct (Hnone _ _ _ Htr).
    + intros out Ho. discriminate.
  - pose proof (invariant_paths _ _ [] tr o
                  (pipeline_noising_invariant self a b init_timestep Hv Hget) Hp) as Hinv.
    split; [| split].
    + intros pre m kw r post Htr. exact (Hinv pre _ post Htr).
    + intros pre x noise ts r post Htr. exact (Hinv pre _ post Htr).
    + intros out ->.
      destruct (pipeline_sampling self a tr out Hp)
        as (k & init & schedule & Hk & _ & _ & Hnoise & Hs & Hu & _ & _).
      unfold scheduler_offset in Hk. fold offset n in Hk.
      rewrite Hget in Hk. injection Hk as <-.
      split.
      * destruct Hnoise as (avail & x & noise & ts & noised & Hin & _).
        destruct (in_split _ _ Hin) as (pre & post & Htr).
        exists pre, x, noise, ts, noised, post. split; [exact Htr |].
        exact (Hinv pre _ post Htr).
      * exists schedule. split; [exact Hs |]. exact Hu.
Qed.

End StartingTimestep.

(** ** The tensor [preprocess] returns *)

Section PreprocessShape.
Context {pil : PIL}.

Lemma round_down_64_range x : 0 <= x -> 0 <= x - x mod 64 <= x.
Proof.
  intros Hx. pose proof (Z.mod_pos_bound x 64 ltac:(lia)).
  pose proof (Z.mod_le x 64 Hx ltac:(lia)). lia.
Qed.

(** What a successful [preprocess] went through. *)
Lemma preprocess_inversion image max_pixels t :
  preprocess image max_pixels = inr t ->
  exists image1 image2,
    scale_image (convert ModeRGB image) max_pixels = inr image1
    /\ resize image1 (round_down_64 (im_size image1)) = inr image2.
Proof.
  unfold preprocess. intros H.
  destruct (scale_image (convert ModeRGB image) max_pixels) as [e | image1];
    cbn [rbind] in H; [discriminate |].
  exists image1. unfold round_down_64.
  destruct (im_size image1) as [w1 h1].
  destruct (resize image1 (w1 - w1 mod 64, h1 - h1 mod 64)) as [e | image2];
    cbn [rbind] in H; [discriminate |].
  exists image2. split; reflexivity.
Qed.

(** X12. [preprocess] never enlarges: the tensor it returns is no wider and no
    higher than the image, and both dimensions are multiples of 64. *)
Theorem X12_preprocess_never_upscales (spec : PILSpec pil) image max_pixels t :
  0 < fst (im_size image) < 2 ^ 53 ->
  0 < snd (im_size image) < 2 ^ 53 ->
  preprocess image max_pixels = inr t ->
  exists h w,
    shape t = [1; 3; h; w]
    /\ 0 <= w <= fst (im_size image)
    /\ 0 <= h <= snd (im_size image)
    /\ (64 | h) /\ (64 | w).
Proof.
  intros Hw Hh Hp.
  destruct (preprocess_inversion image max_pixels t Hp) as (image1 & image2 & Hs & Hr).
  assert (Hsize1 : 0 <= fst (im_size image1) <= fst (im_size image)
                   /\ 0 <= snd (im_size image1) <= snd (im_size image)).
  { pose proof (scale_image_scaled_size (convert ModeRGB image) max_pixels) as Hss.
    rewrite Hs, convert_size in Hss.
    destruct (im_size image) as [w0 h0] eqn:Hsz. cbn [fst snd] in *.
    destruct (scaled_size max_pixels (w0, h0)) as [e | [[w' h'] |]] eqn:Hsc.
    - discriminate.
    - symmetry in Hss. rewrite (resize_size _ _ _ Hss). cbn [fst snd].
      exact (scaled_size_le max_pixels w0 h0 w' h' Hw Hh Hsc).
    - injection Hss as ->. rewrite convert_size, Hsz. cbn [fst snd]. lia. }
  assert (Hmode1 : im_mode image1 = ModeRGB).
  { pose proof (scale_image_scaled_size (convert ModeRGB image) max_pixels) as Hss.
    rewrite Hs in Hss.
    destruct (scaled_size max_pixels (im_size (convert ModeRGB image))) as [e | [size |]].
    - discriminate.
    - symmetry in Hss. rewrite (resize_mode _ _ _ Hss). apply convert_mode.
    - injection Hss as ->. apply convert_mode. }
  pose proof (resize_size _ _ _ Hr) as Hsize2.
  pose proof (resize_mode _ _ _ Hr) as Hmode2. rewrite Hmode1 in Hmode2.
  unfold round_down_64 in Hsize2.
  destruct (im_size image1) as [w1 h1] eqn:Hsz1. cbn [fst snd] in Hsize1.
  assert (Hr' : resize image1 (round_down_64 (im_size image1)) = inr image2)
    by (rewrite Hsz1; exact Hr).
  destruct (preprocess_resized image max_pixels image1 image2 _ _ Hs Hr' Hsize2 Hmode2)
    as (t' & Hp' & Hshape & _).
  rewrite Hp in Hp'. injection Hp' as <-.
  exists (h1 - h1 mod 64), (w1 - w1 mod 64).
  split; [exact Hshape |].
  pose proof (round_down_64_range w1 ltac:(lia)).
  pose proof (round_down_64_range h1 ltac:(lia)).
  split; [lia |]. split; [lia |].
  split; apply round_down_64_divides.
Qed.

End PreprocessShape.

(** ** The samples of the tensor *)

Section PreprocessSamples.
Context {pil : PIL}.

Lemma strictly_increasing_nth l :
  strictly_increasing l = true ->
  forall i j x y,
    (i < j)%nat -> nth_error l i = Some x -> nth_error l j = Some y -> SFltb x y = true.
Proof.
  induction l as [| z rest IH]; intros Hl i j x y Hij Hi Hj.
  - destruct i; discriminate.
  - cbn [strictly_increasing] in Hl. apply andb_prop in Hl. destruct Hl as [Hz Hrest].
    destruct j as [| j]; [lia |]. cbn [nth_error] in Hj.
    destruct i as [| i]; cbn [nth_error] in Hi.
    + injection Hi as <-. rewrite forallb_forall in Hz. apply Hz.
      eapply nth_error_In. exact Hj.
    + apply (IH Hrest i j); [lia | assumption | assumption].
Qed.

Lemma nth_error_zrange n i : 0 <= i < n -> nth_error (zrange n) (Z.to_nat i) = Some i.
Proof.
  intros Hi. unfold zrange. rewrite nth_error_map, nth_error_seq.
  destruct (Nat.ltb_spec (Z.to_nat i) (Z.to_nat n)) as [_ | H]; [| lia].
  cbn [option_map]. f_equal. lia.
Qed.

(** The rescaled values of the 256 samples, in the order of the samples. *)
Lemma rescale_table_increasing :
  strictly_increasing
    (map (fun n => F32.sub (F32.mul F32.two (F32.div (F32.of_Z n) F32.lit_255)) F32.one)
         (zrange 256)) = true.
Proof. vm_compute. reflexivity. Qed.

(** X14. The samples keep their order and fill the range: a larger 8-bit
    sample gives a strictly larger float, 0 gives exactly -1.0 and 255
    exactly 1.0. *)
Theorem X14_rescale_order_and_range :
  (forall b1 b2, (Byte.to_N b1 < Byte.to_N b2)%N ->
                 SFltb (rescale b1) (rescale b2) = true)
  /\ rescale "000"%byte = F32.minus_one
  /\ rescale "255"%byte = F32.one.
Proof.
  split; [| split; vm_compute; reflexivity].
  intros b1 b2 Hlt.
  pose proof (Byte.to_N_bounded b1) as H1. pose proof (Byte.to_N_bounded b2) as H2.
  apply (strictly_increasing_nth _ rescale_table_increasing
           (Z.to_nat (Z.of_N (Byte.to_N b1))) (Z.to_nat (Z.of_N (Byte.to_N b2)))).
  - lia.
  - rewrite nth_error_map, nth_error_zrange by lia. reflexivity.
  - rewrite nth_error_map, nth_error_zrange by lia. reflexivity.
Qed.

End PreprocessSamples.

(** ** The layout of the tensor *)

Section PreprocessLayout.
Context {pil : PIL}.

Lemma length_zrange n : length (zrange n) = Z.to_nat n.
Proof. unfold zrange. rewrite length_map, length_seq. reflexivity. Qed.

Lemma in_zrange n i : In i (zrange n) <-> 0 <= i < n.
Proof.
  unfold zrange. rewrite in_map_iff. split.
  - intros (k & <- & Hk). apply in_seq in Hk. lia.
  - intros Hi. exists (Z.to_nat i). split; [lia |]. apply in_seq. lia.
Qed.

(** Blocks of equal length, one after the other: element [j] of block [i]
    is element [i * len + j] of the whole. *)
Lemma nth_error_flat_map_seq {A : Type} (g : nat -> list A) len :
  forall k s,
    (forall i, (s <= i < s + k)%nat -> length (g i) = len) ->
    length (flat_map g (seq s k)) = (k * len)%nat
    /\ forall i j, (i < k)%nat -> (j < len)%nat ->
         nth_error (flat_map g (seq s k)) (i * len + j) = nth_error (g (s + i)%nat) j.
Proof.
  induction k as [| k IH]; intros s Hlen; cbn [seq flat_map].
  - split; [reflexivity |]. intros i j Hi. lia.
  - destruct (IH (S s) ltac:(intros i Hi; apply Hlen; lia)) as [IHl IHn].
    pose proof (Hlen s ltac:(lia)) as Hs.
    split; [rewrite length_app, IHl, Hs; lia |].
    intros i j Hi Hj. destruct i as [| i].
    + rewrite Nat.add_0_r. cbn [Nat.mul Nat.add].
      apply nth_error_app1. lia.
    + rewrite nth_error_app2 by lia. rewrite Hs.
      replace (S i * len + j - len)%nat with (i * len + j)%nat by lia.
      rewrite IHn by lia. f_equal. f_equal. lia.
Qed.

Lemma nth_error_flat_map_zrange {A : Type} (f : Z -> list A) n len :
  0 <= len ->
  (forall i, 0 <= i < n -> length (f i) = Z.to_nat len) ->
  length (flat_map f (zrange n)) = Z.to_nat (n * len)
  /\ forall i j, 0 <= i < n -> 0 <= j < len ->
       nth_error (flat_map f (zrange n)) (Z.to_nat (i * len + j))
       = nth_error (f i) (Z.to_nat j).
Proof.
  intros Hlen Hf. unfold zrange. rewrite flat_map_concat_map, map_map, <- flat_map_concat_map.
  destruct (nth_error_flat_map_seq (fun k => f (Z.of_nat k)) (Z.to_nat len) (Z.to_nat n) 0)
    as [Hl Hn].
  { intros i Hi. apply Hf. lia. }
  split.
  - rewrite Hl. destruct (Z.le_gt_cases 0 n) as [H0 | H0].
    + rewrite Z2Nat.inj_mul by lia. reflexivity.
    + assert (Hz : Z.to_nat n = 0%nat) by lia.
      assert (Hz' : Z.to_nat (n * len) = 0%nat) by (assert (n * len <= 0) by nia; lia).
      rewrite Hz, Hz'. reflexivity.
  - intros i j Hi Hj.
    replace (Z.to_nat (i * len + j)) with (Z.to_nat i * Z.to_nat len + Z.to_nat j)%nat
      by (rewrite Z2Nat.inj_add, Z2Nat.inj_mul by nia; reflexivity).
    rewrite Hn by lia. cbn [Nat.add]. rewrite Z2Nat.id by lia. reflexivity.
Qed.

(** Picking elements by index, all indices being valid. *)
Lemma nth_error_select {A : Type} (src : list A) (source : list Z) :
  Forall (fun i => 0 <= i /\ (Z.to_nat i < length src)%nat) source ->
  length (flat_map (fun i => match nth_error src (Z.to_nat i) with
                             | Some x => [x]
                             | None => []
                             end) source) = length source
  /\ forall k i,
      nth_error source k = Some i ->
      nth_error (flat_map (fun i => match nth_error src (Z.to_nat i) with
                                    | Some x => [x]
                                    | None => []
                                    end) source) k
      = nth_error src (Z.to_nat i).
Proof.
  induction 1 as [| i0 source [_ Hi0] _ [IHl IHn]]; cbn [flat_map].
  - split; [reflexivity |]. intros k i Hk. destruct k; discriminate.
  - destruct (nth_error src (Z.to_nat i0)) as [x |] eqn:Hx.
    2:{ apply nth_error_None in Hx. lia. }
    split; [cbn [app length]; rewrite IHl; reflexivity |].
    intros k i Hk. destruct k as [| k]; cbn [nth_error app] in *.
    + injection Hk as <-. symmetry. exact Hx.
    + apply IHn. exact Hk.
Qed.

(** [a.transpose(0, 3, 1, 2)] on one image: element (0, c, y, x) of the
    result is element (0, y, x, c) of [a]. *)
Lemma transpose_0312_layout {A : Type} (a : ndarray A) h w c :
  shape a = [1; h; w; c] ->
  0 <= h -> 0 <= w -> 0 <= c ->
  length (data a) = Z.to_nat (h * w * c) ->
  exists t,
    transpose_0312 a = inr t
    /\ shape t = [1; c; h; w]
    /\ length (data t) = Z.to_nat (c * h * w)
    /\ forall i_c i_y i_x,
        0 <= i_c < c -> 0 <= i_y < h -> 0 <= i_x < w ->
        nth_error (data t) (Z.to_nat ((i_c * h + i_y) * w + i_x))
        = nth_error (data a) (Z.to_nat ((i_y * w + i_x) * c + i_c)).
Proof.
  intros Hs Hh Hw Hc Hlen. unfold transpose_0312. rewrite Hs.
  eexists. split; [reflexivity |]. split; [reflexivity |]. cbn [data].
  set (row := fun i_c i_y => map (fun i_x => ((0 * h + i_y) * w + i_x) * c + i_c) (zrange w)).
  set (plane := fun i_c => flat_map (row i_c) (zrange h)).
  change (zrange 1) with [0]. cbn [flat_map]. rewrite app_nil_r.
  change (flat_map _ (zrange c)) with (flat_map plane (zrange c)).
  assert (Hrow : forall i_c i_y, length (row i_c i_y) = Z.to_nat w).
  { intros. unfold row. rewrite length_map. apply length_zrange. }
  assert (Hplane : forall i_c,
             length (plane i_c) = Z.to_nat (h * w)
             /\ forall i_y i_x, 0 <= i_y < h -> 0 <= i_x < w ->
                  nth_error (plane i_c) (Z.to_nat (i_y * w + i_x))
                  = Some (((0 * h + i_y) * w + i_x) * c + i_c)).
  { intros i_c.
    destruct (nth_error_flat_map_zrange (row i_c) h w Hw (fun i _ => Hrow i_c i))
      as [Hl Hn].
    split; [exact Hl |]. intros i_y i_x Hy Hx.
    unfold plane. rewrite (Hn i_y i_x Hy Hx). unfold row.
    rewrite nth_error_map, nth_error_zrange by lia. reflexivity. }
  destruct (nth_error_flat_map_zrange plane c (h * w) ltac:(nia)
              (fun i _ => proj1 (Hplane i))) as [Hl Hn].
  assert (Hvalid : Forall (fun i => 0 <= i /\ (Z.to_nat i < length (data a))%nat)
                          (flat_map plane (zrange c))).
  { apply Forall_flat_map. apply Forall_forall. intros i_c Hic. apply in_zrange in Hic.
    unfold plane. apply Forall_flat_map. apply Forall_forall. intros i_y Hiy.
    apply in_zrange in Hiy. unfold row. apply Forall_map. apply Forall_forall.
    intros i_x Hix. apply in_zrange in Hix. rewrite Hlen.
    assert (Hp : 0 <= i_y * w + i_x <= h * w - 1) by nia.
    assert (Hq : 0 <= (i_y * w + i_x) * c <= (h * w - 1) * c) by nia.
    replace ((0 * h + i_y) * w + i_x) with (i_y * w + i_x) by lia.
    split; [lia |]. apply Z2Nat.inj_lt; lia. }
  destruct (nth_error_select (data a) _ Hvalid) as [Hsl Hsn].
  split.
  - rewrite Hsl, Hl. f_equal. lia.
  - intros i_c i_y i_x Hic Hiy Hix.
    assert (Hidx : (i_c * h + i_y) * w + i_x = i_c * (h * w) + (i_y * w + i_x)) by lia.
    rewrite Hidx.
    rewrite (Hsn _ (((0 * h + i_y) * w + i_x) * c + i_c)).
    + reflexivity.
    + rewrite (Hn i_c (i_y * w + i_x) Hic ltac:(nia)).
      apply (proj2 (Hplane i_c)); assumption.
Qed.

(** The tensor of [preprocess], element by element. *)
Lemma preprocess_resized_layout image max_pixels image1 image2 w h :
  scale_image (convert ModeRGB image) max_pixels = inr image1 ->
  resize image1 (round_down_64 (im_size image1)) = inr image2 ->
  im_size image2 = (w, h) ->
  im_mode image2 = ModeRGB ->
  0 <= w -> 0 <= h ->
  length (im_data image2) = Z.to_nat (h * w * 3) ->
  exists t,
    preprocess image max_pixels = inr t
    /\ shape t = [1; 3; h; w]
    /\ length (data t) = Z.to_nat (3 * h * w)
    /\ forall c y x,
        0 <= c < 3 -> 0 <= y < h -> 0 <= x < w ->
        nth_error (data t) (Z.to_nat ((c * h + y) * w + x))
        = option_map rescale
            (nth_error (im_data image2) (Z.to_nat ((y * w + x) * 3 + c))).
Proof.
  intros Hscale Hresize Hsize Hmode Hw Hh Hlen. unfold preprocess.
  rewrite Hscale. cbn [rbind].
  unfold round_down_64 in Hresize. destruct (im_size image1) as [w1 h1].
  rewrite Hresize. cbn [rbind].
  set (a := array_map (fun x => F32.div x F32.lit_255)
                      (array_map F32.of_byte (np_array image2))).
  assert (Hshape : shape (expand_dims0 a) = [1; h; w; 3]).
  { unfold a, expand_dims0, array_map, np_array. rewrite Hsize, Hmode. reflexivity. }
  assert (Hdata : data (expand_dims0 a)
                  = map (fun x => F32.div x F32.lit_255) (map F32.of_byte (im_data image2))).
  { unfold a, expand_dims0, array_map, np_array. destruct (im_size image2). reflexivity. }
  destruct (transpose_0312_layout (expand_dims0 a) h w 3 Hshape Hh Hw ltac:(lia)
              ltac:(rewrite Hdata, !length_map; exact Hlen))
    as (t & -> & Hst & Hlt & Hnth).
  cbn [rbind]. eexists. split; [reflexivity |]. split; [exact Hst |].
  cbn [array_map data]. split; [rewrite length_map; exact Hlt |].
  intros c y x Hc Hy Hx.
  rewrite nth_error_map, (Hnth c y x Hc Hy Hx), Hdata, !nth_error_map.
  destruct (nth_error (im_data image2) (Z.to_nat ((y * w + x) * 3 + c))); reflexivity.
Qed.

(** X15. The layout of the tensor: with [image2] the image after Pillow's
    conversion and resizing, of width [w] and height [h], element
    (0, c, y, x) of the tensor is the rescaled sample of band [c] of the
    pixel in column [x] of row [y]. *)
Theorem X15_preprocess_layout image max_pixels image1 image2 w h :
  scale_image (convert ModeRGB image) max_pixels = inr image1 ->
  resize image1 (round_down_64 (im_size image1)) = inr image2 ->
  im_size image2 = (w, h) ->
  im_mode image2 = ModeRGB ->
  0 <= w -> 0 <= h ->
  length (im_data image2) = Z.to_nat (h * w * 3) ->
  exists t,
    preprocess image max_pixels = inr t
    /\ shape t = [1; 3; h; w]
    /\ length (data t) = Z.to_nat (3 * h * w)
    /\ forall c y x,
        0 <= c < 3 -> 0 <= y < h -> 0 <= x < w ->
        nth_error (data t) (Z.to_nat ((c * h + y) * w + x))
        = option_map rescale
            (nth_error (im_data image2) (Z.to_nat ((y * w + x) * 3 + c))).
Proof. exact (preprocess_resized_layout image max_pixels image1 image2 w h). Qed.

End PreprocessLayout.

(** ** Floating point: the values of rounded results *)

Section RoundingNormal.
Variables prec emax : Z.
Hypothesis prec_pos : 0 < prec.

(** Rounding a mantissa of at least [prec] bits in the normal range: the
    result is finite, its mantissa has [prec] bits, and its value exceeds
    that of the input by at most one part in [2 ^ (prec - 1)]. *)
Lemma binary_round_aux_normal sx mx ex lx :
  0 < mx ->
  prec <= Zdigits2 mx ->
  emin prec emax <= Zdigits2 mx + ex - prec ->
  Zdigits2 mx + ex + 1 <= emax ->
  exists m k,
    binary_round_aux prec emax sx mx ex lx = S754_finite sx m (ex + k)
    /\ 0 <= k <= Zdigits2 mx - prec + 1
    /\ Zdigits2 (Zpos m) = prec
    /\ Zpos m * 2 ^ k * 2 ^ (prec - 1) <= mx * (2 ^ (prec - 1) + 1).
Proof.
  intros Hm Hd Hmin Hmax.
  destruct (binary_round_aux_spec prec emax sx mx ex lx (Z.lt_le_incl _ _ Hm))
    as (m2 & Hb & _ & Heq).
  cbv zeta in *. rewrite Heq. clear Heq.
  set (d := Zdigits2 mx) in *.
  assert (Hf1 : fexp prec emax (d + ex) = d + ex - prec) by (unfold fexp; lia).
  rewrite Hf1 in *.
  replace (Z.max 0 (d + ex - prec - ex)) with (d - prec) in * by lia.
  set (n1 := d - prec) in *.
  assert (Hn1 : 0 <= n1 < d) by (unfold n1; lia).
  destruct (Zdigits2_div_pow2 mx n1 Hm Hn1) as [Hq1 Hdq1]. fold d in Hdq1.
  assert (Hm2 : 0 < m2) by lia.
  assert (Hd2 : prec <= Zdigits2 m2 <= prec + 1).
  { split.
    - replace prec with (Zdigits2 (mx / 2 ^ n1)) by (unfold n1 in *; lia).
      apply Zdigits2_mono; lia.
    - pose proof (Zdigits2_succ_le (mx / 2 ^ n1) m2 ltac:(lia) ltac:(lia)).
      unfold n1 in *. lia. }
  set (d2 := Zdigits2 m2) in *.
  assert (Hf2 : fexp prec emax (d2 + (ex + n1)) = d2 + (ex + n1) - prec)
    by (unfold fexp, n1; lia).
  rewrite Hf2.
  replace (Z.max 0 (d2 + (ex + n1) - prec - (ex + n1))) with (d2 - prec) by lia.
  set (n2 := d2 - prec).
  assert (Hn2 : 0 <= n2 < d2) by (unfold n2; lia).
  destruct (Zdigits2_div_pow2 m2 n2 Hm2 Hn2) as [Hq2 Hdq2]. fold d2 in Hdq2.
  assert (Hp1 : 0 < 2 ^ n1) by (apply Z.pow_pos_nonneg; lia).
  assert (Hp2 : 0 < 2 ^ n2) by (apply Z.pow_pos_nonneg; lia).
  destruct (m2 / 2 ^ n2) as [| m | m] eqn:Hq; try lia.
  assert (Hfit : (ex + n1 + n2 <=? emax - prec) = true)
    by (apply Z.leb_le; unfold n1, n2; lia).
  rewrite Hfit.
  exists m, (n1 + n2). rewrite Z.add_assoc.
  split; [reflexivity |]. split; [unfold n1, n2; lia |].
  split; [unfold n2 in Hdq2; lia |].
  pose proof (Z.mul_div_le m2 (2 ^ n2) Hp2) as Hle2. rewrite Hq in Hle2.
  pose proof (Z.mul_div_le mx (2 ^ n1) Hp1) as Hle1.
  pose proof (Zdigits2_bounds mx Hm) as [Hlo _]. fold d in Hlo.
  assert (Hsplit : 2 ^ (d - 1) = 2 ^ n1 * 2 ^ (prec - 1)).
  { rewrite <- Z.pow_add_r by lia. f_equal. unfold n1. lia. }
  rewrite Z.pow_add_r by lia.
  assert (Hpp : 0 < 2 ^ (prec - 1)) by (apply Z.pow_pos_nonneg; lia).
  assert (H1 : Zpos m * (2 ^ n1 * 2 ^ n2) <= mx + 2 ^ n1) by nia.
  nia.
Qed.

End RoundingNormal.

Section FloatValues.

Lemma pow2_pos e : (0 < 2 ^ e)%Q.
Proof. apply Qpower_0_lt. reflexivity. Qed.

Lemma pow2_add a b : (2 ^ (a + b) == 2 ^ a * 2 ^ b)%Q.
Proof. apply Qpower_plus. intros H. discriminate H. Qed.

Lemma pow2_inject k : 0 <= k -> (inject_Z (2 ^ k) == 2 ^ k)%Q.
Proof. intros Hk. apply (Zpower_Qpower 2 k Hk). Qed.

Lemma pow2_cancel e : 0 <= e -> (2 ^ e * 2 ^ (- e) == 1)%Q.
Proof.
  intros He. rewrite <- pow2_add. replace (e + - e) with 0 by lia. reflexivity.
Qed.

Lemma one_plus_ulp_pos : (0 < one_plus_ulp)%Q.
Proof. reflexivity. Qed.

(** The value of a binary64 result rounded in the normal range. *)
Lemma round_value sx mx ex lx :
  0 < mx ->
  53 <= Zdigits2 mx ->
  -1021 <= Zdigits2 mx + ex ->
  Zdigits2 mx + ex + 1 <= 1024 ->
  exists m e,
    binary_round_aux PyFloat.prec PyFloat.emax sx mx ex lx = S754_finite sx m e
    /\ Zdigits2 (Zpos m) = 53
    /\ ex <= e <= ex + Zdigits2 mx - 52
    /\ (inject_Z (Zpos m) * 2 ^ e <= inject_Z mx * 2 ^ ex * one_plus_ulp)%Q.
Proof.
  intros Hm Hd Hmin Hmax.
  destruct (binary_round_aux_normal PyFloat.prec PyFloat.emax prec64_pos sx mx ex lx Hm Hd
              ltac:(unfold emin, PyFloat.prec, PyFloat.emax; lia)
              ltac:(unfold PyFloat.emax; lia))
    as (m & k & Hr & Hk & Hdm & Hv).
  exists m, (ex + k). split; [exact Hr |]. split; [exact Hdm |].
  split; [unfold PyFloat.prec in Hk; lia |].
  change (2 ^ (PyFloat.prec - 1)) with 4503599627370496 in Hv.
  rewrite Zle_Qle in Hv. rewrite !inject_Z_mult, inject_Z_plus in Hv.
  rewrite (pow2_inject k) in Hv by lia.
  rewrite pow2_add.
  pose proof (pow2_pos ex) as Hpe. pose proof (pow2_pos k) as Hpk.
  set (M := inject_Z (Zpos m)) in *. set (X := inject_Z mx) in *.
  set (E := (2 ^ ex)%Q) in *. set (K := (2 ^ k)%Q) in *.
  assert (H1 : (M * K <= X * one_plus_ulp)%Q).
  { unfold one_plus_ulp.
    change (inject_Z 4503599627370496) with (4503599627370496 # 1)%Q in Hv.
    change (inject_Z 1) with 1%Q in Hv. clearbody M X K. lra. }
  clearbody M X E K. nra.
Qed.

(** [a / b] for [0 < a < b]: a normal float whose value times [b] is at
    most [a * (1 + 2^-52)]. *)
Lemma truediv_value a b :
  0 < a < b -> b < 2 ^ 106 ->
  exists m e,
    PyFloat.truediv a b = inr (S754_finite false m e)
    /\ Zdigits2 (Zpos m) = 53
    /\ -158 <= e <= -52
    /\ (F2Q (S754_finite false m e) * inject_Z b <= inject_Z a * one_plus_ulp)%Q.
Proof.
  intros [Ha Hab] Hb. destruct a as [| pa | pa], b as [| pb | pb]; try lia.
  unfold PyFloat.truediv. cbn [Z.eqb PyFloat.exact_of_Z].
  unfold PyFloat.div, SFdiv, SFdiv_core_binary. cbn [xorb].
  pose proof (Zdigits2_pos (Zpos pa) ltac:(lia)) as Hda0.
  pose proof (Zdigits2_bounds (Zpos pa) ltac:(lia)) as [Halo Hahi].
  pose proof (Zdigits2_bounds (Zpos pb) ltac:(lia)) as [Hblo Hbhi].
  pose proof (Zdigits2_mono (Zpos pa) (Zpos pb) ltac:(lia) ltac:(lia)) as Hdab.
  pose proof (Zdigits2_le_of_lt_pow2 (Zpos pb) 106 ltac:(lia) Hb) as Hdb.
  set (da := Zdigits2 (Zpos pa)) in *. set (db := Zdigits2 (Zpos pb)) in *.
  assert (He' : Z.min (fexp PyFloat.prec PyFloat.emax (da + 0 - (db + 0))) (0 - 0)
                = da - db - 53).
  { unfold fexp, emin, PyFloat.prec, PyFloat.emax. lia. }
  rewrite He'. set (e' := da - db - 53) in *.
  assert (He'neg : e' < 0) by (unfold e'; lia).
  set (m' := match 0 - 0 - e' with
             | 0 => Zpos pa
             | Zpos _ => Z.shiftl (Zpos pa) (0 - 0 - e')
             | Zneg _ => 0
             end).
  assert (Hm' : m' = Zpos pa * 2 ^ (- e')).
  { unfold m'. destruct (0 - 0 - e') as [| s | s] eqn:Hs; try lia.
    rewrite Z.shiftl_mul_pow2 by lia. f_equal. f_equal. lia. }
  clearbody m'.
  destruct (Z.div_eucl m' (Zpos pb)) as [q r] eqn:Hde.
  assert (Hq : q = m' / Zpos pb) by (unfold Z.div; rewrite Hde; reflexivity).
  assert (Hp : 0 < 2 ^ (- e')) by (apply Z.pow_pos_nonneg; lia).
  pose proof (Z.mul_div_le m' (Zpos pb) ltac:(lia)) as Hqle. rewrite <- Hq in Hqle.
  assert (Hsplit1 : 2 ^ (da - 1) * 2 ^ (- e') = 2 ^ 52 * 2 ^ db).
  { rewrite <- !Z.pow_add_r by lia. f_equal. unfold e'. lia. }
  assert (Hqlo : 2 ^ 52 <= q).
  { rewrite Hq. apply Z.div_le_lower_bound; [lia |]. rewrite Hm'.
    assert (0 < 2 ^ db) by (apply Z.pow_pos_nonneg; lia).
    clearbody da db e'. nia. }
  assert (Hqhi : q < 2 ^ (- e')).
  { rewrite Hq. apply Z.div_lt_upper_bound; [lia |]. rewrite Hm'.
    clearbody da db e'. nia. }
  pose proof (Zdigits2_gt_of_ge_pow2 q 52 ltac:(lia) Hqlo) as Hdq1.
  pose proof (Zdigits2_le_of_lt_pow2 q (- e') ltac:(lia) Hqhi) as Hdq2.
  destruct (round_value false q e' (new_location (Zpos pb) r) ltac:(lia) ltac:(lia)
              ltac:(unfold e' in *; lia) ltac:(lia))
    as (m & e & Hr & Hdm & He & Hv).
  rewrite Hr. cbn [PyFloat.is_inf].
  exists m, e. split; [reflexivity |]. split; [exact Hdm |].
  split; [unfold e' in *; lia |].
  cbn [F2Q cond_Zopp].
  assert (HqQ : (inject_Z q * inject_Z (Zpos pb) <= inject_Z (Zpos pa) * 2 ^ (- e'))%Q).
  { rewrite <- (pow2_inject (- e')) by lia. rewrite <- !inject_Z_mult.
    rewrite <- Zle_Qle. rewrite <- Hm'. lia. }
  pose proof (pow2_cancel (- e') ltac:(lia)) as Hc. rewrite Z.opp_involutive in Hc.
  pose proof (pow2_pos e') as Hpe. pose proof (pow2_pos (- e')) as Hpn.
  set (M := inject_Z (Zpos m)) in *. set (E := (2 ^ e)%Q) in *.
  set (Qz := inject_Z q) in *. set (B := inject_Z (Zpos pb)) in *.
  set (A := inject_Z (Zpos pa)) in *.
  set (P := (2 ^ e')%Q) in *. set (N := (2 ^ (- e'))%Q) in *.
  assert (HB : (0 < B)%Q) by (unfold B; rewrite <- (Zlt_Qlt 0); lia).
  assert (HA : (0 < A)%Q) by (unfold A; rewrite <- (Zlt_Qlt 0); lia).
  assert (HQz : (0 < Qz)%Q) by (unfold Qz; rewrite <- (Zlt_Qlt 0); lia).
  pose proof one_plus_ulp_pos as Hu.
  clearbody M E Qz B A P N.
  assert (H1 : (M * E * B <= Qz * B * P * one_plus_ulp)%Q) by nra.
  assert (H2 : (Qz * B * P <= A * (N * P))%Q) by nra.
  assert (H3 : (A * (N * P) == A)%Q) by (rewrite Hc; ring).
  rewrite H3 in H2. nra.
Qed.

End FloatValues.

Section FloatValues2.

Lemma inject_Z_pos n : 0 < n -> (0 < inject_Z n)%Q.
Proof. intros H. rewrite <- (Zlt_Qlt 0). exact H. Qed.

(** A positive float of 53 bits whose value is below 1 compares below
    1.0. *)
Lemma ltb_one_of_value m e :
  Zdigits2 (Zpos m) = 53 ->
  (F2Q (S754_finite false m e) < 1)%Q ->
  PyFloat.ltb (S754_finite false m e) PyFloat.one = true.
Proof.
  intros Hd Hv. cbn [F2Q cond_Zopp] in Hv.
  pose proof (Zdigits2_bounds (Zpos m) ltac:(lia)) as [Hlo _]. rewrite Hd in Hlo.
  change (2 ^ (53 - 1)) with (2 ^ 52) in Hlo.
  assert (He : e < -52).
  { destruct (Z.lt_ge_cases e (-52)) as [Hlt | Hge]; [exact Hlt | exfalso].
    assert (Hp : 1 <= 2 ^ (e + 52)).
    { assert (0 < 2 ^ (e + 52)) by (apply Z.pow_pos_nonneg; lia). lia. }
    assert (Hz : 1 * 2 ^ 52 <= Zpos m * 2 ^ (e + 52)) by nia.
    rewrite Zle_Qle, !inject_Z_mult in Hz.
    rewrite (pow2_inject (e + 52)) in Hz by lia. rewrite pow2_add in Hz.
    change (inject_Z (2 ^ 52)) with (4503599627370496 # 1)%Q in Hz.
    change (2 ^ 52)%Q with (4503599627370496 # 1)%Q in Hz.
    change (inject_Z 1) with 1%Q in Hz.
    set (M := inject_Z (Zpos m)) in *. set (E := (2 ^ e)%Q) in *.
    clearbody M E. lra. }
  unfold PyFloat.ltb, SFltb, PyFloat.one, SFcompare.
  destruct (Z.compare_spec e (-52)) as [Hc | Hc | Hc]; [lia | reflexivity | lia].
Qed.

(** [np.sqrt] of a positive normal float: a float of 53 bits whose
    square is at most the argument times [(1 + 2^-52)^2]. *)
Lemma sqrt_value m e :
  Zdigits2 (Zpos m) = 53 -> -200 <= e <= 0 ->
  exists ms es,
    PyFloat.sqrt (S754_finite false m e) = S754_finite false ms es
    /\ Zdigits2 (Zpos ms) = 53
    /\ -200 <= es <= 0
    /\ (F2Q (S754_finite false ms es) * F2Q (S754_finite false ms es)
        <= F2Q (S754_finite false m e) * (one_plus_ulp * one_plus_ulp))%Q.
Proof.
  intros Hd He. unfold PyFloat.sqrt, SFsqrt, SFsqrt_core_binary. rewrite Hd.
  pose proof (Zdigits2_bounds (Zpos m) ltac:(lia)) as [Hlo Hhi]. rewrite Hd in Hlo, Hhi.
  change (2 ^ (53 - 1)) with (2 ^ 52) in Hlo.
  assert (He' : Z.min (fexp PyFloat.prec PyFloat.emax (Z.div2 (53 + e + 1))) (Z.div2 e)
                = Z.div2 e - 26).
  { rewrite !Z.div2_div. unfold fexp, emin, PyFloat.prec, PyFloat.emax.
    Z.div_mod_to_equations. lia. }
  rewrite He'. set (e' := Z.div2 e - 26).
  assert (He2 : 52 <= e - 2 * e' <= 53).
  { unfold e'. rewrite Z.div2_div. Z.div_mod_to_equations. lia. }
  assert (He'r : -126 <= e' <= -26).
  { unfold e'. rewrite Z.div2_div. Z.div_mod_to_equations. lia. }
  clearbody e'.
  set (m' := match e - 2 * e' with
             | 0 => Zpos m
             | Zpos _ => Z.shiftl (Zpos m) (e - 2 * e')
             | Zneg _ => 0
             end).
  assert (Hm' : m' = Zpos m * 2 ^ (e - 2 * e')).
  { unfold m'. destruct (e - 2 * e') as [| s | s] eqn:Hs; try lia.
    rewrite Z.shiftl_mul_pow2 by lia. reflexivity. }
  clearbody m'.
  pose proof (Z.sqrtrem_sqrt m') as Hsq.
  destruct (Z.sqrtrem m') as [q r]. cbn [fst] in Hsq. subst q.
  assert (Hp52 : 2 ^ 52 <= 2 ^ (e - 2 * e')) by (apply Z.pow_le_mono_r; lia).
  assert (Hp53 : 2 ^ (e - 2 * e') <= 2 ^ 53) by (apply Z.pow_le_mono_r; lia).
  assert (Hm'lo : 2 ^ 52 * 2 ^ 52 <= m') by (rewrite Hm'; nia).
  assert (Hm'hi : m' < 2 ^ 53 * 2 ^ 53) by (rewrite Hm'; nia).
  assert (Hqlo : 2 ^ 52 <= Z.sqrt m').
  { rewrite <- (Z.sqrt_square (2 ^ 52)) by lia. apply Z.sqrt_le_mono. exact Hm'lo. }
  assert (Hqhi : Z.sqrt m' < 2 ^ 53).
  { apply Z.sqrt_lt_square; lia. }
  pose proof (Z.sqrt_spec m' ltac:(lia)) as [Hsq _].
  pose proof (Zdigits2_gt_of_ge_pow2 (Z.sqrt m') 52 ltac:(lia) Hqlo) as Hdq1.
  pose proof (Zdigits2_le_of_lt_pow2 (Z.sqrt m') 53 ltac:(lia) Hqhi) as Hdq2.
  set (l := if r =? 0 then loc_Exact
            else loc_Inexact (if r <=? Z.sqrt m' then Lt else Gt)).
  destruct (round_value false (Z.sqrt m') e' l ltac:(lia) ltac:(lia) ltac:(lia) ltac:(lia))
    as (ms & es & Hr & Hdm & Hes & Hv).
  rewrite Hr. exists ms, es. split; [reflexivity |]. split; [exact Hdm |].
  split; [lia |].
  cbn [F2Q cond_Zopp].
  assert (HqQ : (inject_Z (Z.sqrt m') * inject_Z (Z.sqrt m')
                 <= inject_Z (Zpos m) * 2 ^ (e - 2 * e'))%Q).
  { rewrite <- (pow2_inject (e - 2 * e')) by lia. rewrite <- !inject_Z_mult.
    rewrite <- Zle_Qle. rewrite <- Hm'. exact Hsq. }
  assert (Hsplit : (2 ^ e == 2 ^ (e - 2 * e') * (2 ^ e' * 2 ^ e'))%Q).
  { rewrite <- !pow2_add. replace (e - 2 * e' + (e' + e')) with e by lia. reflexivity. }
  rewrite Hsplit.
  pose proof (pow2_pos e') as Hpe. pose proof (pow2_pos es) as Hpes.
  pose proof (pow2_pos (e - 2 * e')) as Hps.
  pose proof (inject_Z_pos (Zpos ms) ltac:(lia)) as HMs.
  pose proof (inject_Z_pos (Z.sqrt m') ltac:(lia)) as HQz.
  pose proof (inject_Z_pos (Zpos m) ltac:(lia)) as HM.
  pose proof one_plus_ulp_pos as Hu.
  set (Ms := inject_Z (Zpos ms)) in *. set (Es := (2 ^ es)%Q) in *.
  set (Qz := inject_Z (Z.sqrt m')) in *. set (E' := (2 ^ e')%Q) in *.
  set (M := inject_Z (Zpos m)) in *. set (S2 := (2 ^ (e - 2 * e'))%Q) in *.
  set (u := one_plus_ulp) in *.
  clearbody Ms Es Qz E' M S2 u.
  set (x := (Ms * Es)%Q) in *. set (y := (Qz * E' * u)%Q) in *.
  assert (Hx : (0 < x)%Q) by (unfold x; nra).
  assert (Hxy : (x * x <= y * y)%Q) by nra.
  assert (Hy : (y * y == Qz * Qz * (E' * E') * (u * u))%Q) by (unfold y; ring).
  rewrite Hy in Hxy.
  assert (HE : (0 < E' * E')%Q) by nra.
  assert (HU : (0 < u * u)%Q) by nra.
  assert (H1 : (Qz * Qz * (E' * E') <= M * S2 * (E' * E'))%Q) by nra.
  assert (H2 : (Qz * Qz * (E' * E') * (u * u) <= M * S2 * (E' * E') * (u * u))%Q) by nra.
  assert (H3 : (M * (S2 * (E' * E')) * (u * u) == M * S2 * (E' * E') * (u * u))%Q) by ring.
  rewrite H3. lra.
Qed.

(** [w * s] for an [int] [0 < w < 2^53] and a positive normal float [s]:
    at most the exact product times [1 + 2^-52]. *)
Lemma mul_value w ms es :
  0 < w < 2 ^ 53 -> Zdigits2 (Zpos ms) = 53 -> -200 <= es <= 0 ->
  exists m e,
    PyFloat.mul (PyFloat.of_Z w) (S754_finite false ms es) = S754_finite false m e
    /\ (F2Q (S754_finite false m e)
        <= inject_Z w * F2Q (S754_finite false ms es) * one_plus_ulp)%Q.
Proof.
  intros Hw Hds Hes.
  destruct (of_Z_small w Hw) as (mx & ex & -> & Hex & Hmx & Hdx).
  unfold PyFloat.mul, SFmul. cbn [xorb]. rewrite Pos2Z.inj_mul.
  pose proof (Zdigits2_bounds (Zpos mx) ltac:(lia)) as [Hxlo Hxhi]. rewrite Hdx in Hxlo, Hxhi.
  pose proof (Zdigits2_bounds (Zpos ms) ltac:(lia)) as [Hslo Hshi]. rewrite Hds in Hslo, Hshi.
  change (2 ^ (53 - 1)) with (2 ^ 52) in *.
  set (P := Zpos mx * Zpos ms) in *.
  assert (HPlo : 2 ^ 104 <= P) by (change (2 ^ 104) with (2 ^ 52 * 2 ^ 52); unfold P; nia).
  assert (HPhi : P < 2 ^ 106) by (change (2 ^ 106) with (2 ^ 53 * 2 ^ 53); unfold P; nia).
  pose proof (Zdigits2_gt_of_ge_pow2 P 104 ltac:(lia) HPlo) as Hd1.
  pose proof (Zdigits2_le_of_lt_pow2 P 106 ltac:(lia) HPhi) as Hd2.
  destruct (round_value false P (ex + es) loc_Exact ltac:(lia) ltac:(lia) ltac:(lia)
              ltac:(lia))
    as (m & e & Hr & Hdm & He & Hv).
  rewrite Hr. exists m, e. split; [reflexivity |].
  cbn [F2Q cond_Zopp].
  eapply Qle_trans; [exact Hv |].
  unfold P. rewrite inject_Z_mult, Hmx, inject_Z_mult.
  rewrite (pow2_inject (- ex)) by lia. rewrite pow2_add.
  pose proof (pow2_cancel (- ex) ltac:(lia)) as Hc. rewrite Z.opp_involutive in Hc.
  set (W := inject_Z w). set (N := (2 ^ (- ex))%Q) in *. set (X := (2 ^ ex)%Q) in *.
  set (Ms := inject_Z (Zpos ms)). set (Es := (2 ^ es)%Q). set (u := one_plus_ulp).
  assert (Heq : (W * N * Ms * (X * Es) * u == W * (Ms * Es) * u * (N * X))%Q) by ring.
  rewrite Heq, Hc. apply Qle_lteq. right. ring.
Qed.

(** [int(x)] for a positive float is at most the value of [x]. *)
Lemma to_int_value m e :
  exists k,
    PyFloat.to_int (S754_finite false m e) = inr k
    /\ 0 <= k
    /\ (inject_Z k <= F2Q (S754_finite false m e))%Q.
Proof.
  unfold PyFloat.to_int, PyFloat.trunc. cbn [cond_Zopp F2Q].
  destruct (0 <=? e) eqn:Hs.
  - apply Z.leb_le in Hs. rewrite Z.shiftl_mul_pow2 by lia.
    eexists. split; [reflexivity |].
    assert (0 < 2 ^ e) by (apply Z.pow_pos_nonneg; lia).
    split; [nia |].
    rewrite inject_Z_mult, (pow2_inject e) by lia. apply Qle_refl.
  - apply Z.leb_gt in Hs. rewrite Z.shiftr_div_pow2 by lia.
    eexists. split; [reflexivity |].
    assert (Hp : 0 < 2 ^ (- e)) by (apply Z.pow_pos_nonneg; lia).
    split; [apply Z.div_pos; lia |].
    pose proof (Z.mul_div_le (Zpos m) (2 ^ (- e)) Hp) as Hle.
    rewrite Z.mul_comm in Hle.
    rewrite Zle_Qle, inject_Z_mult in Hle. rewrite (pow2_inject (- e)) in Hle by lia.
    pose proof (pow2_cancel (- e) ltac:(lia)) as Hc. rewrite Z.opp_involutive in Hc.
    pose proof (pow2_pos e) as Hpe.
    set (K := inject_Z (Zpos m / 2 ^ (- e))) in *. set (M := inject_Z (Zpos m)) in *.
    set (N := (2 ^ (- e))%Q) in *. set (E := (2 ^ e)%Q) in *.
    clearbody K M N E.
    assert (H1 : (K * N * E <= M * E)%Q) by nra.
    assert (H2 : (K * N * E == K * (N * E))%Q) by ring.
    rewrite H2, Hc in H1. lra.
Qed.

End FloatValues2.

(** ** The pixel budget of [scale_image] *)

Section ScaleBudget.

Lemma one_plus_ulp_pow5 :
  (one_plus_ulp * one_plus_ulp * one_plus_ulp * one_plus_ulp * one_plus_ulp
   <= 1 + (6 # 4503599627370496))%Q.
Proof. apply Qle_bool_imp_le. vm_compute. reflexivity. Qed.

(** Five roundings do not carry a budget below 2^49 to the next
    integer. *)
Lemma budget_margin (M U : Q) :
  (0 <= M)%Q -> (M < 562949953421312 # 1)%Q ->
  (0 <= U)%Q -> (U <= 1 + (6 # 4503599627370496))%Q ->
  (M * U < M + 1)%Q.
Proof. intros HM Hlt HU Hle. nra. Qed.

(** A budget of zero: the scale is [0.0] and both dimensions become 0. *)
Lemma scaled_size_zero_budget w h :
  0 < w < 2 ^ 53 -> 0 < h < 2 ^ 53 ->
  scaled_size 0 (w, h) = inr (Some (0, 0)).
Proof.
  intros Hw Hh. unfold scaled_size, PyFloat.truediv.
  assert (Hb : 0 < w * h) by nia.
  destruct (w * h) as [| b | b] eqn:Hwh; try lia.
  cbn [Z.eqb PyFloat.exact_of_Z PyFloat.div SFdiv xorb PyFloat.is_inf rbind].
  cbn [PyFloat.sqrt SFsqrt].
  change (PyFloat.ltb (S754_zero false) PyFloat.one) with true. cbv iota.
  unfold PyFloat.int_mul. rewrite (of_int_small w Hw), (of_int_small h Hh).
  destruct (of_Z_small w Hw) as (mw & ew & -> & _).
  destruct (of_Z_small h Hh) as (mh & eh & -> & _).
  reflexivity.
Qed.

(** A positive budget below the area: the image is resized, to an area
    within the budget. *)
Lemma scaled_size_shrinks max_pixels w h :
  0 < w < 2 ^ 53 -> 0 < h < 2 ^ 53 ->
  0 < max_pixels < 2 ^ 49 -> max_pixels < w * h ->
  exists w' h',
    scaled_size max_pixels (w, h) = inr (Some (w', h'))
    /\ 0 <= w' /\ 0 <= h' /\ w' * h' <= max_pixels.
Proof.
  intros Hw Hh HM Hlt.
  assert (Hb : w * h < 2 ^ 106).
  { change (2 ^ 106) with (2 ^ 53 * 2 ^ 53). nia. }
  destruct (truediv_value max_pixels (w * h) ltac:(lia) Hb)
    as (mq & eq & Hq & Hdq & Heq & Hvq).
  destruct (sqrt_value mq eq Hdq ltac:(lia)) as (ms & es & Hs & Hds & Hes & Hvs).
  destruct (mul_value w ms es Hw Hds Hes) as (m1 & e1 & Hm1 & Hv1).
  destruct (mul_value h ms es Hh Hds Hes) as (m2 & e2 & Hm2 & Hv2).
  destruct (to_int_value m1 e1) as (k1 & Hk1 & Hk1pos & Hvk1).
  destruct (to_int_value m2 e2) as (k2 & Hk2 & Hk2pos & Hvk2).
  (* the values, as rationals *)
  pose proof one_plus_ulp_pos as Hu. pose proof one_plus_ulp_pow5 as Hu5.
  assert (HS : (0 < F2Q (S754_finite false ms es))%Q).
  { cbn [F2Q cond_Zopp]. pose proof (pow2_pos es).
    pose proof (inject_Z_pos (Zpos ms) ltac:(lia)). nra. }
  assert (HQ : (0 < F2Q (S754_finite false mq eq))%Q).
  { cbn [F2Q cond_Zopp]. pose proof (pow2_pos eq).
    pose proof (inject_Z_pos (Zpos mq) ltac:(lia)). nra. }
  pose proof (inject_Z_pos w ltac:(lia)) as HW.
  pose proof (inject_Z_pos h ltac:(lia)) as HH.
  pose proof (inject_Z_pos max_pixels ltac:(lia)) as HMq.
  assert (HK1 : (0 <= inject_Z k1)%Q) by (rewrite <- (Zle_Qle 0); exact Hk1pos).
  assert (HK2 : (0 <= inject_Z k2)%Q) by (rewrite <- (Zle_Qle 0); exact Hk2pos).
  assert (HMlt : (inject_Z max_pixels < 562949953421312 # 1)%Q).
  { change (562949953421312 # 1)%Q with (inject_Z (2 ^ 49)). rewrite <- Zlt_Qlt. lia. }
  assert (HB : (inject_Z max_pixels + 1 <= inject_Z w * inject_Z h)%Q).
  { change 1%Q with (inject_Z 1). rewrite <- inject_Z_plus, <- inject_Z_mult, <- Zle_Qle. lia. }
  rewrite inject_Z_mult in Hvq.
  set (S := F2Q (S754_finite false ms es)) in *.
  set (Qv := F2Q (S754_finite false mq eq)) in *.
  set (P1 := F2Q (S754_finite false m1 e1)) in *.
  set (P2 := F2Q (S754_finite false m2 e2)) in *.
  set (W := inject_Z w) in *. set (H := inject_Z h) in *.
  set (K1 := inject_Z k1) in *. set (K2 := inject_Z k2) in *.
  set (Mq := inject_Z max_pixels) in *. set (u := one_plus_ulp) in *.
  assert (Hu1 : (1 <= u)%Q) by (unfold u, one_plus_ulp; apply Qle_bool_imp_le; reflexivity).
  assert (HSB : (S * S * (W * H) <= Mq * (u * u * u))%Q).
  { clearbody S Qv W H Mq u.
    assert (HWH : (0 < W * H)%Q) by nra.
    assert (Huu : (0 < u * u)%Q) by nra.
    assert (H1 : (S * S * (W * H) <= Qv * (u * u) * (W * H))%Q) by nra.
    assert (H2 : (Qv * (W * H) * (u * u) <= Mq * u * (u * u))%Q) by nra.
    assert (H3 : (Qv * (u * u) * (W * H) == Qv * (W * H) * (u * u))%Q) by ring.
    assert (H4 : (Mq * u * (u * u) == Mq * (u * u * u))%Q) by ring.
    rewrite H3 in H1. rewrite H4 in H2. lra. }
  assert (HU3 : (u * u * u <= u * u * u * u * u)%Q).
  { clearbody u. assert (0 < u * u * u)%Q by nra. assert (1 <= u * u)%Q by nra.
    assert (Hu5eq : (u * u * u * u * u == u * u * u * (u * u))%Q) by ring.
    rewrite Hu5eq. nra. }
  assert (HS1 : (S < 1)%Q).
  { assert (Hm3 : (Mq * (u * u * u) < Mq + 1)%Q).
    { apply budget_margin; [lra | exact HMlt | | lra].
      clearbody u. assert (0 < u * u)%Q by nra. nra. }
    clearbody S Qv W H Mq u K1 K2 P1 P2.
    destruct (Qlt_le_dec S 1) as [Hl | Hg]; [exact Hl | exfalso].
    assert (1 <= S * S)%Q by nra.
    assert (W * H <= S * S * (W * H))%Q by nra.
    lra. }
  pose proof (ltb_one_of_value ms es Hds HS1) as Hltb.
  (* the computation *)
  unfold scaled_size. rewrite Hq. cbn [rbind]. rewrite Hs, Hltb.
  unfold PyFloat.int_mul. rewrite (of_int_small w Hw), (of_int_small h Hh).
  cbn [rbind]. rewrite Hm1, Hm2, Hk1, Hk2. cbn [rbind].
  exists k1, k2. split; [reflexivity |]. split; [exact Hk1pos |]. split; [exact Hk2pos |].
  (* the area *)
  assert (HKK : (K1 * K2 < Mq + 1)%Q).
  { assert (Hm5 : (Mq * (u * u * u * u * u) < Mq + 1)%Q).
    { apply budget_margin; [lra | exact HMlt | | exact Hu5].
      clearbody u. assert (0 < u * u * u)%Q by nra. lra. }
    clearbody S Qv W H Mq u K1 K2 P1 P2.
    assert (HP1 : (K1 <= W * S * u)%Q) by lra.
    assert (HP2 : (K2 <= H * S * u)%Q) by lra.
    assert (HWS : (0 < W * S * u)%Q).
    { assert (0 < W * S)%Q by nra. nra. }
    assert (HHS : (0 < H * S * u)%Q).
    { assert (0 < H * S)%Q by nra. nra. }
    assert (H1 : (K1 * K2 <= W * S * u * (H * S * u))%Q) by nra.
    assert (H2 : (W * S * u * (H * S * u) == S * S * (W * H) * (u * u))%Q) by ring.
    assert (Huu : (0 < u * u)%Q) by nra.
    assert (H3 : (S * S * (W * H) * (u * u) <= Mq * (u * u * u) * (u * u))%Q) by nra.
    assert (H4 : (Mq * (u * u * u) * (u * u) == Mq * (u * u * u * u * u))%Q) by ring.
    rewrite H2 in H1. rewrite H4 in H3. lra. }
  unfold K1, K2, Mq in HKK. change 1%Q with (inject_Z 1) in HKK.
  rewrite <- inject_Z_mult, <- inject_Z_plus, <- Zlt_Qlt in HKK. lia.
Qed.

Context {pil : PIL}.

(** What [scale_image] returns under a budget [0 <= max_pixels < 2^49]. *)
Lemma scale_image_result (spec : PILSpec pil) image max_pixels image' :
  0 < fst (im_size image) < 2 ^ 53 ->
  0 < snd (im_size image) < 2 ^ 53 ->
  0 <= max_pixels < 2 ^ 49 ->
  scale_image image max_pixels = inr image' ->
  0 <= fst (im_size image')
  /\ 0 <= snd (im_size image')
  /\ im_mode image' = im_mode image
  /\ pixel_count image' <= max_pixels.
Proof.
  intros Hw Hh HM. rewrite scale_image_scaled_size. unfold pixel_count.
  destruct (im_size image) as [w h] eqn:Hsize. cbn [fst snd] in Hw, Hh.
  destruct (Z.lt_ge_cases max_pixels (w * h)) as [Hlt | Hge].
  - destruct (Z.eq_dec max_pixels 0) as [-> | Hnz].
    + rewrite (scaled_size_zero_budget w h Hw Hh). intros Hr.
      rewrite (resize_size _ _ _ Hr), (resize_mode _ _ _ Hr). cbn [fst snd].
      repeat split; lia.
    + destruct (scaled_size_shrinks max_pixels w h Hw Hh ltac:(lia) Hlt)
        as (w' & h' & -> & Hw' & Hh' & Harea).
      intros Hr. rewrite (resize_size _ _ _ Hr), (resize_mode _ _ _ Hr). cbn [fst snd].
      repeat split; assumption.
  - destruct (scaled_size_within_budget max_pixels w h ltac:(nia)) as [-> | [_ ->]].
    + intros Hr. injection Hr as <-. rewrite Hsize. cbn [fst snd].
      repeat split; lia.
    + discriminate.
Qed.

(** X16. The contract of [scale_image] (line 21), for an image of positive
    width and height below 2^53 and a budget [0 <= max_pixels < 2^49]:
    an image that [scale_image] returns has at most [max_pixels]
    pixels. *)
Theorem X16_scale_image_meets_budget (spec : PILSpec pil) image max_pixels image' :
  0 < fst (im_size image) < 2 ^ 53 ->
  0 < snd (im_size image) < 2 ^ 53 ->
  0 <= max_pixels < 2 ^ 49 ->
  scale_image image max_pixels = inr image' ->
  pixel_count image' <= max_pixels.
Proof.
  intros Hw Hh HM Hs.
  destruct (scale_image_result spec image max_pixels image' Hw Hh HM Hs) as (_ & _ & _ & Ha).
  exact Ha.
Qed.

(** X17. The tensor of [preprocess] covers at most [max_pixels] pixels, for
    an image of positive width and height below 2^53 and a budget
    [0 <= max_pixels < 2^49]. *)
Theorem X17_preprocess_meets_budget (spec : PILSpec pil) image max_pixels t :
  0 < fst (im_size image) < 2 ^ 53 ->
  0 < snd (im_size image) < 2 ^ 53 ->
  0 <= max_pixels < 2 ^ 49 ->
  preprocess image max_pixels = inr t ->
  exists h w,
    shape t = [1; 3; h; w] /\ 0 <= h /\ 0 <= w /\ h * w <= max_pixels.
Proof.
  intros Hw Hh HM Hp.
  destruct (preprocess_inversion image max_pixels t Hp) as (image1 & image2 & Hs & Hr).
  rewrite <- (convert_size ModeRGB image) in Hw, Hh.
  destruct (scale_image_result spec (convert ModeRGB image) max_pixels image1 Hw Hh HM Hs)
    as (Hw1 & Hh1 & Hmode1 & Harea).
  rewrite convert_mode in Hmode1.
  pose proof (resize_size _ _ _ Hr) as Hsize2.
  pose proof (resize_mode _ _ _ Hr) as Hmode2. rewrite Hmode1 in Hmode2.
  unfold pixel_count in Harea.
  destruct (im_size image1) as [w1 h1] eqn:Hsz1. cbn [fst snd] in Hw1, Hh1, Harea.
  assert (Hr' : resize image1 (round_down_64 (im_size image1)) = inr image2)
    by (rewrite Hsz1; exact Hr).
  unfold round_down_64 in Hsize2.
  destruct (preprocess_resized image max_pixels image1 image2 _ _ Hs Hr' Hsize2 Hmode2)
    as (t' & Hp' & Hshape & _).
  rewrite Hp in Hp'. injection Hp' as <-.
  exists (h1 - h1 mod 64), (w1 - w1 mod 64).
  split; [exact Hshape |].
  pose proof (round_down_64_range w1 Hw1).
  pose proof (round_down_64_range h1 Hh1).
  split; [lia |]. split; [lia |]. nia.
Qed.

End ScaleBudget.

(** ** A negative budget *)

Section NegativeBudget.

(** [a / b] for a negative [a] and [0 < b < 2^106]: a negative float, or
    OverflowError, which takes [a <= - 2^1023]. *)
Lemma truediv_negative a b :
  a < 0 -> 0 < b < 2 ^ 106 ->
  (exists m e, PyFloat.truediv a b = inr (S754_finite true m e))
  \/ (a <= - 2 ^ 1023 /\ PyFloat.truediv a b = inl OverflowError).
Proof.
  intros Ha [Hb Hb106]. destruct a as [| pa | pa], b as [| pb | pb]; try lia.
  unfold PyFloat.truediv. cbn [Z.eqb PyFloat.exact_of_Z].
  unfold PyFloat.div, SFdiv, SFdiv_core_binary. cbn [xorb].
  pose proof (Zdigits2_pos (Zpos pa) ltac:(lia)) as Hda0.
  pose proof (Zdigits2_pos (Zpos pb) ltac:(lia)) as Hdb0.
  pose proof (Zdigits2_bounds (Zpos pa) ltac:(lia)) as [Halo Hahi].
  pose proof (Zdigits2_bounds (Zpos pb) ltac:(lia)) as [Hblo Hbhi].
  pose proof (Zdigits2_le_of_lt_pow2 (Zpos pb) 106 ltac:(lia) Hb106) as Hdb.
  set (da := Zdigits2 (Zpos pa)) in *. set (db := Zdigits2 (Zpos pb)) in *.
  assert (He' : Z.min (fexp PyFloat.prec PyFloat.emax (da + 0 - (db + 0))) (0 - 0)
                = Z.min (da - db - 53) 0).
  { unfold fexp, emin, PyFloat.prec, PyFloat.emax. lia. }
  rewrite He'. set (e' := Z.min (da - db - 53) 0) in *.
  assert (He'r : -158 <= e' <= 0) by (unfold e'; lia).
  assert (He'd : db + 53 - da <= - e') by (unfold e'; lia).
  assert (He'c : e' = da - db - 53 \/ e' = 0) by (unfold e'; lia).
  set (m' := match 0 - 0 - e' with
             | 0 => Zpos pa
             | Zpos _ => Z.shiftl (Zpos pa) (0 - 0 - e')
             | Zneg _ => 0
             end).
  assert (Hm' : m' = Zpos pa * 2 ^ (- e')).
  { unfold m'. destruct (0 - 0 - e') as [| s | s] eqn:Hs; try lia.
    - replace (- e') with 0 by lia. rewrite Z.pow_0_r. lia.
    - rewrite Z.shiftl_mul_pow2 by lia. f_equal. f_equal. lia. }
  clearbody m' e' da db.
  destruct (Z.div_eucl m' (Zpos pb)) as [q r] eqn:Hde.
  assert (Hq : q = m' / Zpos pb) by (unfold Z.div; rewrite Hde; reflexivity).
  assert (Hp : 0 < 2 ^ (- e')) by (apply Z.pow_pos_nonneg; lia).
  pose proof (Z.mul_div_le m' (Zpos pb) ltac:(lia)) as Hqle. rewrite <- Hq in Hqle.
  assert (Hqlo : 2 ^ 52 <= q).
  { rewrite Hq. apply Z.div_le_lower_bound; [lia |]. rewrite Hm'.
    assert (0 < 2 ^ db) by (apply Z.pow_pos_nonneg; lia).
    assert (0 < 2 ^ (da - 1)) by (apply Z.pow_pos_nonneg; lia).
    destruct (Z.le_gt_cases da (db + 53)) as [Hc | Hc].
    - assert (Hmono : 2 ^ (db + 53 - da) <= 2 ^ (- e')) by (apply Z.pow_le_mono_r; lia).
      assert (Hsplit : 2 ^ (da - 1) * 2 ^ (db + 53 - da) = 2 ^ 52 * 2 ^ db).
      { rewrite <- !Z.pow_add_r by lia. f_equal. lia. }
      nia.
    - assert (Hmono : 2 ^ (52 + db) <= 2 ^ (da - 1)) by (apply Z.pow_le_mono_r; lia).
      rewrite Z.pow_add_r in Hmono by lia. nia. }
  pose proof (Zdigits2_gt_of_ge_pow2 q 52 ltac:(lia) Hqlo) as Hdq1.
  destruct (binary_round_aux_magnitude PyFloat.prec PyFloat.emax prec64_pos
              true q e' (new_location (Zpos pb) r) ltac:(lia)
              ltac:(unfold emin, PyFloat.prec, PyFloat.emax; lia))
    as [Hinf | (m & e & -> & _)].
  - right. rewrite Hinf. split; [| reflexivity].
    destruct (Z.lt_ge_cases (Zpos pa) (2 ^ 1023)) as [Hlt | Hge]; [exfalso | lia].
    pose proof (Zdigits2_le_of_lt_pow2 (Zpos pa) 1023 ltac:(lia) Hlt) as Hda.
    assert (Hda' : Zdigits2 (Zpos pa) = da).
    { (* recover the digit count from its bounds *)
      pose proof (Zdigits2_bounds (Zpos pa) ltac:(lia)) as [Hl Hh].
      pose proof (Zdigits2_pos (Zpos pa) ltac:(lia)).
      destruct (Z.lt_trichotomy (Zdigits2 (Zpos pa)) da) as [Hc | [Hc | Hc]];
        [exfalso | exact Hc | exfalso].
      - assert (2 ^ Zdigits2 (Zpos pa) <= 2 ^ (da - 1)) by (apply Z.pow_le_mono_r; lia). lia.
      - assert (2 ^ da <= 2 ^ (Zdigits2 (Zpos pa) - 1)) by (apply Z.pow_le_mono_r; lia). lia. }
    rewrite Hda' in Hda.
    assert (Hdq : Zdigits2 q <= da - e' - db + 1).
    { apply Zdigits2_le_of_lt_pow2; [lia |].
      assert (Hpb : 0 < 2 ^ (db - 1)) by (apply Z.pow_pos_nonneg; lia).
      assert (Hsplit : 2 ^ (da - e' - db + 1) * 2 ^ (db - 1) = 2 ^ da * 2 ^ (- e')).
      { rewrite <- !Z.pow_add_r by lia. f_equal. lia. }
      assert (q * 2 ^ (db - 1) < 2 ^ (da - e' - db + 1) * 2 ^ (db - 1)) by nia.
      nia. }
    revert Hinf.
    apply (binary_round_aux_no_overflow PyFloat.prec PyFloat.emax prec64_pos
             true q e' (new_location (Zpos pb) r) (PyFloat.emax - PyFloat.prec) true);
      unfold emin, PyFloat.prec, PyFloat.emax; lia.
  - left. exists m, e. reflexivity.
Qed.

Context {pil : PIL}.

(** X18. A negative budget switches the scaling off: [np.sqrt] of the
    negative quotient is NaN, which is not below 1.0, and the image is
    returned as it is. A budget of [- 2^1023] or below can make the
    quotient of line 23 raise OverflowError instead. *)
Theorem X18_scale_image_negative_budget image max_pixels :
  0 < fst (im_size image) < 2 ^ 53 ->
  0 < snd (im_size image) < 2 ^ 53 ->
  max_pixels < 0 ->
  scale_image image max_pixels = inr image
  \/ (max_pixels <= - 2 ^ 1023
      /\ scale_image image max_pixels = inl OverflowError).
Proof.
  intros Hw Hh HM. unfold scale_image.
  destruct (im_size image) as [w h]. cbn [fst snd] in Hw, Hh.
  assert (Hb : 0 < w * h < 2 ^ 106).
  { change (2 ^ 106) with (2 ^ 53 * 2 ^ 53). nia. }
  destruct (truediv_negative max_pixels (w * h) HM Hb) as [(m & e & ->) | [Hge ->]].
  - left. reflexivity.
  - right. split; [exact Hge | reflexivity].
Qed.

End NegativeBudget.

(** ** The result of [preprocess] *)

Section PreprocessResult.
Context {pil : PIL}.

(** For an image of positive width and height and a budget within the
    float range, the size computations of [scale_image] go through, and a
    new size is no larger than the old. *)
Lemma scaled_size_defined max_pixels w h :
  0 < w < 2 ^ 53 -> 0 < h < 2 ^ 53 ->
  - 2 ^ 1023 < max_pixels < 2 ^ 1023 ->
  exists scaled,
    scaled_size max_pixels (w, h) = inr scaled
    /\ match scaled with
       | Some (w', h') => 0 <= w' <= w /\ 0 <= h' <= h
       | None => True
       end.
Proof.
  intros Hw Hh HM.
  assert (Hb : 0 < w * h < 2 ^ 106).
  { change (2 ^ 106) with (2 ^ 53 * 2 ^ 53). nia. }
  assert (Hle : forall scaled,
             scaled_size max_pixels (w, h) = inr scaled ->
             match scaled with
             | Some (w', h') => 0 <= w' <= w /\ 0 <= h' <= h
             | None => True
             end).
  { intros [[w' h'] |] Hs; [| exact I].
    exact (scaled_size_le max_pixels w h w' h' Hw Hh Hs). }
  assert (Hex : exists scaled, scaled_size max_pixels (w, h) = inr scaled).
  { destruct (Z.lt_ge_cases max_pixels (w * h)) as [Hlt | Hge].
    - destruct (Z.lt_trichotomy max_pixels 0) as [Hneg | [-> | Hpos]].
      + unfold scaled_size.
        destruct (truediv_negative max_pixels (w * h) Hneg Hb) as [(m & e & ->) | [Hbig _]];
          [| lia].
        eexists. reflexivity.
      + rewrite (scaled_size_zero_budget w h Hw Hh). eauto.
      + unfold scaled_size.
        destruct (truediv_value max_pixels (w * h) ltac:(lia) ltac:(lia))
          as (m & e & -> & _).
        cbn [rbind].
        destruct (PyFloat.ltb (PyFloat.sqrt (S754_finite false m e)) PyFloat.one) eqn:Hlt1;
          [| eauto].
        destruct (scaled_dimension w _ Hw Hlt1) as (w1 & -> & _).
        destruct (scaled_dimension h _ Hh Hlt1) as (h1 & -> & _).
        cbn [rbind]. eauto.
    - destruct (scaled_size_within_budget max_pixels w h ltac:(lia)) as [-> | [Hbig _]];
        [eauto | lia]. }
  destruct Hex as [scaled Hs]. exists scaled. split; [exact Hs | exact (Hle scaled Hs)].
Qed.

(** What [preprocess] returns once the sizes are known, under Pillow's
    contract on the samples of a resized image: a tensor with one element
    for each sample, each within [-1, 1]. *)
Lemma preprocess_resized_data (spec : PILSpec pil) (dspec : PILDataSpec pil)
      image max_pixels image1 image2 w h :
  scale_image (convert ModeRGB image) max_pixels = inr image1 ->
  resize image1 (round_down_64 (im_size image1)) = inr image2 ->
  round_down_64 (im_size image1) = (w, h) ->
  im_mode image1 = ModeRGB ->
  0 <= w -> 0 <= h ->
  exists t,
    preprocess image max_pixels = inr t
    /\ shape t = [1; 3; h; w]
    /\ length (data t) = Z.to_nat (3 * h * w)
    /\ Forall (fun x => in_unit_range x = true) (data t).
Proof.
  intros Hs Hr Hround Hmode1 Hw Hh.
  pose proof (resize_size _ _ _ Hr) as Hsize2. rewrite Hround in Hsize2.
  pose proof (resize_mode _ _ _ Hr) as Hmode2. rewrite Hmode1 in Hmode2.
  pose proof (resize_data _ _ _ Hr) as Hlen.
  rewrite Hround, Hmode2 in Hlen. cbn [fst snd band_count] in Hlen.
  destruct (preprocess_resized image max_pixels image1 image2 w h Hs Hr Hsize2 Hmode2)
    as (t & Hp & Hshape & Hrange).
  destruct (preprocess_resized_layout image max_pixels image1 image2 w h Hs Hr Hsize2 Hmode2
              Hw Hh Hlen)
    as (t' & Hp' & _ & Hl & _).
  rewrite Hp in Hp'. injection Hp' as <-.
  exists t. auto.
Qed.

(** The image after [scale_image], for an image of positive width and
    height and a budget within the float range. *)
Lemma scale_image_defined (spec : PILSpec pil) image max_pixels :
  0 < fst (im_size image) < 2 ^ 53 ->
  0 < snd (im_size image) < 2 ^ 53 ->
  - 2 ^ 1023 < max_pixels < 2 ^ 1023 ->
  exists w h,
    target_size max_pixels (im_size image) = inr (w, h)
    /\ (64 | w) /\ (64 | h)
    /\ (0 < w -> 0 < h ->
        exists image1,
          scale_image (convert ModeRGB image) max_pixels = inr image1
          /\ round_down_64 (im_size image1) = (w, h)
          /\ im_mode image1 = ModeRGB).
Proof.
  intros Hw0 Hh0 HM. unfold target_size.
  pose proof (scale_image_scaled_size (convert ModeRGB image) max_pixels) as Hscale.
  rewrite convert_size in Hscale.
  destruct (im_size image) as [w0 h0] eqn:Hsz. cbn [fst snd] in Hw0, Hh0.
  destruct (scaled_size_defined max_pixels w0 h0 Hw0 Hh0 HM) as (scaled & Hs & Hle).
  rewrite Hs in Hscale |- *. cbn [rbind].
  destruct scaled as [[ws hs] |]; cbn [round_down_64].
  - exists (ws - ws mod 64), (hs - hs mod 64).
    split; [reflexivity |]. split; [apply round_down_64_divides |].
    split; [apply round_down_64_divides |].
    intros Hw Hh.
    pose proof (Z.mod_pos_bound ws 64 ltac:(lia)).
    pose proof (Z.mod_pos_bound hs 64 ltac:(lia)).
    destruct (resize_positive (convert ModeRGB image) ws hs ltac:(lia) ltac:(lia))
      as [image1 Hr].
    exists image1. rewrite Hscale. split; [exact Hr |].
    rewrite (resize_size _ _ _ Hr), (resize_mode _ _ _ Hr), convert_mode.
    split; reflexivity.
  - exists (w0 - w0 mod 64), (h0 - h0 mod 64).
    split; [reflexivity |]. split; [apply round_down_64_divides |].
    split; [apply round_down_64_divides |].
    intros Hw Hh. exists (convert ModeRGB image).
    rewrite Hscale, convert_size, convert_mode, Hsz. auto.
Qed.

(** C6 (amended). For an image of positive width and height (below 2^53)
    and a budget between [- 2^1023] and [2^1023], the size computed for
    the image - scaled down to the budget, then rounded down to multiples
    of 64 - is defined, and both its dimensions are multiples of 64.
    When it does not degenerate (both are positive), [preprocess] returns
    a tensor of shape (1, 3, height, width) with that height and width,
    holding 3 x height x width elements, each in [-1, 1]. *)
Theorem C6_preprocess (spec : PILSpec pil) (dspec : PILDataSpec pil) image max_pixels :
  0 < fst (im_size image) < 2 ^ 53 ->
  0 < snd (im_size image) < 2 ^ 53 ->
  - 2 ^ 1023 < max_pixels < 2 ^ 1023 ->
  exists w h,
    target_size max_pixels (im_size image) = inr (w, h)
    /\ (64 | w) /\ (64 | h)
    /\ (0 < w -> 0 < h ->
        exists t,
          preprocess image max_pixels = inr t
          /\ shape t = [1; 3; h; w]
          /\ length (data t) = Z.to_nat (3 * h * w)
          /\ Forall (fun x => in_unit_range x = true) (data t)).
Proof.
  intros Hw0 Hh0 HM.
  destruct (scale_image_defined spec image max_pixels Hw0 Hh0 HM)
    as (w & h & Ht & Hdw & Hdh & Himg).
  exists w, h. split; [exact Ht |]. split; [exact Hdw |]. split; [exact Hdh |].
  intros Hw Hh.
  destruct (Himg Hw Hh) as (image1 & Hs & Hround & Hmode1).
  destruct (resize_positive image1 w h Hw Hh) as [image2 Hr].
  rewrite <- Hround in Hr.
  exact (preprocess_resized_data spec dspec image max_pixels image1 image2 w h
           Hs Hr Hround Hmode1 ltac:(lia) ltac:(lia)).
Qed.

(** X13. An image within the pixel budget, at least 64 pixels wide and high,
    is not scaled: the tensor has the image's width and height rounded
    down to multiples of 64 (so an image whose sides are multiples of 64
    keeps its size); it holds 3 x height x width elements, and each of
    them lies in [-1, 1]. *)
Theorem X13_preprocess_within_budget (spec : PILSpec pil) (dspec : PILDataSpec pil)
        image max_pixels :
  64 <= fst (im_size image) ->
  64 <= snd (im_size image) ->
  pixel_count image <= max_pixels < 2 ^ 1023 ->
  exists t,
    preprocess image max_pixels = inr t
    /\ shape t = [1; 3;
                  snd (im_size image) - snd (im_size image) mod 64;
                  fst (im_size image) - fst (im_size image) mod 64]
    /\ length (data t)
       = Z.to_nat (3 * (snd (im_size image) - snd (im_size image) mod 64)
                     * (fst (im_size image) - fst (im_size image) mod 64))
    /\ Forall (fun x => in_unit_range x = true) (data t).
Proof.
  unfold pixel_count. intros Hw Hh [Hb Hmax].
  pose proof (scale_image_scaled_size (convert ModeRGB image) max_pixels) as Hss.
  rewrite convert_size in Hss.
  destruct (im_size image) as [w h] eqn:Hsz. cbn [fst snd] in *.
  destruct (scaled_size_within_budget max_pixels w h ltac:(nia)) as [Hsc | [Hbig _]].
  2:{ exfalso. apply (Z.lt_irrefl max_pixels). eapply Z.lt_le_trans; eassumption. }
  rewrite Hsc in Hss.
  pose proof (Z.mod_pos_bound w 64 ltac:(lia)).
  pose proof (Z.mod_pos_bound h 64 ltac:(lia)).
  pose proof (Z.mod_le w 64 ltac:(lia) ltac:(lia)).
  pose proof (Z.mod_le h 64 ltac:(lia) ltac:(lia)).
  assert (Hw' : 0 < w - w mod 64).
  { pose proof (Z.div_mod w 64 ltac:(lia)).
    assert (1 <= w / 64) by (apply Z.div_le_lower_bound; lia). lia. }
  assert (Hh' : 0 < h - h mod 64).
  { pose proof (Z.div_mod h 64 ltac:(lia)).
    assert (1 <= h / 64) by (apply Z.div_le_lower_bound; lia). lia. }
  destruct (resize_positive (convert ModeRGB image) _ _ Hw' Hh') as [image2 Hr].
  assert (Hround : round_down_64 (im_size (convert ModeRGB image))
                   = (w - w mod 64, h - h mod 64)).
  { rewrite convert_size, Hsz. reflexivity. }
  rewrite <- Hround in Hr.
  exact (preprocess_resized_data spec dspec image max_pixels (convert ModeRGB image) image2
           _ _ Hss Hr Hround (convert_mode _ _) ltac:(lia) ltac:(lia)).
Qed.

End PreprocessResult.

(** ** Reproducibility *)

Section Reproducibility.
Import Symbolic.

(** C5 (behaviour of the code). The call hands its generator to
    [torch.randn] only; [vae.encode(x).sample()] at line 166 is called
    without it and so draws from torch's global generator.  Two runs of
    the same call on a seed image, with the generator seeded alike and the
    same deterministic collaborators, that start from different states
    of the global generator both return, with different final latents and
    different outputs. *)
Theorem C5_unseeded_sample (seed global1 global2 : Z) :
  global1 <> global2 ->
  let r1 := run rng_handler (pipeline self seeded_call) (seeded_world seed global1) in
  let r2 := run rng_handler (pipeline self seeded_call) (seeded_world seed global2) in
  (exists out1 out2,
      snd (fst r1) = inr out1 /\ snd (fst r2) = inr out2 /\ out1 <> out2)
  /\ final_latents (fst (fst r1)) <> final_latents (fst (fst r2))
  /\ generator_state (snd r1) = generator_state (snd r2).
Proof.
  intros Hg r1 r2. split; [| split].
  - eexists _, _. split; [vm_compute; reflexivity |]. split; [vm_compute; reflexivity |].
    intros H. apply Hg. congruence.
  - vm_compute. intros H. apply Hg. congruence.
  - reflexivity.
Qed.

End Reproducibility.

(** ** The properties at concrete calls *)

Section Examples.
Import Symbolic.

Lemma symbolic_pil_spec : PILSpec pil.
Proof.
  constructor.
  - reflexivity.
  - reflexivity.
  - intros image w h Hw Hh. cbn [resize pil fst snd].
    destruct (w <? 1) eqn:E1; [apply Z.ltb_lt in E1; lia |].
    destruct (h <? 1) eqn:E2; [apply Z.ltb_lt in E2; lia |].
    eexists. reflexivity.
  - intros image size image'. cbn [resize pil].
    destruct (_ || _); [discriminate |]. intros H. injection H as <-. reflexivity.
  - intros image size image'. cbn [resize pil].
    destruct (_ || _); [discriminate |]. intros H. injection H as <-. reflexivity.
Qed.

Lemma symbolic_pil_rejects_empty : PILRejectsEmpty pil.
Proof.
  constructor. intros image w h Hempty. cbn [resize pil fst snd].
  assert (H : (w <? 1) || (h <? 1) = true).
  { apply orb_true_iff. destruct Hempty; [left | right]; apply Z.ltb_lt; assumption. }
  rewrite H. eexists. reflexivity.
Qed.

Lemma symbolic_pil_data : PILDataSpec pil.
Proof.
  constructor. intros image size image'. cbn [resize pil].
  destruct (_ || _); [discriminate |]. intros H. injection H as <-.
  cbn [blank im_data im_mode fst snd]. rewrite repeat_length. f_equal. lia.
Qed.

(** The run of [pipe("a red ball", init_image=tensor,
    num_inference_steps=3)] returns. *)
Lemma seed_run_returns :
  snd (fst (run handler
              (pipeline self (args (PStr "a red ball") 512 512 seed_tensor
                                   (PyFloat.literal 8 10) 3 (PyFloat.literal 75 10)))
              initial_world))
  = inr {| sample := inl []; nsfw_content_detected := [false] |}.
Proof. vm_compute. reflexivity. Qed.

Lemma seed_run_path :
  let a := args (PStr "a red ball") 512 512 seed_tensor (PyFloat.literal 8 10) 3
                (PyFloat.literal 75 10) in
  paths (pipeline self a) (fst (fst (run handler (pipeline self a) initial_world)))
        (inr {| sample := inl []; nsfw_content_detected := [false] |}).
Proof.
  intros a. rewrite <- seed_run_returns. apply run_paths.
Qed.

(** C1 at [pipe("a red ball", init_image=tensor, num_inference_steps=3)]:
    with the default guidance scale 7.5, and with guidance scale 1.0. *)
Lemma C1_guidance_witness :
  let a := args (PStr "a red ball") 512 512 seed_tensor (PyFloat.literal 8 10) 3
                (PyFloat.literal 75 10) in
  let a1 := args (PStr "a red ball") 512 512 seed_tensor (PyFloat.literal 8 10) 3
                 PyFloat.one in
  let tr := fst (fst (run handler (pipeline self a) initial_world)) in
  let tr1 := fst (fst (run handler (pipeline self a1) initial_world)) in
  (exists k schedule,
      get_init_timestep (num_inference_steps a) (init_strength a) (scheduler_offset self)
      = inr k
      /\ last_schedule tr = Some schedule
      /\ count_calls step_callb tr
         = length (py_slice_from schedule
                     (t_start_of (num_inference_steps a) k (scheduler_offset self)))
      /\ count_calls unet_callb tr = count_calls step_callb tr)
  /\ (PyFloat.ltb PyFloat.one (guidance_scale a) = true
      /\ forall pre noise_pred t latents kw r post,
          tr = pre ++ Ev (SchedulerStep noise_pred t latents kw) r :: post ->
          exists pre' x t' out uncond cond noise_pred_uncond noise_pred_text,
            pre = pre' ++ [Ev (Unet x t' (t_cat [uncond; cond])) (inr out)]
            /\ unconditional_embedding pre' uncond
            /\ conditional_embedding self a pre' cond
            /\ t_chunk 2 out = [noise_pred_uncond; noise_pred_text]
            /\ noise_pred =
               t_add noise_pred_uncond
                     (s_mul (NFloat (guidance_scale a))
                            (t_sub noise_pred_text noise_pred_uncond)))
  /\ (PyFloat.leb (guidance_scale a1) PyFloat.one = true
      /\ forall pre noise_pred t latents kw r post,
          tr1 = pre ++ Ev (SchedulerStep noise_pred t latents kw) r :: post ->
          exists pre' x t' cond,
            pre = pre' ++ [Ev (Unet x t' cond) (inr noise_pred)]
            /\ conditional_embedding self a1 pre' cond).
Proof.
  intros a a1 tr tr1. split; [| split; (split; [reflexivity |])].
  - exact (proj1 (C1_guidance self a _ _ seed_run_path) _ eq_refl).
  - exact (proj1 (proj2 (C1_guidance self a _ _
                           (run_paths handler (pipeline self a) initial_world))) eq_refl).
  - exact (proj1 (proj2 (proj2 (C1_guidance self a1 _ _
                                  (run_paths handler (pipeline self a1) initial_world)))
                        eq_refl)).
Defined.

(** The iterations of that run: entries 1 and 2 of the schedule of three
    timesteps, two UNet calls and two scheduler steps. *)
Lemma guidance_example_counts :
  let a := args (PStr "a red ball") 512 512 seed_tensor (PyFloat.literal 8 10) 3
                (PyFloat.literal 75 10) in
  let tr := fst (fst (run handler (pipeline self a) initial_world)) in
  count_calls unet_callb tr = 2%nat /\ count_calls step_callb tr = 2%nat.
Proof. vm_compute. split; reflexivity. Qed.

(** The run of that call makes scheduler steps: its final latents are the
    answer of the last one. *)
Lemma guidance_example_steps :
  let a := args (PStr "a red ball") 512 512 seed_tensor (PyFloat.literal 8 10) 3
                (PyFloat.literal 75 10) in
  final_latents (fst (fst (run handler (pipeline self a) initial_world))) <> None.
Proof. vm_compute. discriminate. Qed.

(** C3 at [pipe("a red ball")], every keyword at its default. *)
Lemma C3_pure_noise_witness :
  let a := default_args (PStr "a red ball") in
  let r := run handler (pipeline self a) initial_world in
  init_image a = None
  /\ (exists e, snd (fst r) = inl e)
  /\ Forall (fun ev => ~ is_unet ev /\ ~ is_step ev) (fst (fst r))
  /\ (forall b, validate a = inr b -> Forall answered (fst (fst r)) ->
      snd (fst r) = inl (UnboundLocalError "init_timestep")
      \/ snd (fst r) = inl IndexError).
Proof.
  intros a r. split; [reflexivity |].
  exact (C3_pure_noise_never_samples self a eq_refl _ _
           (run_paths handler (pipeline self a) initial_world)).
Defined.

Lemma pure_noise_example :
  snd (fst (run handler (pipeline self (default_args (PStr "a red ball"))) initial_world))
  = inl (UnboundLocalError "init_timestep").
Proof. vm_compute. reflexivity. Qed.

(** C4 as stated fails: for 4 steps, strength 0.9375 and offset 0 the
    product is 3.75; [int] gives 3, rounding gives 4. *)
Lemma C4_counterexample :
  get_init_timestep 4 (PyFloat.literal 15 16) 0 = inr 3
  /\ spec_init_timestep 4 (PyFloat.literal 15 16) 0 = inr 4
  /\ get_init_timestep 4 (PyFloat.literal 15 16) 0
     <> spec_init_timestep 4 (PyFloat.literal 15 16) 0.
Proof.
  split; [vm_compute; reflexivity |]. split; [vm_compute; reflexivity |].
  vm_compute. discriminate.
Qed.

(** C4 (amended) at [pipe("a red ball", init_image=tensor,
    num_inference_steps=3)]: strength 0.8, offset 1. *)
Lemma C4_init_timestep_witness :
  let a := args (PStr "a red ball") 512 512 seed_tensor (PyFloat.literal 8 10) 3
                (PyFloat.literal 75 10) in
  let r := run handler (pipeline self a) initial_world in
  let tr := fst (fst r) in
  (init_image a <> None
   /\ valid_binary PyFloat.prec PyFloat.emax (init_strength a) = true
   /\ PyFloat.leb PyFloat.zero (init_strength a) = true
   /\ PyFloat.leb (init_strength a) PyFloat.one = true
   /\ 0 <= num_inference_steps a < 2 ^ 53)
  /\ exists product,
      PyFloat.int_mul 3 (init_strength a) = inr product
      /\ 0 <= PyFloat.trunc product <= 3
      /\ (forall pre m kw r' post,
             tr = pre ++ Ev (SetTimesteps m kw) r' :: post -> m = 3 /\ kw = Some 1)
      /\ (forall pre x noise ts r' post,
             tr = pre ++ Ev (AddNoise x noise ts) r' :: post ->
             noised_at self a (Z.min (PyFloat.trunc product + 1) 3) pre ts)
      /\ (forall out, snd (fst r) = inr out ->
            (exists pre x noise ts noised post,
                tr = pre ++ Ev (AddNoise x noise ts) (inr noised) :: post
                /\ noised_at self a (Z.min (PyFloat.trunc product + 1) 3) pre ts)
            /\ exists schedule,
                last_schedule tr = Some schedule
                /\ count_calls unet_callb tr
                   = length (py_slice_from schedule
                               (Z.max (3 - Z.min (PyFloat.trunc product + 1) 3 + 1) 0))).
Proof.
  intros a r tr.
  assert (Hi : init_image a <> None) by discriminate.
  assert (Hn : 0 <= num_inference_steps a < 2 ^ 53) by (cbn [a args num_inference_steps]; lia).
  split; [repeat split; try reflexivity; try exact Hi; apply Hn |].
  exact (C4_init_timestep self a tr _ Hi eq_refl eq_refl eq_refl Hn
           (run_paths handler (pipeline self a) initial_world)).
Defined.

(** In that run: [int(3 * 0.8)] is 2, [init_timestep] is 3, the noise is
    added at entry -3 of the schedule, and the loop walks entries 1
    and 2. *)
Lemma init_timestep_example :
  get_init_timestep 3 (PyFloat.literal 8 10) 1 = inr 3
  /\ t_start_of 3 3 1 = 1.
Proof. split; vm_compute; reflexivity. Qed.

(** C5 at the global generator states 0 and 1, the caller's generator
    seeded with 0 both times. *)
Lemma C5_unseeded_sample_witness :
  let r1 := run rng_handler (pipeline self seeded_call) (seeded_world 0 0) in
  let r2 := run rng_handler (pipeline self seeded_call) (seeded_world 0 1) in
  0 <> 1
  /\ (exists out1 out2,
         snd (fst r1) = inr out1 /\ snd (fst r2) = inr out2 /\ out1 <> out2)
  /\ final_latents (fst (fst r1)) <> final_latents (fst (fst r2))
  /\ generator_state (snd r1) = generator_state (snd r2).
Proof.
  intros r1 r2.
  assert (H : 0 <> 1) by discriminate.
  split; [exact H |].
  exact (C5_unseeded_sample 0 0 1 H).
Defined.

(** C6 as stated fails: a 64 x 64 image does not degenerate, and with a
    budget of 2^1100 the quotient of line 23 is beyond the floats:
    [preprocess] raises OverflowError. *)
Lemma C6_counterexample :
  let image := blank ModeRGB (64, 64) in
  round_down_64 (im_size image) = (64, 64)
  /\ preprocess image (2 ^ 1100) = inl OverflowError
  /\ ~ (exists t, preprocess image (2 ^ 1100) = inr t).
Proof.
  intros image.
  assert (H : preprocess image (2 ^ 1100) = inl OverflowError) by (vm_compute; reflexivity).
  split; [reflexivity |]. split; [exact H |].
  intros [t Ht]. rewrite H in Ht. discriminate Ht.
Qed.

(** C6 (amended) at a 100 x 80 image: no scaling, rounded down to
    64 x 64. *)
Lemma C6_preprocess_witness :
  let image := blank ModeRGBA (100, 80) in
  (0 < fst (im_size image) < 2 ^ 53 /\ 0 < snd (im_size image) < 2 ^ 53
   /\ - 2 ^ 1023 < 262144 < 2 ^ 1023)
  /\ exists w h,
      target_size 262144 (im_size image) = inr (w, h)
      /\ (64 | w) /\ (64 | h)
      /\ (0 < w -> 0 < h ->
          exists t,
            preprocess image 262144 = inr t
            /\ shape t = [1; 3; h; w]
            /\ length (data t) = Z.to_nat (3 * h * w)
            /\ Forall (fun x => in_unit_range x = true) (data t)).
Proof.
  intros image.
  assert (Hw : 0 < fst (im_size image) < 2 ^ 53) by (cbn [image blank im_size fst]; lia).
  assert (Hh : 0 < snd (im_size image) < 2 ^ 53) by (cbn [image blank im_size snd]; lia).
  assert (HM : - 2 ^ 1023 < 262144 < 2 ^ 1023).
  { split; apply Z.ltb_lt; vm_compute; reflexivity. }
  split; [split; [exact Hw | split; [exact Hh | exact HM]] |].
  exact (C6_preprocess symbolic_pil_spec symbolic_pil_data image 262144 Hw Hh HM).
Defined.

(** The size computed for that image. *)
Lemma target_size_example :
  target_size 262144 (100, 80) = inr (64, 64).
Proof. vm_compute. reflexivity. Qed.

(** C7 as stated fails: an empty image has area 0, within any budget,
    and [scale_image] raises ZeroDivisionError on it. *)
Lemma C7_counterexample :
  let image := blank ModeRGB (0, 0) in
  ~ (pixel_count image <= 262144 -> scale_image image 262144 = inr image).
Proof.
  intros image H.
  assert (Hb : pixel_count image <= 262144) by (vm_compute; discriminate).
  specialize (H Hb). vm_compute in H. discriminate H.
Qed.

(** C7 (amended) at an 800 x 600 image. *)
Lemma C7_scale_image_witness :
  let image := blank ModeRGB (800, 600) in
  (0 < fst (im_size image) < 2 ^ 53 /\ 0 < snd (im_size image) < 2 ^ 53)
  /\ (forall image', scale_image image 262144 = inr image' ->
                     pixel_count image' <= pixel_count image)
  /\ (pixel_count image <= 262144 ->
      scale_image image 262144 = inr image
      \/ (2 ^ 1023 <= 262144
          /\ scale_image image 262144 = inl OverflowError)).
Proof.
  intros image.
  assert (Hw : 0 < fst (im_size image) < 2 ^ 53) by (cbn [image blank im_size fst]; lia).
  assert (Hh : 0 < snd (im_size image) < 2 ^ 53) by (cbn [image blank im_size snd]; lia).
  split; [split; assumption |].
  exact (C7_scale_image symbolic_pil_spec image 262144 Hw Hh).
Defined.

Lemma scale_image_example :
  scaled_size 262144 (800, 600) = inr (Some (591, 443))
  /\ scaled_size 262144 (512, 512) = inr None
  /\ scaled_size (2 ^ 1100) (512, 512) = inl OverflowError.
Proof. repeat split; vm_compute; reflexivity. Qed.

(** C10 as stated fails: an image of width 0 has a width that is 0 after
    rounding down, and [preprocess] fails on it with ZeroDivisionError,
    not with a ValueError. *)
Lemma C10_counterexample :
  let image := blank ModeRGB (0, 64) in
  ~ (fst (round_down_64 (im_size image)) = 0 ->
     exists m, preprocess image 262144 = inl (ValueError m)).
Proof.
  intros image H. destruct (H eq_refl) as [m Hm].
  vm_compute in Hm. discriminate Hm.
Qed.

(** C10 (amended) at a 32 x 32 image. *)
Lemma C10_preprocess_empty_size_witness :
  let image := blank ModeRGB (32, 32) in
  (target_size 262144 (im_size image) = inr (0, 0) /\ (0 < 1 \/ 0 < 1))
  /\ exists text, preprocess image 262144 = inl (ValueError (MsgLibrary text)).
Proof.
  intros image.
  assert (Ht : target_size 262144 (im_size image) = inr (0, 0))
    by (vm_compute; reflexivity).
  assert (He : 0 < 1 \/ 0 < 1) by (left; lia).
  split; [split; assumption |].
  exact (C10_preprocess_empty_size symbolic_pil_spec symbolic_pil_rejects_empty
           image 262144 0 0 Ht He).
Defined.

End Examples.

(** ** Further properties at concrete calls *)

Section MoreExamples.
Import Symbolic.

(** The count of iterations at that call: 3 steps, strength 0.8. *)
Lemma X1_sampling_step_count_witness :
  let a := args (PStr "a red ball") 512 512 seed_tensor (PyFloat.literal 8 10) 3
                (PyFloat.literal 75 10) in
  let tr := fst (fst (run handler (pipeline self a) initial_world)) in
  init_image a <> None
  /\ exists k schedule,
    get_init_timestep (num_inference_steps a) (init_strength a) (scheduler_offset self)
    = inr k
    /\ last_schedule tr = Some schedule
    /\ count_calls unet_callb tr
       = length (py_slice_from schedule
                   (t_start_of (num_inference_steps a) k (scheduler_offset self)))
    /\ count_calls step_callb tr = count_calls unet_callb tr.
Proof.
  intros a tr. exact (X1_sampling_step_count self a tr _ seed_run_path).
Defined.

Lemma X3_loop_walks_schedule_witness :
  let a := args (PStr "a red ball") 512 512 seed_tensor (PyFloat.literal 8 10) 3
                (PyFloat.literal 75 10) in
  let tr := fst (fst (run handler (pipeline self a) initial_world)) in
  exists k,
    get_init_timestep (num_inference_steps a) (init_strength a) (scheduler_offset self)
    = inr k
    /\ (forall pre noise_pred t latents kw r post,
           tr = pre ++ Ev (SchedulerStep noise_pred t latents kw) r :: post ->
           kw = (if step_accepts_eta self then Some (eta a) else None)
           /\ exists ts,
               iteration_timestep
                 (t_start_of (num_inference_steps a) k (scheduler_offset self)) pre ts
               /\ t = (if scheduler_is_lms self
                       then inr (t_start_of (num_inference_steps a) k (scheduler_offset self)
                                 + Z.of_nat (count_calls step_callb pre))
                       else inl ts))
    /\ (forall pre x t emb r post,
           tr = pre ++ Ev (Unet x t emb) r :: post ->
           exists ts,
             iteration_timestep
               (t_start_of (num_inference_steps a) k (scheduler_offset self)) pre ts
             /\ t = (if scheduler_is_lms self then t_to_dtype (unet_dtype self) ts else ts)
             /\ (scheduler_is_lms self = true ->
                 exists pre' sigmas sigma latents,
                   pre = pre' ++ [Ev SchedulerSigmas (inr sigmas)]
                   /\ py_index sigmas
                        (t_start_of (num_inference_steps a) k (scheduler_offset self)
                         + Z.of_nat (count_calls step_callb pre)) = inr sigma
                   /\ x = model_input self a latents (Some sigma))).
Proof.
  intros a tr. exact (X3_loop_walks_schedule self a tr _ seed_run_path).
Defined.

Lemma X4_latents_threaded_witness :
  let a := args (PStr "a red ball") 512 512 seed_tensor (PyFloat.literal 8 10) 3
                (PyFloat.literal 75 10) in
  let tr := fst (fst (run handler (pipeline self a) initial_world)) in
  exists init,
    (exists cuda_available x noise ts noised,
        In (Ev (AddNoise x noise ts) (inr noised)) tr
        /\ init = t_to (selected_device self a cuda_available) noised)
    /\ (forall pre noise_pred t latents kw r post,
           tr = pre ++ Ev (SchedulerStep noise_pred t latents kw) r :: post ->
           latents = latents_after init pre)
    /\ (forall pre x t emb r post,
           tr = pre ++ Ev (Unet x t emb) r :: post ->
           exists sigma, x = model_input self a (latents_after init pre) sigma)
    /\ (forall pre z r post,
           tr = pre ++ Ev (VaeDecode z) r :: post ->
           z = s_mul (NFloat (PyFloat.div PyFloat.one PyFloat.lit_0_18215))
                     (latents_after init pre)).
Proof.
  intros a tr. exact (X4_latents_threaded self a tr _ seed_run_path).
Defined.

Lemma X5_output_is_safety_checked_witness :
  let a := args (PStr "a red ball") 512 512 seed_tensor (PyFloat.literal 8 10) 3
                (PyFloat.literal 75 10) in
  let tr := fst (fst (run handler (pipeline self a) initial_world)) in
  let out := {| sample := inl []; nsfw_content_detected := [false] |} in
  exists pre images clip_input checked flags,
    tr = pre ++ [Ev (SafetyChecker images clip_input) (inr (checked, flags))]
    /\ count_calls safety_checker_callb pre = 0%nat
    /\ nsfw_content_detected out = flags
    /\ sample out = (if String.eqb (output_type a) "pil"
                     then inl (numpy_to_pil checked) else inr checked).
Proof.
  intros a tr out. exact (X5_output_is_safety_checked self a tr out seed_run_path).
Defined.

(** [pipe(7, torch_device=None)]: the prompt is rejected after the
    pipeline was moved to the CPU. *)
Lemma X8_torch_device_applied_before_validation_witness :
  let a := {| prompt := PInt 7; height := 512; width := 512; init_image := None;
              init_max_pixels := 262144; init_strength := PyFloat.literal 8 10;
              num_inference_steps := 50; guidance_scale := PyFloat.literal 75 10;
              eta := PyFloat.zero; generator := None; output_type := "pil";
              torch_device := Some None |} in
  let r := run handler (pipeline self a) initial_world in
  (torch_device a = Some None
   /\ validate a = inl (ValueError (MsgPromptType TInt))
   /\ Forall answered (fst (fst r)))
  /\ snd (fst r) = inl (ValueError (MsgPromptType TInt))
  /\ exists cuda_available,
      fst (fst r)
      = Ev (Warn " Consider using `pipe.to(torch_device)` instead.") (inr tt)
        :: [Ev CudaIsAvailable (inr cuda_available)]
        ++ [Ev (PipeTo (selected_device self a cuda_available)) (inr tt)].
Proof.
  intros a r.
  assert (Ha : Forall answered (fst (fst r))) by (vm_compute; repeat constructor).
  split; [split; [reflexivity | split; [reflexivity | exact Ha]] |].
  exact (X8_torch_device_applied_before_validation self a None _ _ _ eq_refl eq_refl
           (run_paths handler (pipeline self a) initial_world) Ha).
Defined.

Lemma X6_scheduler_configured_first_witness :
  let a := args (PStr "a red ball") 512 512 seed_tensor (PyFloat.literal 8 10) 3
                (PyFloat.literal 75 10) in
  let tr := fst (fst (run handler (pipeline self a) initial_world)) in
  (count_calls set_timesteps_callb tr <= 1)%nat
  /\ forall pre ev post,
      tr = pre ++ ev :: post ->
      scheduler_use (ev_call ev) ->
      In (Ev (SetTimesteps (num_inference_steps a)
                           (if set_timesteps_accepts_offset self then Some 1 else None))
             (inr tt)) pre.
Proof.
  intros a tr.
  exact (X6_scheduler_configured_first self a tr _
           (run_paths handler (pipeline self a) initial_world)).
Defined.

Lemma X7_noise_drawn_once_witness :
  let a := args (PStr "a red ball") 512 512 seed_tensor (PyFloat.literal 8 10) 3
                (PyFloat.literal 75 10) in
  let tr := fst (fst (run handler (pipeline self a) initial_world)) in
  (count_calls randn_callb tr <= 1)%nat
  /\ forall pre size g device r post,
      tr = pre ++ Ev (Randn size g device) r :: post ->
      g = generator a
      /\ exists cuda_available,
          device = selected_device self a cuda_available
          /\ (torch_device a = Some None ->
              In (Ev CudaIsAvailable (inr cuda_available)) pre).
Proof.
  intros a tr.
  exact (X7_noise_drawn_once self a tr _ (run_paths handler (pipeline self a) initial_world)).
Defined.

(** [pipe("a", init_image=tensor, init_strength=float("nan"))]. *)
Lemma X9_nan_strength_not_rejected_witness :
  let a := args (PStr "a") 512 512 seed_tensor S754_nan 3 (PyFloat.literal 75 10) in
  (init_image a <> None /\ init_strength a = S754_nan)
  /\ check_strength a = inr tt
  /\ forall tr o, paths (pipeline self a) tr o ->
       (exists e, o = inl e)
       /\ count_calls unet_callb tr = 0%nat
       /\ count_calls step_callb tr = 0%nat
       /\ (forall b, validate a = inr b -> Forall answered tr ->
           exists e,
             o = inl e
             /\ (e = ValueError MsgNanToInt \/ e = OverflowError \/ e = IndexError
                 \/ (b <= 0 /\ e = RuntimeError MsgEmptyCat)
                 \/ exists image,
                     init_image a = Some (inr image)
                     /\ preprocess image (init_max_pixels a) = inl e)).
Proof.
  intros a.
  assert (Hi : init_image a <> None) by discriminate.
  split; [split; [exact Hi | reflexivity] |].
  exact (X9_nan_strength_not_rejected self a Hi eq_refl).
Defined.

Lemma nan_strength_example :
  snd (fst (run handler
              (pipeline self (args (PStr "a") 512 512 seed_tensor S754_nan 3
                                   (PyFloat.literal 75 10)))
              initial_world))
  = inl (ValueError MsgNanToInt).
Proof. vm_compute. reflexivity. Qed.

(** The same call with [height=64, width=1024]. *)
Lemma X10_seed_mode_ignores_size_witness :
  let a := args (PStr "a red ball") 512 512 seed_tensor (PyFloat.literal 8 10) 3
                (PyFloat.literal 75 10) in
  let r := run handler (pipeline self a) initial_world in
  (init_image a <> None /\ check_size a = inr tt
   /\ check_size (with_size a 64 1024) = inr tt)
  /\ (paths (pipeline self (with_size a 64 1024)) (fst (fst r)) (snd (fst r))
      <-> paths (pipeline self a) (fst (fst r)) (snd (fst r))).
Proof.
  intros a r.
  assert (Hi : init_image a <> None) by discriminate.
  split; [split; [exact Hi | split; reflexivity] |].
  exact (X10_seed_mode_ignores_size self a 64 1024 Hi eq_refl eq_refl _ _).
Defined.

(** The same call with [init_max_pixels=1]. *)
Lemma X11_max_pixels_only_for_pil_seed_witness :
  let a := args (PStr "a red ball") 512 512 seed_tensor (PyFloat.literal 8 10) 3
                (PyFloat.literal 75 10) in
  let r := run handler (pipeline self a) initial_world in
  (forall image, init_image a <> Some (inr image))
  /\ (paths (pipeline self (with_init_max_pixels a 1)) (fst (fst r)) (snd (fst r))
      <-> paths (pipeline self a) (fst (fst r)) (snd (fst r))).
Proof.
  intros a r.
  assert (Hi : forall image, init_image a <> Some (inr image)) by (intros image; discriminate).
  split; [exact Hi |].
  exact (X11_max_pixels_only_for_pil_seed self a 1 Hi _ _).
Defined.

(** 3 steps at strength 0.8 with a scheduler that takes [offset]:
    [int(2.4) = 2], the loop starts at entry 1 and makes 2 iterations. *)
Lemma X2_iterations_by_strength_witness :
  let a := args (PStr "a red ball") 512 512 seed_tensor (PyFloat.literal 8 10) 3
                (PyFloat.literal 75 10) in
  let tr := fst (fst (run handler (pipeline self a) initial_world)) in
  (valid_binary PyFloat.prec PyFloat.emax (init_strength a) = true
   /\ 0 <= num_inference_steps a < 2 ^ 53)
  /\ exists product schedule,
      PyFloat.int_mul (num_inference_steps a) (init_strength a) = inr product
      /\ 0 <= PyFloat.trunc product <= num_inference_steps a
      /\ last_schedule tr = Some schedule
      /\ count_calls unet_callb tr
         = (length schedule
            - Z.to_nat (Z.max (num_inference_steps a - PyFloat.trunc product)
                              (scheduler_offset self)))%nat
      /\ (length schedule = Z.to_nat (num_inference_steps a) ->
          count_calls unet_callb tr
          = Z.to_nat (Z.min (PyFloat.trunc product)
                            (num_inference_steps a - scheduler_offset self))).
Proof.
  intros a tr.
  assert (Hn : 0 <= num_inference_steps a < 2 ^ 53) by (cbn [a args num_inference_steps]; lia).
  split; [split; [reflexivity | exact Hn] |].
  exact (X2_iterations_by_strength self a tr _ eq_refl Hn seed_run_path).
Defined.

Lemma iterations_example :
  count_calls unet_callb
    (fst (fst (run handler
                 (pipeline self (args (PStr "a red ball") 512 512 seed_tensor
                                      (PyFloat.literal 8 10) 3 (PyFloat.literal 75 10)))
                 initial_world))) = 2%nat.
Proof. vm_compute. reflexivity. Qed.

(** A 100 x 80 RGBA image is converted and, within the budget, kept by
    [scale_image]. *)
Lemma scale_image_keeps_example :
  scale_image (convert ModeRGB (blank ModeRGBA (100, 80))) 262144
  = inr (blank ModeRGB (100, 80)).
Proof.
  rewrite scale_image_scaled_size.
  change (im_size (convert ModeRGB (blank ModeRGBA (100, 80)))) with (100, 80).
  assert (H : scaled_size 262144 (100, 80) = inr None) by (vm_compute; reflexivity).
  rewrite H. reflexivity.
Qed.

(** That image: converted, kept by [scale_image], resized to 64 x 64. *)
Lemma X12_preprocess_never_upscales_witness :
  let image := blank ModeRGBA (100, 80) in
  (0 < fst (im_size image) < 2 ^ 53 /\ 0 < snd (im_size image) < 2 ^ 53)
  /\ exists t,
      preprocess image 262144 = inr t
      /\ exists h w,
          shape t = [1; 3; h; w]
          /\ 0 <= w <= fst (im_size image)
          /\ 0 <= h <= snd (im_size image)
          /\ (64 | h) /\ (64 | w).
Proof.
  intros image.
  assert (Hw : 0 < fst (im_size image) < 2 ^ 53) by (cbn [image blank im_size fst]; lia).
  assert (Hh : 0 < snd (im_size image) < 2 ^ 53) by (cbn [image blank im_size snd]; lia).
  split; [split; assumption |].
  destruct (preprocess_resized image 262144 (blank ModeRGB (100, 80))
              (blank ModeRGB (64, 64)) 64 64 scale_image_keeps_example
              eq_refl eq_refl eq_refl)
    as (t & Hp & _).
  exists t. split; [exact Hp |].
  exact (X12_preprocess_never_upscales symbolic_pil_spec image 262144 t Hw Hh Hp).
Defined.

(** A 128 x 100 image within the default budget: the tensor is 128 wide
    and 64 high. *)
Lemma X13_preprocess_within_budget_witness :
  let image := blank ModeRGB (128, 100) in
  (64 <= fst (im_size image) /\ 64 <= snd (im_size image)
   /\ pixel_count image <= 262144 < 2 ^ 1023)
  /\ exists t,
      preprocess image 262144 = inr t
      /\ shape t = [1; 3;
                    snd (im_size image) - snd (im_size image) mod 64;
                    fst (im_size image) - fst (im_size image) mod 64]
      /\ length (data t)
         = Z.to_nat (3 * (snd (im_size image) - snd (im_size image) mod 64)
                       * (fst (im_size image) - fst (im_size image) mod 64))
      /\ Forall (fun x => in_unit_range x = true) (data t).
Proof.
  intros image.
  assert (Hw : 64 <= fst (im_size image)) by (cbn [image blank im_size fst]; lia).
  assert (Hh : 64 <= snd (im_size image)) by (cbn [image blank im_size snd]; lia).
  assert (Hb : pixel_count image <= 262144 < 2 ^ 1023).
  { unfold pixel_count. cbn [image blank im_size fst snd]. split; [lia |].
    apply Z.ltb_lt. vm_compute. reflexivity. }
  split; [split; [exact Hw | split; [exact Hh | exact Hb]] |].
  exact (X13_preprocess_within_budget symbolic_pil_spec symbolic_pil_data image 262144
           Hw Hh Hb).
Defined.

(** The layout at the 100 x 80 image, resized to 64 x 64. *)
Lemma X15_preprocess_layout_witness :
  let image := blank ModeRGBA (100, 80) in
  let image1 := blank ModeRGB (100, 80) in
  let image2 := blank ModeRGB (64, 64) in
  (scale_image (convert ModeRGB image) 262144 = inr image1
   /\ resize image1 (round_down_64 (im_size image1)) = inr image2
   /\ im_size image2 = (64, 64)
   /\ im_mode image2 = ModeRGB
   /\ 0 <= 64
   /\ length (im_data image2) = Z.to_nat (64 * 64 * 3))
  /\ exists t,
      preprocess image 262144 = inr t
      /\ shape t = [1; 3; 64; 64]
      /\ length (data t) = Z.to_nat (3 * 64 * 64)
      /\ forall c y x,
          0 <= c < 3 -> 0 <= y < 64 -> 0 <= x < 64 ->
          nth_error (data t) (Z.to_nat ((c * 64 + y) * 64 + x))
          = option_map rescale
              (nth_error (im_data image2) (Z.to_nat ((y * 64 + x) * 3 + c))).
Proof.
  intros image image1 image2.
  assert (H64 : 0 <= 64) by lia.
  assert (Hlen : length (im_data image2) = Z.to_nat (64 * 64 * 3))
    by (apply repeat_length).
  split; [repeat split; try reflexivity; try assumption;
          exact scale_image_keeps_example |].
  exact (X15_preprocess_layout image 262144 image1 image2 64 64 scale_image_keeps_example
           eq_refl eq_refl eq_refl H64 H64 Hlen).
Defined.

End MoreExamples.

Section BudgetExamples.
Import Symbolic.

(** A 100 x 80 image under a budget of 1000 pixels is resized to
    35 x 28. *)
Lemma scale_image_shrinks_example :
  scale_image (blank ModeRGB (100, 80)) 1000 = inr (blank ModeRGB (35, 28)).
Proof.
  rewrite scale_image_scaled_size.
  change (im_size (blank ModeRGB (100, 80))) with (100, 80).
  assert (H : scaled_size 1000 (100, 80) = inr (Some (35, 28))) by (vm_compute; reflexivity).
  rewrite H. reflexivity.
Qed.

(** That image and its budget. *)
Lemma X16_scale_image_meets_budget_witness :
  let image := blank ModeRGB (100, 80) in
  let image' := blank ModeRGB (35, 28) in
  (0 < fst (im_size image) < 2 ^ 53 /\ 0 < snd (im_size image) < 2 ^ 53
   /\ 0 <= 1000 < 2 ^ 49
   /\ scale_image image 1000 = inr image')
  /\ pixel_count image' <= 1000.
Proof.
  intros image image'.
  assert (Hw : 0 < fst (im_size image) < 2 ^ 53) by (cbn [image blank im_size fst]; lia).
  assert (Hh : 0 < snd (im_size image) < 2 ^ 53) by (cbn [image blank im_size snd]; lia).
  assert (HM : 0 <= 1000 < 2 ^ 49) by lia.
  split; [repeat split; try apply Hw; try apply Hh; try apply HM;
          exact scale_image_shrinks_example |].
  exact (X16_scale_image_meets_budget symbolic_pil_spec image 1000 image' Hw Hh HM
           scale_image_shrinks_example).
Defined.

(** A 200 x 160 RGBA image under a budget of 10000 pixels is converted
    and resized to 111 x 89. *)
Lemma scale_image_shrinks_converted_example :
  scale_image (convert ModeRGB (blank ModeRGBA (200, 160))) 10000
  = inr (blank ModeRGB (111, 89)).
Proof.
  rewrite scale_image_scaled_size.
  change (im_size (convert ModeRGB (blank ModeRGBA (200, 160)))) with (200, 160).
  assert (H : scaled_size 10000 (200, 160) = inr (Some (111, 89))) by (vm_compute; reflexivity).
  rewrite H. reflexivity.
Qed.

(** That image: after [scale_image], resized to 64 x 64. *)
Lemma X17_preprocess_meets_budget_witness :
  let image := blank ModeRGBA (200, 160) in
  (0 < fst (im_size image) < 2 ^ 53 /\ 0 < snd (im_size image) < 2 ^ 53
   /\ 0 <= 10000 < 2 ^ 49)
  /\ exists t,
      preprocess image 10000 = inr t
      /\ exists h w,
          shape t = [1; 3; h; w] /\ 0 <= h /\ 0 <= w /\ h * w <= 10000.
Proof.
  intros image.
  assert (Hw : 0 < fst (im_size image) < 2 ^ 53) by (cbn [image blank im_size fst]; lia).
  assert (Hh : 0 < snd (im_size image) < 2 ^ 53) by (cbn [image blank im_size snd]; lia).
  assert (HM : 0 <= 10000 < 2 ^ 49) by lia.
  split; [repeat split; try apply Hw; try apply Hh; apply HM |].
  destruct (preprocess_resized image 10000 (blank ModeRGB (111, 89))
              (blank ModeRGB (64, 64)) 64 64 scale_image_shrinks_converted_example
              eq_refl eq_refl eq_refl)
    as (t & Hp & _).
  exists t. split; [exact Hp |].
  exact (X17_preprocess_meets_budget symbolic_pil_spec image 10000 t Hw Hh HM Hp).
Defined.

(** A 100 x 80 image under a budget of -1 is returned as it is. *)
Lemma X18_scale_image_negative_budget_witness :
  let image := blank ModeRGB (100, 80) in
  (0 < fst (im_size image) < 2 ^ 53 /\ 0 < snd (im_size image) < 2 ^ 53 /\ -1 < 0)
  /\ (scale_image image (-1) = inr image
      \/ (-1 <= - 2 ^ 1023 /\ scale_image image (-1) = inl OverflowError)).
Proof.
  intros image.
  assert (Hw : 0 < fst (im_size image) < 2 ^ 53) by (cbn [image blank im_size fst]; lia).
  assert (Hh : 0 < snd (im_size image) < 2 ^ 53) by (cbn [image blank im_size snd]; lia).
  assert (HM : -1 < 0) by lia.
  split; [repeat split; try apply Hw; try apply Hh; exact HM |].
  exact (X18_scale_image_negative_budget image (-1) Hw Hh HM).
Defined.

End BudgetExamples.
